(** * HyperDex: the daemon's region directory and its maintenance scheduler

    A shallow embedding of [hyperdaemon/datalayer.cc] (the region-to-disk
    directory, its reconfiguration protocol [prepare] / [cleanup], the
    request delegation [get] / [put] / [del] and one iteration of the
    background [flush_loop]) and of the interface declared in
    [disk/append_only_log_segment_list.h]. *)

From Stdlib Require Import ZArith NArith Lia.
From stdpp Require Import base option list sorting functions gmap.

Local Open Scope N_scope.

(** ** Three-way comparisons

    [std::map] keeps its keys ordered by [operator<]; iteration order,
    [lower_bound] and [upper_bound] depend on it.  Orders are given as
    three-way comparisons so that the lexicographic order of a compound
    identifier is built from the orders of its fields. *)

Class Comparison {A : Type} (cmp : A → A → comparison) : Prop := {
  cmp_eq : ∀ a b, cmp a b = Eq ↔ a = b;
  cmp_opp : ∀ a b, cmp b a = CompOpp (cmp a b);
  cmp_lt_trans : ∀ a b c, cmp a b = Lt → cmp b c = Lt → cmp a c = Lt
}.

Arguments cmp_eq {A} cmp {_} a b.
Arguments cmp_opp {A} cmp {_} a b.
Arguments cmp_lt_trans {A} cmp {_} a b c.

Definition lex (c1 c2 : comparison) : comparison :=
  match c1 with Eq => c2 | _ => c1 end.

Definition cmp_leb {A} (cmp : A → A → comparison) (a b : A) : bool :=
  match cmp a b with Gt => false | _ => true end.

Definition cmp_ltb {A} (cmp : A → A → comparison) (a b : A) : bool :=
  match cmp a b with Lt => true | _ => false end.

(** The lexicographic comparison of pairs. *)
Definition pair_compare {A B} (ca : A → A → comparison) (cb : B → B → comparison)
    (x y : A * B) : comparison :=
  lex (ca x.1 y.1) (cb x.2 y.2).

(** ** Identifiers ([hyperdex/ids.h]) *)

(** Modelled from the spec: the identifier classes are declared in
    [hyperdex/ids.h], which is not among the sources.  A region identifier
    is "(space, subspace, partition coordinates)", totally ordered and
    usable as a map key.  [space] is compared with a [uint32_t] constant in
    the code. *)
Record regionid : Type := mk_regionid {
  space : N;      (* uint32_t *)
  subspace : N;   (* uint16_t *)
  prefix : N;     (* uint8_t  *)
  mask : N        (* uint64_t *)
}.

(** Modelled from the spec: the key of the "subspace to hashing-strategy
    lookup", declared in [hyperdex/ids.h]. *)
Record subspaceid : Type := mk_subspaceid {
  ss_space : N;
  ss_subspace : N
}.

(** Modelled from the spec: an entity identifier is "scoped to a region
    plus a replica index" and the entity table is "ordered by region then
    replica index"; the code builds one with [entityid(region, number)],
    [number] ranging up to [UINT8_MAX]. *)
Record entityid : Type := mk_entityid {
  entity_region : regionid;   (* entityid::get_region() *)
  number : N                  (* uint8_t *)
}.

(** [regionid::get_subspace()] and [entityid::get_subspace()]. *)
Definition region_subspace (r : regionid) : subspaceid :=
  mk_subspaceid (space r) (subspace r).
Definition entity_subspace (e : entityid) : subspaceid :=
  region_subspace (entity_region e).
(** [e.space] for an entity identifier. *)
Definition entity_space (e : entityid) : N := space (entity_region e).

Definition UINT8_MAX : N := 255.
Definition UINT16_MODULUS : N := 2 ^ 16.
Definition UINT32_MAX : N := 2 ^ 32 - 1.
Definition UINT64_MODULUS : Z := (2 ^ 64)%Z.

(** [std::numeric_limits<uint32_t>::max() - 1]: the space of identifiers
    used for internal bookkeeping. *)
Definition SENTINEL_SPACE : N := UINT32_MAX - 1.

Definition regionid_compare (a b : regionid) : comparison :=
  lex (space a ?= space b)
    (lex (subspace a ?= subspace b)
      (lex (prefix a ?= prefix b) (mask a ?= mask b))).

Definition entityid_compare (a b : entityid) : comparison :=
  lex (regionid_compare (entity_region a) (entity_region b))
      (number a ?= number b).

#[global] Instance regionid_eq_dec : EqDecision regionid.
Proof. solve_decision. Defined.
#[global] Instance subspaceid_eq_dec : EqDecision subspaceid.
Proof. solve_decision. Defined.
#[global] Instance entityid_eq_dec : EqDecision entityid.
Proof. solve_decision. Defined.

#[global] Instance regionid_countable : Countable regionid.
Proof.
  refine (inj_countable'
    (λ r, (space r, subspace r, prefix r, mask r))
    (λ t, let '(a, b, c, d) := t in mk_regionid a b c d) _).
  by intros [].
Defined.

#[global] Instance entityid_countable : Countable entityid.
Proof.
  refine (inj_countable'
    (λ e, (entity_region e, number e))
    (λ t, mk_entityid t.1 t.2) _).
  by intros [].
Defined.

(** ** [std::map] as an ordered container

    A [std::map<K,V>] is a finite map whose iteration visits the entries in
    increasing key order.  Lookup, insertion and erasure are those of
    [gmap]; [map_elements] is the sequence [begin() .. end()].  An iterator
    is the suffix of that sequence that starts at its position, so [end()]
    is the empty suffix. *)

Section stdmap.
Context {K : Type} `{Countable K} {V : Type} (cmp : K → K → comparison).

Definition key_le (x y : K * V) : Prop := cmp_leb cmp x.1 y.1 = true.

#[global] Instance key_le_dec x y : Decision (key_le x y).
Proof. unfold key_le. apply _. Defined.

Definition map_elements (m : gmap K V) : list (K * V) :=
  merge_sort key_le (map_to_list m).

(** [m.lower_bound(k)]: the first entry whose key is not less than [k]. *)
Fixpoint lower_bound (k : K) (it : list (K * V)) : list (K * V) :=
  match it with
  | [] => []
  | x :: it' => if cmp_ltb cmp x.1 k then lower_bound k it' else it
  end.

(** [m.upper_bound(k)]: the first entry whose key is greater than [k]. *)
Fixpoint upper_bound (k : K) (it : list (K * V)) : list (K * V) :=
  match it with
  | [] => []
  | x :: it' => if cmp_leb cmp x.1 k then upper_bound k it' else it
  end.

(** The entries visited by [for (; first != last; ++first)] when [last]
    is reachable from [first]. *)
Definition iter_range (first last : list (K * V)) : list (K * V) :=
  take (length first - length last) first.
End stdmap.

(** [std::map::insert] does not overwrite an existing entry. *)
Definition map_insert_new `{Countable K} {V} (k : K) (v : V)
    (m : gmap K V) : gmap K V :=
  match m !! k with
  | Some _ => m
  | None => <[k := v]> m
  end.

(** ** The storage engine ([hyperdisk::disk]) as a collaborator *)

(** Modelled from the spec: [hyperdisk::returncode] is declared in
    hyperdisk's headers, which are not among the sources; the spec lists
    "Success, DidNothing, DataFull, SearchFull, MissingDisk, Failure". *)
Inductive returncode : Type :=
  | SUCCESS | DIDNOTHING | DATAFULL | SEARCHFULL | MISSINGDISK | FAILURE.

#[global] Instance returncode_eq_dec : EqDecision returncode.
Proof. solve_decision. Defined.

(** Disk objects live on the heap and are shared through
    [e::intrusive_ptr]; a pointer is the address of the object. *)
Definition disk_ptr : Type := N.

(** The operations of a disk the directory calls.  [hyperdisk::disk] is
    declared in hyperdisk's headers, which are not among the sources, so
    its behaviour is a parameter of the development.  Every call may
    change the state of the disk object; the directory only looks at the
    return code.  [region_path base ri] is
    [po6::join(base, pathname(str(ri)))], where [str] prints the region
    identifier. *)
Class Hyperdisk : Type := {
  disk : Type;
  hasher : Type;
  pathname : Type;
  buffer : Type;
  snapshot : Type;
  rolling_snapshot : Type;
  region_path : pathname → regionid → pathname;
  disk_create : pathname → hasher → N → disk;
  disk_get : buffer → disk → returncode * option (list buffer * N) * disk;
  disk_put : buffer → list buffer → N → disk → returncode * disk;
  disk_del : buffer → disk → returncode * disk;
  disk_flush : N → disk → returncode * disk;
  disk_preallocate : disk → returncode * disk;
  disk_do_optimistic_io : disk → returncode * disk;
  disk_do_mandatory_io : disk → returncode * disk;
  disk_make_snapshot : disk → option snapshot * disk;
  disk_make_rolling_snapshot : disk → option rolling_snapshot * disk;
  disk_drop : disk → disk
}.

(** Modelled from the spec: [hyperdex::instance] is declared outside the
    sources; it "identifies a server process" and the code only compares
    instances with [==]. *)
Definition instance : Type := N.

(** Modelled from the spec: [hyperdex::configuration] is declared in
    [hyperdex/configuration.h], not among the sources.  It exposes the
    region to column-count table, the entity to instance table, the
    transfers destined for an instance, and the hasher of a subspace. *)
Record configuration `{Hyperdisk} : Type := mk_configuration {
  regions : gmap regionid N;                   (* sizes are [size_t] *)
  entity_mapping : gmap entityid instance;
  transfers_to : instance → gmap N regionid;   (* keyed by [uint16_t] *)
  disk_hasher : subspaceid → hasher
}.

(** ** Observable calls

    The calls the directory makes to its collaborators (disks, the log,
    the clock's sleep) are recorded in the order they are made. *)

Inductive severity : Type := INFO | WARNING | ERROR.

Inductive logmsg : Type :=
  | MsgFlushThreadStarted
  | MsgLogicError                       (* "There is a logic error in the configuration object." *)
  | MsgCreating (ri : regionid) (num_columns : N)
  | MsgDropping (ri : regionid)
  | MsgPreallocationFailed              (* "Disk preallocation failed" *)
  | MsgOptimisticFailed                 (* "Optimistic disk I/O failed" *)
  | MsgDiskIOReturned (ioret : returncode)
  | MsgDiskFlushReturned (ret : returncode).

Inductive event `{Hyperdisk} : Type :=
  | EvLog (s : severity) (m : logmsg)
  | EvCreate (ri : regionid) (path : pathname) (h : hasher) (num_columns : N)
             (d : disk_ptr)
  | EvDrop (ri : regionid) (d : disk_ptr)
  | EvPreallocate (ri : regionid) (d : disk_ptr) (ret : returncode)
  | EvOptimisticIO (ri : regionid) (d : disk_ptr) (ret : returncode)
  | EvFlush (ri : regionid) (d : disk_ptr) (timeout : N) (ret : returncode)
  | EvMandatoryIO (ri : regionid) (d : disk_ptr) (ioret : returncode)
  | EvSleep (seconds milliseconds : N).

(** ** The state *)

(** Modelled from the spec: the class [hyperdaemon::datalayer] is declared
    in [datalayer.h], which is not among the sources.  Its members are the
    ones the constructor in [datalayer.cc] initialises: the stop flag, the
    base path, the region to disk map, and the "two independent round-robin
    queues of RegionID" with the time of their last pass.  The record also
    holds the part of the process state the methods touch: the heap of disk
    objects, the next free address, and the clock read by [e::time()]. *)
Record world `{Hyperdisk} : Type := mk_world {
  m_shutdown : bool;
  m_base : pathname;
  m_disks : gmap regionid disk_ptr;
  m_preallocate_rr : list regionid;
  m_last_preallocation : Z;            (* uint64_t *)
  m_optimistic_rr : list regionid;
  m_last_dose_of_optimism : Z;         (* uint64_t *)
  heap : disk_ptr → disk;
  next_ptr : disk_ptr;
  clock : nat → Z;                     (* successive readings of e::time() *)
  ticks : nat
}.

Arguments mk_world {_}.
Arguments mk_configuration {_}.

Section datalayer.
Context `{HD : Hyperdisk}.

Definition set_shutdown (b : bool) (w : world) : world :=
  mk_world b (m_base w) (m_disks w) (m_preallocate_rr w)
    (m_last_preallocation w) (m_optimistic_rr w) (m_last_dose_of_optimism w)
    (heap w) (next_ptr w) (clock w) (ticks w).

Definition set_disks (m : gmap regionid disk_ptr) (w : world) : world :=
  mk_world (m_shutdown w) (m_base w) m (m_preallocate_rr w)
    (m_last_preallocation w) (m_optimistic_rr w) (m_last_dose_of_optimism w)
    (heap w) (next_ptr w) (clock w) (ticks w).

Definition set_preallocate_rr (q : list regionid) (w : world) : world :=
  mk_world (m_shutdown w) (m_base w) (m_disks w) q
    (m_last_preallocation w) (m_optimistic_rr w) (m_last_dose_of_optimism w)
    (heap w) (next_ptr w) (clock w) (ticks w).

Definition set_last_preallocation (t : Z) (w : world) : world :=
  mk_world (m_shutdown w) (m_base w) (m_disks w) (m_preallocate_rr w)
    t (m_optimistic_rr w) (m_last_dose_of_optimism w)
    (heap w) (next_ptr w) (clock w) (ticks w).

Definition set_optimistic_rr (q : list regionid) (w : world) : world :=
  mk_world (m_shutdown w) (m_base w) (m_disks w) (m_preallocate_rr w)
    (m_last_preallocation w) q (m_last_dose_of_optimism w)
    (heap w) (next_ptr w) (clock w) (ticks w).

Definition set_last_dose_of_optimism (t : Z) (w : world) : world :=
  mk_world (m_shutdown w) (m_base w) (m_disks w) (m_preallocate_rr w)
    (m_last_preallocation w) (m_optimistic_rr w) t
    (heap w) (next_ptr w) (clock w) (ticks w).

Definition set_heap (h : disk_ptr → disk) (w : world) : world :=
  mk_world (m_shutdown w) (m_base w) (m_disks w) (m_preallocate_rr w)
    (m_last_preallocation w) (m_optimistic_rr w) (m_last_dose_of_optimism w)
    h (next_ptr w) (clock w) (ticks w).

Definition set_next_ptr (p : disk_ptr) (w : world) : world :=
  mk_world (m_shutdown w) (m_base w) (m_disks w) (m_preallocate_rr w)
    (m_last_preallocation w) (m_optimistic_rr w) (m_last_dose_of_optimism w)
    (heap w) p (clock w) (ticks w).

Definition set_ticks (n : nat) (w : world) : world :=
  mk_world (m_shutdown w) (m_base w) (m_disks w) (m_preallocate_rr w)
    (m_last_preallocation w) (m_optimistic_rr w) (m_last_dose_of_optimism w)
    (heap w) (next_ptr w) (clock w) n.

(** *** A state monad that also records the calls made *)

Definition M (A : Type) : Type := world → A * world * list event.

Definition ret {A} (a : A) : M A := λ w, (a, w, []).

Definition bind {A B} (m : M A) (f : A → M B) : M B := λ w,
  let '(a, w1, e1) := m w in
  let '(b, w2, e2) := f a w1 in
  (b, w2, e1 ++ e2).

Definition gets {A} (f : world → A) : M A := λ w, (f w, w, []).
Definition modify (f : world → world) : M unit := λ w, (tt, f w, []).
Definition emit (e : event) : M unit := λ w, (tt, w, [e]).

Fixpoint for_each {X} (l : list X) (body : X → M unit) : M unit :=
  match l with
  | [] => ret tt
  | x :: l' => bind (body x) (λ _, for_each l' body)
  end.

(** A loop over [l] that carries a local variable of type [S]. *)
Fixpoint for_each_with {X S} (l : list X) (body : X → S → M S) (s : S) : M S :=
  match l with
  | [] => ret s
  | x :: l' => bind (body x s) (for_each_with l' body)
  end.
End datalayer.

Notation "'let*' x ':=' m 'in' k" := (bind m (λ x, k))
  (at level 10, x pattern, m at level 100, k at level 200, only parsing).
Notation "m '>>' k" := (bind m (λ _, k))
  (at level 100, k at level 200, right associativity, only parsing).

Section operations.
Context `{HD : Hyperdisk}.

(** [e::time()]: the next reading of the clock. *)
Definition e_time : M Z := λ w,
  (clock w (ticks w), set_ticks (S (ticks w)) w, []).

(** A call [d->op()] through a disk pointer: the object at [d] changes
    and the call returns a value. *)
Definition call {A} (d : disk_ptr) (op : disk → A * disk) : M A := λ w,
  let '(a, o) := op (heap w d) in
  (a, set_heap (<[d := o]> (heap w)) w, []).

(** [hyperdisk::disk::create(path, hasher, num_columns)]: a new object. *)
Definition new_disk (path : pathname) (h : hasher) (num_columns : N) : M disk_ptr :=
  λ w,
  let d := next_ptr w in
  (d, set_next_ptr (N.succ d)
        (set_heap (<[d := disk_create path h num_columns]> (heap w)) w), []).

(** *** [datalayer::create_disk]

    The column count is received as a [uint16_t]. *)
Definition create_disk (ri : regionid) (h : hasher) (num_columns : N) : M unit :=
  let num_columns := num_columns mod UINT16_MODULUS in
  emit (EvLog INFO (MsgCreating ri num_columns)) >>
  let* base := gets m_base in
  let path := region_path base ri in
  let* d := new_disk path h num_columns in
  emit (EvCreate ri path h num_columns d) >>
  modify (λ w, set_disks (map_insert_new ri d (m_disks w)) w).

(** *** [datalayer::drop_disk] *)
Definition drop_disk (ri : regionid) : M unit :=
  let* i := gets (λ w, m_disks w !! ri) in
  match i with
  | Some d =>
      emit (EvLog INFO (MsgDropping ri)) >>
      call d (λ o, (tt, disk_drop o)) >>
      emit (EvDrop ri d) >>
      modify (λ w, set_disks (delete ri (m_disks w)) w)
  | None => ret tt
  end.

(** *** [datalayer::prepare] *)
Definition prepare (newconfig : configuration) (us : instance) : M unit :=
  (* Grab a copy of all the disks we do have. *)
  let* disks := gets m_disks in
  let regions := regions newconfig in
  for_each (map_elements entityid_compare (entity_mapping newconfig))
    (λ e,
      if bool_decide (entity_space e.1 ≠ SENTINEL_SPACE)
         && bool_decide (e.2 = us)
         && bool_decide (disks !! entity_region e.1 = None)
      then
        match regions !! entity_region e.1 with
        | Some region_size =>
            create_disk (entity_region e.1)
              (disk_hasher newconfig (entity_subspace e.1)) region_size
        | None => emit (EvLog ERROR MsgLogicError)
        end
      else ret tt) >>
  let transfers := transfers_to newconfig us in
  for_each (map_elements N.compare transfers)
    (λ t,
      if bool_decide (disks !! t.2 = None)
      then
        match regions !! t.2 with
        | Some region_size =>
            create_disk t.2
              (disk_hasher newconfig (region_subspace t.2)) region_size
        | None => emit (EvLog ERROR MsgLogicError)
        end
      else ret tt).

(** *** [datalayer::reconfigure] *)
Definition reconfigure (_ : configuration) (_ : instance) : M unit :=
  ret tt.

(** *** [datalayer::cleanup]

    [keep] is the local flag of the loop body; the two inner loops only
    ever set it. *)
Definition cleanup_keep (newconfig : configuration) (us : instance)
    (transfers : gmap N regionid) (ri : regionid) : bool :=
  let keep := false in
  let emap := map_elements entityid_compare (entity_mapping newconfig) in
  let start := lower_bound entityid_compare (mk_entityid ri 0) emap in
  let end_ := upper_bound entityid_compare (mk_entityid ri UINT8_MAX) emap in
  let keep :=
    foldl (λ keep e, if bool_decide (e.2 = us) then true else keep)
          keep (iter_range start end_) in
  let keep :=
    foldl (λ keep t, if bool_decide (t.2 = ri) then true else keep)
          keep (map_elements N.compare transfers) in
  keep.

Definition cleanup (newconfig : configuration) (us : instance) : M unit :=
  let transfers := transfers_to newconfig us in
  (* Grab a copy of all the regions we do have. *)
  let* disks := gets m_disks in
  for_each (map_elements regionid_compare disks)
    (λ d,
      if negb (cleanup_keep newconfig us transfers d.1)
      then drop_disk d.1
      else ret tt).

(** *** [datalayer::shutdown] *)
Definition shutdown : M unit := modify (set_shutdown true).

(** *** [datalayer::get_region]: a null pointer is [None]. *)
Definition get_region (ri : regionid) : M (option disk_ptr) :=
  gets (λ w, m_disks w !! ri).

(** *** [datalayer::make_snapshot], [make_rolling_snapshot], [trickle] *)
Definition make_snapshot (ri : regionid) : M (option snapshot) :=
  let* r := get_region ri in
  match r with
  | None => ret None
  | Some d => call d disk_make_snapshot
  end.

Definition make_rolling_snapshot (ri : regionid) : M (option rolling_snapshot) :=
  let* r := get_region ri in
  match r with
  | None => ret None
  | Some d => call d disk_make_rolling_snapshot
  end.

Definition trickle (ri : regionid) : M unit :=
  let* r := get_region ri in
  match r with
  | Some d => let* _ := call d (disk_flush 1000) in ret tt
  | None => ret tt
  end.

(** *** [datalayer::get], [put], [del]

    [get] writes the value and the version through its out-parameters;
    the result carries what was written, if anything. *)
Definition get (ri : regionid) (key : buffer)
    : M (returncode * option (list buffer * N)) :=
  let* r := get_region ri in
  match r with
  | None => ret (MISSINGDISK, None)
  | Some d => call d (disk_get key)
  end.

Definition put (ri : regionid) (key : buffer) (value : list buffer)
    (version : N) : M returncode :=
  let* r := get_region ri in
  match r with
  | None => ret MISSINGDISK
  | Some d => call d (disk_put key value version)
  end.

Definition del (ri : regionid) (key : buffer) : M returncode :=
  let* r := get_region ri in
  match r with
  | None => ret MISSINGDISK
  | Some d => call d (disk_del key)
  end.
End operations.

(** *** The rotation of a round-robin queue

    [flush_loop] contains the same loop twice, once over
    [m_preallocate_rr] calling [preallocate()] and once over
    [m_optimistic_rr] calling [do_optimistic_io()].  The loop is written
    once here, over the member it rotates ([queue] and [set_queue]), the
    disk call [op], the record of that call [ev] and the warning [failed].

    [for (size_t i = 0; i < queue.size(); ++i)] re-reads the size at every
    round; [i] grows and the size never does, so [fuel] equal to the size
    at entry is enough (lemma [rotate_loop_fuel]). *)
Section rotation.
Context `{HD : Hyperdisk}.
Variable queue : world → list regionid.
Variable set_queue : list regionid → world → world.
Variable op : disk → returncode * disk.
Variable ev : regionid → disk_ptr → returncode → event.
Variable failed : logmsg.

Fixpoint rotate_loop (fuel : nat) (disks : gmap regionid disk_ptr)
    (i : nat) (sleep : bool) : M bool :=
  match fuel with
  | O => ret sleep
  | S fuel' =>
      let* q := gets queue in
      if bool_decide (i < length q)%nat then
        match q with
        | [] => ret sleep
        | front :: rest =>
            let diter := disks !! front in
            (* push_back(front) when found, then pop_front() *)
            modify (set_queue (match diter with
                               | Some _ => rest ++ [front]
                               | None => rest
                               end)) >>
            match diter with
            | Some d =>
                let* r := call d op in
                emit (ev front d r) >>
                match r with
                | SUCCESS => ret false                       (* break *)
                | DIDNOTHING => rotate_loop fuel' disks (S i) sleep
                | _ =>
                    emit (EvLog WARNING failed) >>
                    rotate_loop fuel' disks (S i) sleep
                end
            | None => rotate_loop fuel' disks (S i) sleep
            end
        end
      else ret sleep
  end.

Definition rotate (disks : gmap regionid disk_ptr) (sleep : bool) : M bool :=
  let* n := gets (λ w, length (queue w)) in
  rotate_loop n disks 0 sleep.
End rotation.

Section flush_loop.
Context `{HD : Hyperdisk}.

(** [(e::time() - last) / 500000000. > 1]: the operands are [uint64_t],
    so the difference wraps modulo 2^64; it is then divided as a [double].
    The quotient exceeds 1 exactly when the difference exceeds 500000000:
    every integer up to 2^53 is a [double], and conversion and division
    are monotone. *)
Definition half_second_elapsed (now last : Z) : bool :=
  bool_decide (500000000 < (now - last) mod UINT64_MODULUS)%Z.

(** Append the regions of the snapshot that a queue does not hold yet. *)
Definition observe_regions (disks : gmap regionid disk_ptr) : M unit :=
  for_each (map_elements regionid_compare disks)
    (λ i,
      let* q := gets m_preallocate_rr in
      (if bool_decide (i.1 ∈ q) then ret tt
       else modify (set_preallocate_rr (q ++ [i.1]))) >>
      let* q := gets m_optimistic_rr in
      (if bool_decide (i.1 ∈ q) then ret tt
       else modify (set_optimistic_rr (q ++ [i.1])))).

Definition preallocate_pass (disks : gmap regionid disk_ptr) (sleep : bool)
    : M bool :=
  rotate m_preallocate_rr set_preallocate_rr disk_preallocate
    EvPreallocate MsgPreallocationFailed disks sleep.

Definition optimistic_pass (disks : gmap regionid disk_ptr) (sleep : bool)
    : M bool :=
  rotate m_optimistic_rr set_optimistic_rr disk_do_optimistic_io
    EvOptimisticIO MsgOptimisticFailed disks sleep.

(** The body of the last [for] loop for one entry of the snapshot. *)
Definition flush_disk (i : regionid * disk_ptr) (sleep : bool) : M bool :=
  let* r := call i.2 (disk_flush 10000) in
  emit (EvFlush i.1 i.2 10000 r) >>
  match r with
  | SUCCESS => ret false
  | DIDNOTHING => ret sleep
  | DATAFULL | SEARCHFULL =>
      let* ioret := call i.2 disk_do_mandatory_io in
      emit (EvMandatoryIO i.1 i.2 ioret) >>
      (if bool_decide (ioret ≠ SUCCESS) && bool_decide (ioret ≠ DIDNOTHING)
       then emit (EvLog ERROR (MsgDiskIOReturned ioret))
       else ret tt) >>
      ret sleep
  | _ =>
      emit (EvLog ERROR (MsgDiskFlushReturned r)) >>
      ret sleep
  end.

Definition flush_pass (disks : gmap regionid disk_ptr) (sleep : bool) : M bool :=
  for_each_with (map_elements regionid_compare disks) flush_disk sleep.

(** One round of [while (!m_shutdown)].  The local counter [count] is
    only incremented and never read; it is left out. *)
Definition flush_loop_body : M unit :=
  let sleep := true in
  (* Hold the lock only in this scope. *)
  let* disks := gets m_disks in
  observe_regions disks >>
  (* We try to do only two preallocations per second. *)
  let* now := e_time in
  let* last := gets m_last_preallocation in
  let* sleep :=
    (if half_second_elapsed now last then
       let* sleep := preallocate_pass disks sleep in
       let* now := e_time in
       modify (set_last_preallocation now) >>
       ret sleep
     else ret sleep) in
  (* We try to be optimistic at most twice per second. *)
  let* now := e_time in
  let* last := gets m_last_dose_of_optimism in
  let* sleep :=
    (if half_second_elapsed now last then
       let* sleep := optimistic_pass disks sleep in
       let* now := e_time in
       modify (set_last_dose_of_optimism now) >>
       ret sleep
     else ret sleep) in
  let* sleep := flush_pass disks sleep in
  if sleep then emit (EvSleep 0 100) else ret tt.

(** [flush_loop] for at most [rounds] rounds; it leaves the loop when it
    reads [m_shutdown] at the top of a round. *)
Fixpoint flush_loop_rounds (rounds : nat) : M unit :=
  match rounds with
  | O => ret tt
  | S n =>
      let* stop := gets m_shutdown in
      if stop then ret tt else flush_loop_body >> flush_loop_rounds n
  end.

Definition flush_loop (rounds : nat) : M unit :=
  emit (EvLog WARNING MsgFlushThreadStarted) >>
  flush_loop_rounds rounds.

(** The members as the constructor leaves them. *)
Definition datalayer_init (base : pathname) (h : disk_ptr → disk)
    (clk : nat → Z) : world :=
  mk_world false base ∅ [] 0 [] 0 h 0 clk 0.
End flush_loop.

(** ** The append-only log's segment list
    ([disk/append_only_log_segment_list.h])

    The header declares the class; its member functions are defined in a
    file that is not among the sources. *)
Module segment_list.

(** Addresses of [segment] objects and of [segment_list] objects. *)
Definition segment_ptr : Type := N.
Definition list_ptr : Type := N.

(** The private members: [m_ref], [m_sz] and the array [m_segments] of
    (lower bound, segment) pairs. *)
Record t : Type := mk {
  m_ref : N;
  m_sz : nat;
  m_segments : list (N * segment_ptr)
}.

(** The [segment_list] objects of the heap, by address. *)
Abbreviation store := (gmap list_ptr t).

(** Modelled from the spec: [segment_list::segment_list()] is defined
    outside the sources; a log starts with no segment. *)
Definition empty : t := mk 0 0 [].

(** Modelled from the spec: [segment_list::add] is defined outside the
    sources; it "returns a new list handle containing all prior entries
    plus the new entry; the previous handle's contents are unchanged
    (copy-on-write, immutable-once-published)".  The new object is
    allocated at an unused address and the returned [intrusive_ptr] holds
    its first reference.  [None] stands for a call through a pointer to
    no object. *)
Definition add (this : list_ptr) (lower_bound : N) (ws : segment_ptr)
    (h : store) : option (list_ptr * store) :=
  match h !! this with
  | None => None
  | Some l =>
      let fresh_ptr := fresh (dom h) in
      let l' := mk 1 (S (m_sz l)) (m_segments l ++ [(lower_bound, ws)]) in
      Some (fresh_ptr, <[fresh_ptr := l']> h)
  end.

(** Modelled from the spec: "positional access; index out of the valid
    range is a caller contract violation", here [None]. *)
Definition get_lower_bound (this : list_ptr) (i : nat) (h : store) : option N :=
  match h !! this with
  | None => None
  | Some l => if bool_decide (i < m_sz l)%nat then fst <$> m_segments l !! i else None
  end.

(** Modelled from the spec: as [get_lower_bound], for the segment. *)
Definition get_segment (this : list_ptr) (i : nat) (h : store)
    : option segment_ptr :=
  match h !! this with
  | None => None
  | Some l => if bool_decide (i < m_sz l)%nat then snd <$> m_segments l !! i else None
  end.

(** Modelled from the spec: the "list length", the member [m_sz]. *)
Definition length (this : list_ptr) (h : store) : option nat :=
  m_sz <$> h !! this.

(** The entries of a list, in order. *)
Definition entries (this : list_ptr) (h : store) : option (list (N * segment_ptr)) :=
  m_segments <$> h !! this.

End segment_list.

(** ** Running an operation *)

Section running.
Context `{HD : Hyperdisk}.

Definition run_value {A} (m : M A) (w : world) : A := (m w).1.1.
Definition run_state {A} (m : M A) (w : world) : world := (m w).1.2.
Definition run_events {A} (m : M A) (w : world) : list event := (m w).2.

(** [wp m w Q]: running [m] from [w] ends in a value, a state and a list
    of calls that satisfy [Q]. *)
Definition wp {A} (m : M A) (w : world)
    (Q : A → world → list event → Prop) : Prop :=
  Q (run_value m w) (run_state m w) (run_events m w).
End running.

(** ** Vocabulary of the statements *)

Section vocabulary.
Context `{HD : Hyperdisk}.

(** [us] is assigned to an entity of region [ri]. *)
Definition assigned (c : configuration) (us : instance) (ri : regionid) : Prop :=
  ∃ e, entity_mapping c !! e = Some us ∧ entity_region e = ri.

(** [us] is assigned to an entity of region [ri] outside the space kept
    for internal bookkeeping. *)
Definition assigned_outside_sentinel (c : configuration) (us : instance)
    (ri : regionid) : Prop :=
  ∃ e, entity_mapping c !! e = Some us ∧ entity_region e = ri ∧
       entity_space e ≠ SENTINEL_SPACE.

(** Region [ri] is the target of a transfer to [us]. *)
Definition transfer_target (c : configuration) (us : instance)
    (ri : regionid) : Prop :=
  ∃ t, transfers_to c us !! t = Some ri.

(** The replica index of every entity of the table is a [uint8_t]. *)
Definition entity_numbers_fit (c : configuration) : Prop :=
  map_Forall (λ e _, number e ≤ UINT8_MAX) (entity_mapping c).

(** The state after a call [d->op()]: only the object at [d] changed. *)
Definition after_call {A} (d : disk_ptr) (op : disk → A * disk) (w : world)
    : world :=
  set_heap (<[d := (op (heap w d)).2]> (heap w)) w.

(** What the loop of [cleanup] has done after visiting the entries [l]. *)
Definition cleanup_loop_post (keep : regionid → bool) (w : world)
    (l : list (regionid * disk_ptr)) (w' : world) (evs : list event) : Prop :=
  (∀ ri, ri ∈ l.*1 → keep ri = false → m_disks w' !! ri = None) ∧
  (∀ ri, ri ∉ l.*1 ∨ keep ri = true → m_disks w' !! ri = m_disks w !! ri) ∧
  (∀ ri d, EvDrop ri d ∈ evs
           ↔ ri ∈ l.*1 ∧ keep ri = false ∧ m_disks w !! ri = Some d) ∧
  m_preallocate_rr w' = m_preallocate_rr w ∧
  m_optimistic_rr w' = m_optimistic_rr w.

(** The disk returned by the first [disk::create] for [ri] among [evs]. *)
Fixpoint first_create (ri : regionid) (evs : list event) : option disk_ptr :=
  match evs with
  | [] => None
  | EvCreate r _ _ _ d :: evs' =>
      if decide (r = ri) then Some d else first_create ri evs'
  | _ :: evs' => first_create ri evs'
  end.

(** The creation of the disk of [ri] at address [d], with the arguments
    [prepare] passes for a table entry of [sz] columns. *)
Definition created_as (c : configuration) (base : pathname) (ri : regionid)
    (sz : N) (d : disk_ptr) : event :=
  EvCreate ri (region_path base ri) (disk_hasher c (region_subspace ri))
    (sz mod UINT16_MODULUS) d.

(** The body shared by the two loops of [prepare]: [want] is the test of
    the [if], [key] the region the entry names. *)
Definition create_if (c : configuration) {X} (want : X → bool)
    (key : X → regionid) (x : X) : M unit :=
  if want x then
    match regions c !! key x with
    | Some region_size =>
        create_disk (key x) (disk_hasher c (region_subspace (key x))) region_size
    | None => emit (EvLog ERROR MsgLogicError)
    end
  else ret tt.

(** What a loop of [prepare] over the entries [l] has done, started in
    [w0]. *)
Record prepare_loop_post (c : configuration) {X} (want : X → bool)
    (key : X → regionid) (w0 : world) (l : list X) (w' : world)
    (evs : list event) : Prop := {
  plp_disks : ∀ ri,
    m_disks w' !! ri =
      match m_disks w0 !! ri with
      | Some d => Some d
      | None => first_create ri evs
      end;
  plp_sound : ∀ ri path h n d,
    EvCreate ri path h n d ∈ evs →
    (∃ x sz, x ∈ l ∧ want x = true ∧ key x = ri ∧ regions c !! ri = Some sz ∧
             EvCreate ri path h n d = created_as c (m_base w0) ri sz d) ∧
    heap w' d = disk_create path h n ∧
    next_ptr w0 ≤ d < next_ptr w';
  plp_complete : ∀ x sz,
    x ∈ l → want x = true → regions c !! key x = Some sz →
    ∃ d, created_as c (m_base w0) (key x) sz d ∈ evs;
  plp_skipped : ∀ x,
    x ∈ l → want x = true → regions c !! key x = None →
    EvLog ERROR MsgLogicError ∈ evs;
  plp_base : m_base w' = m_base w0;
  plp_next : next_ptr w0 ≤ next_ptr w';
  plp_heap : ∀ d, d < next_ptr w0 → heap w' d = heap w0 d;
  plp_preallocate_rr : m_preallocate_rr w' = m_preallocate_rr w0;
  plp_optimistic_rr : m_optimistic_rr w' = m_optimistic_rr w0
}.

(** The tests and the regions of the two loops of [prepare], given the
    copy [disks] of the map taken at entry. *)
Definition want_entity (us : instance) (disks : gmap regionid disk_ptr)
    (e : entityid * instance) : bool :=
  bool_decide (entity_space e.1 ≠ SENTINEL_SPACE)
  && bool_decide (e.2 = us)
  && bool_decide (disks !! entity_region e.1 = None).

Definition want_transfer (disks : gmap regionid disk_ptr)
    (t : N * regionid) : bool :=
  bool_decide (disks !! t.2 = None).

(** [prepare] is its two loops, one after the other. *)
Definition prepare_post (c : configuration) (us : instance) (w w' : world)
    (evs : list event) : Prop :=
  ∃ w1 e1 e2,
    evs = e1 ++ e2 ∧
    prepare_loop_post c (want_entity us (m_disks w)) (λ e, entity_region e.1) w
      (map_elements entityid_compare (entity_mapping c)) w1 e1 ∧
    prepare_loop_post c (want_transfer (m_disks w)) snd w1
      (map_elements N.compare (transfers_to c us)) w' e2.

(** The queue [q] after the regions [keys] of the snapshot were looked
    for and, when missing, appended. *)
Definition observe (keys : list regionid) (q : list regionid) : list regionid :=
  foldl (λ q r, if bool_decide (r ∈ q) then q else q ++ [r]) q keys.

(** The regions of a map, in the order [flush_loop] visits them. *)
Definition region_keys (disks : gmap regionid disk_ptr) : list regionid :=
  (map_elements regionid_compare disks).*1.

(** A disk call of the walk: the region at the front, its disk and the
    code the call returned. *)
Definition attempt : Type := regionid * disk_ptr * returncode.

(** The entries of [q] that the snapshot holds, with their disks. *)
Definition hosted_of (disks : gmap regionid disk_ptr) (q : list regionid)
    : list (regionid * disk_ptr) :=
  omap (λ r, pair r <$> disks !! r) q.
End vocabulary.

(** The vocabulary of a rotation pass, over the queue it rotates. *)
Section rotation_vocabulary.
Context `{HD : Hyperdisk}.
Variable queue : world → list regionid.
Variable set_queue : list regionid → world → world.
Variable ev : regionid → disk_ptr → returncode → event.
Variable failed : logmsg.

Definition attempt_events (a : attempt) : list event :=
  ev a.1.1 a.1.2 a.2 ::
  match a.2 with
  | SUCCESS | DIDNOTHING => []
  | _ => [EvLog WARNING failed]
  end.

(** The outcome of a walk that starts at round [i] in state [w]: it runs
    [k] rounds, which take the first [k] entries off the queue and put back
    the hosted ones, after one disk call each. *)
Record rotate_post (fuel : nat) (disks : gmap regionid disk_ptr) (i : nat)
    (sleep : bool) (w : world) (sleep' : bool) (w' : world)
    (evs : list event) (k : nat) (attempts : list attempt) : Prop := {
  rp_rounds : (k ≤ length (queue w) - i)%nat;
  rp_progress : (0 < fuel)%nat → (i < length (queue w))%nat → (1 ≤ k)%nat;
  rp_attempts : attempts.*1 = hosted_of disks (take k (queue w));
  rp_queue : queue w' = drop k (queue w) ++ (attempts.*1).*1;
  rp_events : evs = attempts ≫= attempt_events;
  rp_sleep : sleep' = if bool_decide (SUCCESS ∈ attempts.*2) then false else sleep;
  rp_frame : ∀ {X} (f : world → X),
    (∀ q w, f (set_queue q w) = f w) → (∀ h w, f (set_heap h w) = f w) →
    f w' = f w
}.
End rotation_vocabulary.

Section round_vocabulary.
Context `{HD : Hyperdisk}.

(** The calls made for one disk of the snapshot: [flush], then
    [do_mandatory_io] exactly when [flush] returned DATAFULL or SEARCHFULL,
    then the error logged for a failure. *)
Inductive flush_block (ri : regionid) (d : disk_ptr) : list event → Prop :=
  | flush_block_plain ret :
      ret = SUCCESS ∨ ret = DIDNOTHING →
      flush_block ri d [EvFlush ri d 10000 ret]
  | flush_block_io ret ioret :
      ret = DATAFULL ∨ ret = SEARCHFULL →
      ioret = SUCCESS ∨ ioret = DIDNOTHING →
      flush_block ri d [EvFlush ri d 10000 ret; EvMandatoryIO ri d ioret]
  | flush_block_io_failed ret ioret :
      ret = DATAFULL ∨ ret = SEARCHFULL →
      ioret ≠ SUCCESS → ioret ≠ DIDNOTHING →
      flush_block ri d [EvFlush ri d 10000 ret; EvMandatoryIO ri d ioret;
                        EvLog ERROR (MsgDiskIOReturned ioret)]
  | flush_block_failed ret :
      ret = MISSINGDISK ∨ ret = FAILURE →
      flush_block ri d [EvFlush ri d 10000 ret;
                        EvLog ERROR (MsgDiskFlushReturned ret)].

Definition no_flush_success (evs : list event) : Prop :=
  ∀ ri d t, EvFlush ri d t SUCCESS ∉ evs.

(** The outcome of a pass over a queue that held [q] at entry: [k] rounds
    were run (none when the pass was not due), each took the front entry
    off the queue and, when the snapshot holds the region, put it back at
    the end and called its disk. *)
Definition pass_post (ev : regionid → disk_ptr → returncode → event)
    (failed : logmsg) (disks : gmap regionid disk_ptr) (due : bool)
    (q q' : list regionid) (sleep sleep' : bool) (evs : list event) : Prop :=
  ∃ (k : nat) (attempts : list attempt),
    (k ≤ length q)%nat ∧
    (due = true → q ≠ [] → (1 ≤ k)%nat) ∧
    (due = false → k = 0%nat) ∧
    attempts.*1 = hosted_of disks (take k q) ∧
    q' = drop k q ++ (attempts.*1).*1 ∧
    evs = attempts ≫= attempt_events ev failed ∧
    sleep' = if bool_decide (SUCCESS ∈ attempts.*2) then false else sleep.

(** Whether the round that starts in [w] runs the preallocation pass, and
    whether it runs the optimistic pass: the clock is read once before
    each test and once more after a pass. *)
Definition preallocation_due (w : world) : bool :=
  half_second_elapsed (clock w (ticks w)) (m_last_preallocation w).

Definition optimism_due (w : world) : bool :=
  half_second_elapsed
    (clock w (ticks w + if preallocation_due w then 2 else 1)%nat)
    (m_last_dose_of_optimism w).

(** What one round does, started in [w]: the two passes over the queues
    as extended by the regions of the snapshot, one block of calls per
    disk of the snapshot, and the sleep when [sleep] is still set. *)
Definition round_post (w w' : world) (evs : list event) : Prop :=
  let disks := m_disks w in
  let keys := (map_elements regionid_compare disks).*1 in
  ∃ e_pre e_opt e_flush sleep1 sleep2 sleep3,
    evs = e_pre ++ e_opt ++ e_flush ++
          (if sleep3 : bool then [EvSleep 0 100] else []) ∧
    pass_post EvPreallocate MsgPreallocationFailed disks (preallocation_due w)
      (observe keys (m_preallocate_rr w)) (m_preallocate_rr w')
      true sleep1 e_pre ∧
    pass_post EvOptimisticIO MsgOptimisticFailed disks (optimism_due w)
      (observe keys (m_optimistic_rr w)) (m_optimistic_rr w')
      sleep1 sleep2 e_opt ∧
    (∃ blocks,
       Forall2 (λ i b, flush_block i.1 i.2 b)
         (map_elements regionid_compare disks) blocks ∧
       e_flush = concat blocks) ∧
    (sleep3 = sleep2 ∧ no_flush_success e_flush
     ∨ sleep3 = false ∧ ∃ ri d, EvFlush ri d 10000 SUCCESS ∈ e_flush) ∧
    m_disks w' = m_disks w ∧
    m_shutdown w' = m_shutdown w.
End round_vocabulary.

(** [preallocation_windows hosted w traces]: rounds that run the
    preallocation pass, the first one started in [w], while the hosted
    regions are [hosted]; [traces] lists the calls of each of these
    rounds.  Between two of them anything may happen that leaves the
    preallocation queue as the earlier round left it: only [flush_loop]
    touches the queue, and a round whose pass is not due leaves a queue
    that holds every hosted region unchanged
    ([round_not_due_keeps_queue]). *)
Inductive preallocation_windows `{HD : Hyperdisk} (hosted : gset regionid)
    : world → list (list event) → Prop :=
  | windows_nil w :
      dom (m_disks w) = hosted →
      preallocation_windows hosted w []
  | windows_cons w w_next traces :
      dom (m_disks w) = hosted →
      preallocation_due w = true →
      m_preallocate_rr w_next = m_preallocate_rr (run_state flush_loop_body w) →
      preallocation_windows hosted w_next traces →
      preallocation_windows hosted w (run_events flush_loop_body w :: traces).

(** *** [datalayer::~datalayer]: the stop flag is set before the flusher
    thread is joined (the join itself is not modelled). *)
Definition datalayer_destroy `{HD : Hyperdisk} : M unit :=
  let* stop := gets m_shutdown in
  if stop then ret tt else shutdown.

Section further_vocabulary.
Context `{HD : Hyperdisk}.

(** [f] reads none of the members a round writes: the two queues, the
    times of the last passes, the disk objects and the clock's position. *)
Definition untouched_by_rounds {X} (f : world → X) : Prop :=
  (∀ q w, f (set_preallocate_rr q w) = f w) ∧
  (∀ q w, f (set_optimistic_rr q w) = f w) ∧
  (∀ t w, f (set_last_preallocation t w) = f w) ∧
  (∀ t w, f (set_last_dose_of_optimism t w) = f w) ∧
  (∀ h w, f (set_heap h w) = f w) ∧
  (∀ n w, f (set_ticks n w) = f w).

(** The calls a round can make: disk maintenance calls, warnings and
    errors, and the sleep. *)
Definition maintenance_event (e : event) : Prop :=
  match e with
  | EvPreallocate _ _ _ | EvOptimisticIO _ _ _ | EvFlush _ _ _ _
  | EvMandatoryIO _ _ _ | EvSleep _ _ | EvLog WARNING _ | EvLog ERROR _ => True
  | _ => False
  end.

(** Neither queue holds a region twice. *)
Definition queues_nodup (w : world) : Prop :=
  NoDup (m_preallocate_rr w) ∧ NoDup (m_optimistic_rr w).

(** In [evs], no event that satisfies [C] follows one that satisfies [S]. *)
Definition stops_at (S C : event → Prop) (evs : list event) : Prop :=
  ∀ pre e post, evs = pre ++ e :: post → S e → ∀ e', e' ∈ post → ¬ C e'.

(** The calls [cleanup] makes for the entries [l] of its copy of the map. *)
Definition drop_calls (l : list (regionid * disk_ptr)) : list event :=
  l ≫= λ d, [EvLog INFO (MsgDropping d.1); EvDrop d.1 d.2].

(** The disk objects after [drop()] on the disks of [l], in order. *)
Definition dropped_heap (l : list (regionid * disk_ptr))
    (h : disk_ptr → disk) : disk_ptr → disk :=
  foldl (λ h d, <[d.2 := disk_drop (h d.2)]> h) h l.

(** Every disk of the map is an object that [disk::create] has returned,
    and no two regions share a disk. *)
Definition directory_wf (w : world) : Prop :=
  (∀ ri d, m_disks w !! ri = Some d → d < next_ptr w) ∧
  (∀ ri ri' d, m_disks w !! ri = Some d → m_disks w !! ri' = Some d → ri = ri').

(** The calls [prepare] can make. *)
Definition creation_event (e : event) : Prop :=
  match e with
  | EvLog INFO (MsgCreating _ _) | EvCreate _ _ _ _ _
  | EvLog ERROR MsgLogicError => True
  | _ => False
  end.

(** Every [disk::create] of [evs] directly follows its log entry. *)
Definition creates_logged (evs : list event) : Prop :=
  ∀ pre ri path h n d post, evs = pre ++ EvCreate ri path h n d :: post →
    ∃ pre', pre = pre' ++ [EvLog INFO (MsgCreating ri n)].

(** [f] reads none of the members [create_disk] writes. *)
Definition untouched_by_create {X} (f : world → X) : Prop :=
  (∀ m w, f (set_disks m w) = f w) ∧
  (∀ n w, f (set_next_ptr n w) = f w) ∧
  (∀ h w, f (set_heap h w) = f w).

(** The disk objects after a call on [d] that gave [r], when [c] is the
    return code the call gave; [None] when it is not. *)
Definition checked_call (c : returncode) (d : disk_ptr)
    (r : returncode * disk) (h : disk_ptr → disk) : option (disk_ptr → disk) :=
  if decide (c = r.1) then Some (<[d := r.2]> h) else None.

(** What the call that an event records does to the disk objects [h]: the
    disk's own function is applied to the object at the pointer, and the
    return code the event records must be the one the function gives. *)
Definition event_effect (e : event) (h : disk_ptr → disk)
    : option (disk_ptr → disk) :=
  match e with
  | EvPreallocate _ d c => checked_call c d (disk_preallocate (h d)) h
  | EvOptimisticIO _ d c => checked_call c d (disk_do_optimistic_io (h d)) h
  | EvFlush _ d t c => checked_call c d (disk_flush t (h d)) h
  | EvMandatoryIO _ d c => checked_call c d (disk_do_mandatory_io (h d)) h
  | EvCreate _ path hs n d => Some (<[d := disk_create path hs n]> h)
  | EvDrop _ d => Some (<[d := disk_drop (h d)]> h)
  | EvLog _ _ | EvSleep _ _ => Some h
  end.

(** The disk objects after the calls of a trace, made in order from [h];
    [None] when some recorded return code is not the one the disk gave. *)
Fixpoint replay (evs : list event) (h : disk_ptr → disk)
    : option (disk_ptr → disk) :=
  match evs with
  | [] => Some h
  | e :: evs' =>
      match event_effect e h with
      | Some h' => replay evs' h'
      | None => None
      end
  end.

(** The round started in [w] calls [op] on the disk [d] and records it as
    [ev]: [h] are the disk objects after the earlier calls of the round,
    the call returns what [op] gives on the object at [d] and puts the
    object [op] leaves in its place, and the later calls of the round go
    on from there to the disk objects the round ends with. *)
Definition round_calls (w : world) (ev : returncode → event)
    (op : disk → returncode * disk) (d : disk_ptr) : Prop :=
  ∃ pre post h,
    run_events flush_loop_body w = pre ++ ev (op (h d)).1 :: post ∧
    replay pre (heap w) = Some h ∧
    replay post (<[d := (op (h d)).2]> h)
      = Some (heap (run_state flush_loop_body w)).

(** A trace [evs] from [w] to [w'] records real calls. *)
Definition replays (w w' : world) (evs : list event) : Prop :=
  replay evs (heap w) = Some (heap w').

(** The calls of the last loop for the disk [d] of region [ri], made on
    the disk objects [h]: [flush], with the return code [disk_flush] gives
    on the object at [d]; then, exactly when that code is DATAFULL or
    SEARCHFULL, [do_mandatory_io] on the object [flush] left, with an
    error logged when it returns neither SUCCESS nor DIDNOTHING.  A return
    code of [flush] other than these four is logged as an error. *)
Definition flush_block_at (ri : regionid) (d : disk_ptr)
    (h : disk_ptr → disk) : list event :=
  let ret := (disk_flush 10000 (h d)).1 in
  let o := (disk_flush 10000 (h d)).2 in
  let ioret := (disk_do_mandatory_io o).1 in
  EvFlush ri d 10000 ret ::
  if bool_decide (ret = DATAFULL ∨ ret = SEARCHFULL) then
    EvMandatoryIO ri d ioret ::
    (if bool_decide (ioret ≠ SUCCESS ∧ ioret ≠ DIDNOTHING)
     then [EvLog ERROR (MsgDiskIOReturned ioret)] else [])
  else
    if bool_decide (ret = SUCCESS ∨ ret = DIDNOTHING)
    then [] else [EvLog ERROR (MsgDiskFlushReturned ret)].

End further_vocabulary.

(** [optimistic_windows hosted w traces]: as [preallocation_windows], for
    the rounds that run the optimistic pass and the optimistic queue. *)
Inductive optimistic_windows `{HD : Hyperdisk} (hosted : gset regionid)
    : world → list (list event) → Prop :=
  | optimistic_windows_nil w :
      dom (m_disks w) = hosted →
      optimistic_windows hosted w []
  | optimistic_windows_cons w w_next traces :
      dom (m_disks w) = hosted →
      optimism_due w = true →
      m_optimistic_rr w_next = m_optimistic_rr (run_state flush_loop_body w) →
      optimistic_windows hosted w_next traces →
      optimistic_windows hosted w (run_events flush_loop_body w :: traces).

(** ** A disk that answers from a script

    A collaborator to run the directory on concrete configurations: the
    state of a disk is the list of return codes it will give to the calls
    to come (DIDNOTHING once the list is used up), and the hasher a disk
    is created with is its script. *)

Definition scripted_answer {A} (a : A) (d : list returncode)
    : returncode * A * list returncode :=
  match d with
  | [] => (DIDNOTHING, a, [])
  | r :: d' => (r, a, d')
  end.

Definition scripted_code (d : list returncode) : returncode * list returncode :=
  match d with
  | [] => (DIDNOTHING, [])
  | r :: d' => (r, d')
  end.

Definition scripted : Hyperdisk := {|
  disk := list returncode;
  hasher := list returncode;
  pathname := list regionid;
  buffer := N;
  snapshot := unit;
  rolling_snapshot := unit;
  region_path := λ base ri, base ++ [ri];
  disk_create := λ _ h _, h;
  disk_get := λ _ d, scripted_answer None d;
  disk_put := λ _ _ _ d, scripted_code d;
  disk_del := λ _ d, scripted_code d;
  disk_flush := λ _ d, scripted_code d;
  disk_preallocate := scripted_code;
  disk_do_optimistic_io := scripted_code;
  disk_do_mandatory_io := scripted_code;
  disk_make_snapshot := λ d, (None, d);
  disk_make_rolling_snapshot := λ d, (None, d);
  disk_drop := λ _, []
|}.

(** A fresh directory over scripted disks, with a clock that advances by
    one second per reading. *)
Definition scripted_init : @world scripted :=
  datalayer_init (HD := scripted) [] (λ _, []) (λ n, 1000000000 * Z.of_nat (S n))%Z.

(** ** Concrete configurations and directories *)

Definition region_a : regionid := mk_regionid 1 0 0 0.

Definition region_b : regionid := mk_regionid 2 0 0 0.

Definition region_c : regionid := mk_regionid 3 0 0 0.

Definition self : instance := 7.

(** [self] holds replica 0 of [region_a]; nobody transfers anything. *)
Definition config_a : @configuration scripted :=
  mk_configuration (H := scripted)
    {[ region_a := 3; region_b := 3 ]}
    {[ mk_entityid region_a 0 := self; mk_entityid region_b 0 := 8 ]}
    (λ _, ∅)
    (λ _, []).

(** A directory that hosts both regions. *)
Definition hosting_a_b : @world scripted :=
  set_disks (HD := scripted) {[ region_a := 0; region_b := 1 ]} scripted_init.

(** A table that gives [region_a] 65536 columns. *)
Definition config_wide : @configuration scripted :=
  mk_configuration (H := scripted)
    {[ region_a := 65536 ]}
    {[ mk_entityid region_a 0 := self ]}
    (λ _, ∅)
    (λ _, []).

(** [self] holds two replicas of [region_a]. *)
Definition config_two_replicas : @configuration scripted :=
  mk_configuration (H := scripted)
    {[ region_a := 3 ]}
    {[ mk_entityid region_a 0 := self; mk_entityid region_a 1 := self ]}
    (λ _, ∅)
    (λ _, []).

(** [self] holds a replica of [region_a] and is the target of a transfer
    of [region_a]. *)
Definition config_replica_and_transfer : @configuration scripted :=
  mk_configuration (H := scripted)
    {[ region_a := 3 ]}
    {[ mk_entityid region_a 0 := self ]}
    (λ i, if decide (i = self) then {[ 5 := region_a ]} else ∅)
    (λ _, []).

(** A directory that hosts [region_a] on a disk that has nothing to
    preallocate or write back, reports DATAFULL to [flush] and then
    completes its mandatory I/O. *)
Definition hosting_full_disk : @world scripted :=
  set_heap (HD := scripted)
    (<[0 := [DIDNOTHING; DIDNOTHING; DATAFULL; SUCCESS]]> (λ _, []))
    (set_next_ptr (HD := scripted) 1
       (set_disks (HD := scripted) {[ region_a := 0 ]} scripted_init)).

(** [self] holds replica 0 of the three regions. *)
Definition config_abc : @configuration scripted :=
  mk_configuration (H := scripted)
    {[ region_a := 3; region_b := 3; region_c := 3 ]}
    {[ mk_entityid region_a 0 := self; mk_entityid region_b 0 := self;
       mk_entityid region_c 0 := self ]}
    (λ _, ∅)
    (λ _, []).

(** [self] only holds replica 0 of [region_c]. *)
Definition config_c : @configuration scripted :=
  mk_configuration (H := scripted)
    {[ region_a := 3; region_b := 3; region_c := 3 ]}
    {[ mk_entityid region_c 0 := self ]}
    (λ _, ∅)
    (λ _, []).

(** A directory that hosts [region_a] and has not run a round yet. *)
Definition hosting_a : @world scripted :=
  run_state (prepare config_a self) scripted_init.

(** The directory after [prepare] for the three regions and one round of
    [flush_loop], and then after the [cleanup] that drops [region_a] and
    [region_b]. *)
Definition hosting_abc_after_round : @world scripted :=
  run_state flush_loop_body
    (run_state (prepare config_abc self) scripted_init).

(** A configuration whose disks answer SUCCESS to every call, so that
    each pass of a round serves one region and ends. *)
Definition config_abc_busy : @configuration scripted :=
  mk_configuration (H := scripted)
    {[ region_a := 3; region_b := 3; region_c := 3 ]}
    {[ mk_entityid region_a 0 := self; mk_entityid region_b 0 := self;
       mk_entityid region_c 0 := self ]}
    (λ _, ∅)
    (λ _, repeat SUCCESS 40).

(** The three regions hosted on disks that answer SUCCESS. *)
Definition hosting_abc_busy : @world scripted :=
  run_state (prepare config_abc_busy self) scripted_init.

(** The three regions hosted, after a first round: both queues hold the
    three regions, and the next three rounds serve one region each. *)
Definition busy_window_1 : @world scripted :=
  run_state flush_loop_body
    (run_state (prepare config_abc_busy self) scripted_init).

Definition busy_window_2 : @world scripted :=
  run_state flush_loop_body busy_window_1.

Definition busy_window_3 : @world scripted :=
  run_state flush_loop_body busy_window_2.

Definition hosting_c_stale : @world scripted :=
  run_state (cleanup config_c self) hosting_abc_after_round.

(** * Properties *)

(** ** Orders of the identifiers *)

#[global] Instance N_Comparison : Comparison N.compare.
Proof.
  split.
  - apply N.compare_eq_iff.
  - intros a b. apply N.compare_antisym.
  - intros a b c. rewrite !N.compare_lt_iff. lia.
Qed.

Section comparison_facts.
Context {A : Type} (cmp : A → A → comparison) `{!Comparison cmp}.

Lemma cmp_refl a : cmp a a = Eq.
Proof. by apply (cmp_eq cmp). Qed.

Lemma cmp_gt_lt a b : cmp a b = Gt ↔ cmp b a = Lt.
Proof.
  rewrite (cmp_opp cmp a b). destruct (cmp a b); simpl; split; congruence.
Qed.

Lemma cmp_leb_total a b : cmp_leb cmp a b = true ∨ cmp_leb cmp b a = true.
Proof.
  unfold cmp_leb. rewrite (cmp_opp cmp a b).
  destruct (cmp a b); simpl; auto.
Qed.

Lemma cmp_leb_trans a b c :
  cmp_leb cmp a b = true → cmp_leb cmp b c = true → cmp_leb cmp a c = true.
Proof.
  unfold cmp_leb. intros Hab Hbc.
  destruct (cmp a b) eqn:E1; try discriminate.
  - apply (cmp_eq cmp) in E1 as ->. done.
  - destruct (cmp b c) eqn:E2; try discriminate.
    + apply (cmp_eq cmp) in E2 as ->. by rewrite E1.
    + by rewrite (cmp_lt_trans cmp a b c E1 E2).
Qed.

Lemma cmp_ltb_leb a b : cmp_ltb cmp a b = negb (cmp_leb cmp b a).
Proof.
  unfold cmp_ltb, cmp_leb. rewrite (cmp_opp cmp a b).
  by destruct (cmp a b).
Qed.
End comparison_facts.

#[global] Instance pair_Comparison {A B} (ca : A → A → comparison)
    (cb : B → B → comparison) `{!Comparison ca, !Comparison cb} :
  Comparison (pair_compare ca cb).
Proof.
  split.
  - intros [a1 b1] [a2 b2]. unfold pair_compare, lex. simpl.
    destruct (ca a1 a2) eqn:E.
    + apply (cmp_eq ca) in E as ->. rewrite (cmp_eq cb).
      split; [by intros ->|congruence].
    + split; [done|]. intros [= -> _]. by rewrite (cmp_refl ca) in E.
    + split; [done|]. intros [= -> _]. by rewrite (cmp_refl ca) in E.
  - intros [a1 b1] [a2 b2]. unfold pair_compare, lex. simpl.
    rewrite (cmp_opp ca a1 a2), (cmp_opp cb b1 b2). by destruct (ca a1 a2).
  - intros [a1 b1] [a2 b2] [a3 b3]. unfold pair_compare, lex. simpl.
    destruct (ca a1 a2) eqn:E12; try discriminate.
    + apply (cmp_eq ca) in E12 as ->.
      destruct (ca a2 a3) eqn:E23; try discriminate; [|done].
      apply (cmp_lt_trans cb b1 b2 b3).
    + intros _. destruct (ca a2 a3) eqn:E23; try discriminate.
      * apply (cmp_eq ca) in E23 as ->. by rewrite E12.
      * by rewrite (cmp_lt_trans ca a1 a2 a3 E12 E23).
Qed.

(** A comparison transported along an injective projection. *)
Lemma proj_Comparison {A B} (f : A → B) (cb : B → B → comparison)
    `{!Comparison cb} `{!Inj (=) (=) f} :
  Comparison (λ x y, cb (f x) (f y)).
Proof.
  split.
  - intros a b. rewrite (cmp_eq cb). split; [apply (inj f)|by intros ->].
  - intros a b. apply (cmp_opp cb).
  - intros a b c. apply (cmp_lt_trans cb).
Qed.

#[global] Instance regionid_Comparison : Comparison regionid_compare.
Proof.
  pose (key := λ r : regionid, (space r, (subspace r, (prefix r, mask r)))).
  assert (Inj (=) (=) key) as Hinj.
  { intros [] []; unfold key; simpl; congruence. }
  exact (proj_Comparison key
    (pair_compare N.compare (pair_compare N.compare
      (pair_compare N.compare N.compare)))).
Qed.

#[global] Instance entityid_Comparison : Comparison entityid_compare.
Proof.
  pose (key := λ e : entityid, (entity_region e, number e)).
  assert (Inj (=) (=) key) as Hinj.
  { intros [] []; unfold key; simpl; congruence. }
  exact (proj_Comparison key (pair_compare regionid_compare N.compare)).
Qed.

(** The entities between [entityid(ri, 0)] and [entityid(ri, UINT8_MAX)]
    are those of region [ri] whose replica index fits in a byte. *)
Lemma entity_between_region (ri : regionid) (e : entityid) :
  cmp_ltb entityid_compare e (mk_entityid ri 0) = false ∧
  cmp_leb entityid_compare e (mk_entityid ri UINT8_MAX) = true
  ↔ entity_region e = ri ∧ number e ≤ UINT8_MAX.
Proof.
  destruct e as [r n]. unfold cmp_ltb, cmp_leb, entityid_compare, lex. simpl.
  destruct (regionid_compare r ri) eqn:E.
  - apply (cmp_eq regionid_compare) in E as ->.
    destruct (N.compare_spec n 0), (N.compare_spec n UINT8_MAX);
      unfold UINT8_MAX in *; split; intros [? ?]; try done; split; try done; lia.
  - split; [by intros [? _]|]. intros [-> _].
    by rewrite (cmp_refl regionid_compare) in E.
  - split; [by intros [_ ?]|]. intros [-> _].
    by rewrite (cmp_refl regionid_compare) in E.
Qed.

(** ** [std::map]: iteration and bounds *)

Section stdmap_facts.
Context {K : Type} `{Countable K} {V : Type}.
Context (cmp : K → K → comparison) `{!Comparison cmp}.
Implicit Types (m : gmap K V) (l : list (K * V)) (x : K * V).

#[local] Instance key_le_total : Total (key_le (V:=V) cmp).
Proof. intros x y. apply (cmp_leb_total cmp). Qed.

#[local] Instance key_le_trans : Transitive (key_le (V:=V) cmp).
Proof. intros x y z. apply (cmp_leb_trans cmp). Qed.

Lemma map_elements_perm m : map_elements cmp m ≡ₚ map_to_list m.
Proof. apply merge_sort_Permutation. Qed.

Lemma elem_of_map_elements m k v :
  (k, v) ∈ map_elements cmp m ↔ m !! k = Some v.
Proof. by rewrite map_elements_perm, elem_of_map_to_list. Qed.

Lemma elem_of_map_elements_1 m x :
  x ∈ map_elements cmp m ↔ m !! x.1 = Some x.2.
Proof. destruct x. apply elem_of_map_elements. Qed.

Lemma NoDup_map_elements_keys m : NoDup (map_elements cmp m).*1.
Proof. rewrite map_elements_perm. apply NoDup_fst_map_to_list. Qed.

Lemma elem_of_map_elements_keys m k :
  k ∈ (map_elements cmp m).*1 ↔ is_Some (m !! k).
Proof.
  rewrite list_elem_of_fmap. split.
  - intros ([k' v] & -> & Hin). apply elem_of_map_elements in Hin. eauto.
  - intros [v Hv]. exists (k, v). split; [done|]. by apply elem_of_map_elements.
Qed.

Lemma map_elements_sorted m : StronglySorted (key_le cmp) (map_elements cmp m).
Proof. apply StronglySorted_merge_sort; apply _. Qed.

Lemma upper_bound_length k l : (length (upper_bound cmp k l) ≤ length l)%nat.
Proof. induction l as [|x l IH]; simpl; [done|]. case_match; simpl; lia. Qed.

Lemma elem_of_below_upper_bound hi l x :
  StronglySorted (key_le cmp) l →
  x ∈ take (length l - length (upper_bound cmp hi l)) l
  ↔ x ∈ l ∧ cmp_leb cmp x.1 hi = true.
Proof.
  induction 1 as [|a l Hl IH Ha]; simpl.
  { split; [inversion 1|intros [Hx _]; inversion Hx]. }
  destruct (cmp_leb cmp a.1 hi) eqn:E; simpl.
  - pose proof (upper_bound_length hi l).
    replace (S (length l) - length (upper_bound cmp hi l))%nat
      with (S (length l - length (upper_bound cmp hi l))) by lia.
    simpl. rewrite !elem_of_cons, IH.
    split; [intros [->|[? ?]]; auto|intros [[->|?] ?]; auto].
  - replace (length l - length l)%nat with 0%nat by lia. simpl.
    split; [inversion 1|]. intros [Hx Hle]. exfalso.
    assert (cmp_leb cmp a.1 x.1 = true) as Hax.
    { apply elem_of_cons in Hx as [->|Hx].
      - unfold cmp_leb. by rewrite (cmp_refl cmp).
      - rewrite Forall_forall in Ha. by apply Ha. }
    by rewrite (cmp_leb_trans cmp _ _ _ Hax Hle) in E.
Qed.

(** The entries visited between [lower_bound(lo)] and [upper_bound(hi)]
    are the entries whose key lies between [lo] and [hi]. *)
Lemma elem_of_iter_range lo hi l x :
  StronglySorted (key_le cmp) l →
  cmp_leb cmp lo hi = true →
  x ∈ iter_range (lower_bound cmp lo l) (upper_bound cmp hi l)
  ↔ x ∈ l ∧ cmp_ltb cmp x.1 lo = false ∧ cmp_leb cmp x.1 hi = true.
Proof.
  intros Hl Hlohi. unfold iter_range.
  induction Hl as [|a l Hl IH Ha]; simpl.
  { split; [inversion 1|intros [Hx _]; inversion Hx]. }
  destruct (cmp_ltb cmp a.1 lo) eqn:E; simpl.
  - assert (cmp_leb cmp a.1 hi = true) as ->.
    { apply (cmp_leb_trans cmp _ lo); [|done].
      rewrite (cmp_ltb_leb cmp) in E. apply negb_true_iff in E.
      destruct (cmp_leb_total cmp a.1 lo); congruence. }
    rewrite IH, elem_of_cons. split; [intros (? & ? & ?); auto|].
    intros ([->|?] & ? & ?); [congruence|done].
  - assert (StronglySorted (key_le cmp) (a :: l)) as Hal by by constructor.
    pose proof (elem_of_below_upper_bound hi (a :: l) x Hal) as Hub.
    simpl in Hub. rewrite Hub. split; [|intros (? & ? & ?); auto].
    intros [Hx Hle]. split_and!; [done| |done].
    assert (cmp_leb cmp a.1 x.1 = true) as Hax.
    { apply elem_of_cons in Hx as [->|Hx].
      - unfold cmp_leb. by rewrite (cmp_refl cmp).
      - rewrite Forall_forall in Ha. by apply Ha. }
    rewrite (cmp_ltb_leb cmp) in E |- *. apply negb_false_iff in E.
    apply negb_false_iff. by apply (cmp_leb_trans cmp _ a.1).
Qed.

Lemma lookup_map_insert_new k v m k' :
  map_insert_new k v m !! k' =
    match m !! k' with
    | Some v' => Some v'
    | None => if decide (k = k') then Some v else None
    end.
Proof.
  unfold map_insert_new. destruct (m !! k) eqn:E.
  - destruct (m !! k') eqn:E'; [done|]. case_decide; congruence.
  - rewrite lookup_insert. case_decide; subst; [by rewrite E|].
    by destruct (m !! k').
Qed.
End stdmap_facts.

(** ** Rules for running operations *)

Section wp_rules.
Context `{HD : Hyperdisk}.

Lemma run_eta {A} (m : M A) w :
  m w = (run_value m w, run_state m w, run_events m w).
Proof. unfold run_value, run_state, run_events. by destruct (m w) as [[? ?] ?]. Qed.

Lemma wp_ret {A} (a : A) w Q : Q a w [] → wp (ret a) w Q.
Proof. done. Qed.

Lemma wp_bind {A B} (m : M A) (f : A → M B) w Q :
  wp m w (λ a w1 e1, wp (f a) w1 (λ b w2 e2, Q b w2 (e1 ++ e2))) →
  wp (bind m f) w Q.
Proof.
  unfold wp, run_value, run_state, run_events, bind.
  destruct (m w) as [[a w1] e1]. simpl.
  by destruct (f a w1) as [[b w2] e2].
Qed.

Lemma wp_gets {A} (f : world → A) w Q : Q (f w) w [] → wp (gets f) w Q.
Proof. done. Qed.

Lemma wp_modify (f : world → world) w Q : Q tt (f w) [] → wp (modify f) w Q.
Proof. done. Qed.

Lemma wp_emit (e : event) w Q : Q tt w [e] → wp (emit e) w Q.
Proof. done. Qed.

Lemma wp_e_time w Q :
  Q (clock w (ticks w)) (set_ticks (S (ticks w)) w) [] → wp e_time w Q.
Proof. done. Qed.

Lemma wp_call {A} (d : disk_ptr) (op : disk → A * disk) w Q :
  Q (op (heap w d)).1 (set_heap (<[d := (op (heap w d)).2]> (heap w)) w) [] →
  wp (call d op) w Q.
Proof.
  unfold wp, run_value, run_state, run_events, call.
  by destruct (op (heap w d)).
Qed.

Lemma wp_new_disk path h n w Q :
  Q (next_ptr w)
    (set_next_ptr (N.succ (next_ptr w))
       (set_heap (<[next_ptr w := disk_create path h n]> (heap w)) w)) [] →
  wp (new_disk path h n) w Q.
Proof. done. Qed.

Lemma wp_mono {A} (m : M A) w (Q Q' : A → world → list event → Prop) :
  wp m w Q → (∀ a w' e, Q a w' e → Q' a w' e) → wp m w Q'.
Proof. unfold wp. auto. Qed.

Lemma wp_and {A} (m : M A) w (Q Q' : A → world → list event → Prop) :
  wp m w Q → wp m w Q' → wp m w (λ a w' e, Q a w' e ∧ Q' a w' e).
Proof. unfold wp. auto. Qed.

(** A loop keeps an invariant [I] that relates the part of the list
    already visited, the current state and the calls made so far. *)
Lemma wp_for_each {X} (body : X → M unit)
    (I : list X → world → list event → Prop) (l : list X) w :
  I [] w [] →
  (∀ done x w1 e1, I done w1 e1 →
     wp (body x) w1 (λ _ w2 e2, I (done ++ [x]) w2 (e1 ++ e2))) →
  wp (for_each l body) w (λ _ w' e, I l w' e).
Proof.
  intros H0 Hstep.
  cut (∀ done w1 e1, I done w1 e1 →
         wp (for_each l body) w1 (λ _ w2 e2, I (done ++ l) w2 (e1 ++ e2))).
  { intros Hgen. apply (Hgen [] w [] H0). }
  induction l as [|x l IH]; intros done w1 e1 HI; simpl.
  - apply wp_ret. by rewrite !app_nil_r.
  - apply wp_bind. eapply wp_mono; [by apply Hstep|].
    intros [] w2 e2 HI2. simpl. eapply wp_mono; [by apply IH|].
    intros [] w3 e3. simpl. by rewrite <- !(assoc_L (++)).
Qed.

Lemma wp_for_each_with {X S} (body : X → S → M S)
    (I : list X → S → world → list event → Prop) (l : list X) s w :
  I [] s w [] →
  (∀ done x s1 w1 e1, I done s1 w1 e1 →
     wp (body x s1) w1 (λ s2 w2 e2, I (done ++ [x]) s2 w2 (e1 ++ e2))) →
  wp (for_each_with l body s) w (λ s' w' e, I l s' w' e).
Proof.
  intros H0 Hstep.
  cut (∀ done s1 w1 e1, I done s1 w1 e1 →
         wp (for_each_with l body s1) w1
            (λ s2 w2 e2, I (done ++ l) s2 w2 (e1 ++ e2))).
  { intros Hgen. apply (Hgen [] s w [] H0). }
  induction l as [|x l IH]; intros done s1 w1 e1 HI; simpl.
  - apply wp_ret. by rewrite !app_nil_r.
  - apply wp_bind. eapply wp_mono; [apply Hstep, HI|].
    intros s2 w2 e2 HI2. simpl. eapply wp_mono; [apply IH, HI2|].
    intros s3 w3 e3. simpl. by rewrite <- !(assoc_L (++)).
Qed.
End wp_rules.

(** ** Request delegation: [get], [put], [del] *)

Section delegation.
Context `{HD : Hyperdisk}.

Lemma call_eq {A} (d : disk_ptr) (op : disk → A * disk) w :
  call d op w = ((op (heap w d)).1, after_call d op w, []).
Proof. unfold call, after_call. by destruct (op (heap w d)). Qed.

(** C5. On a region that the map does not hold, [get], [put] and [del]
    return MISSINGDISK, make no call and leave the whole state as it was;
    on a hosted region they return what the region's disk returns, and the
    state changes only in that disk object. *)
Theorem get_put_del_missing_or_delegate
    (w : world) (ri : regionid) (key : buffer) (value : list buffer)
    (version : N) :
  match m_disks w !! ri with
  | None =>
      get ri key w = ((MISSINGDISK, None), w, []) ∧
      put ri key value version w = (MISSINGDISK, w, []) ∧
      del ri key w = (MISSINGDISK, w, [])
  | Some d =>
      get ri key w =
        ((disk_get key (heap w d)).1, after_call d (disk_get key) w, []) ∧
      put ri key value version w =
        ((disk_put key value version (heap w d)).1,
         after_call d (disk_put key value version) w, []) ∧
      del ri key w =
        ((disk_del key (heap w d)).1, after_call d (disk_del key) w, []) ∧
      ∀ op : disk → returncode * disk,
        m_disks (after_call d op w) = m_disks w ∧
        (∀ d', d' ≠ d → heap (after_call d op w) d' = heap w d')
  end.
Proof.
  unfold get, put, del, get_region, bind, gets.
  destruct (m_disks w !! ri) as [d|] eqn:E; simpl.
  - rewrite !call_eq. split_and!; try done.
    intros op. split; [done|]. intros d' Hd'. simpl.
    by rewrite fn_lookup_insert_ne.
  - done.
Qed.
End delegation.

(** ** [cleanup] *)

Section cleanup_facts.
Context `{HD : Hyperdisk}.

Lemma foldl_set_flag {X} (P : X → bool) (l : list X) (keep : bool) :
  foldl (λ keep x, if P x then true else keep) keep l = true
  ↔ keep = true ∨ ∃ x, x ∈ l ∧ P x = true.
Proof.
  revert keep. induction l as [|x l IH]; intros keep; simpl.
  - split; [auto|]. intros [?|(x & Hx & _)]; [done|inversion Hx].
  - rewrite IH. split.
    + intros [Hk|(y & Hy & HP)].
      * destruct (P x) eqn:E; [|auto].
        right. exists x. split; [left|done].
      * right. exists y. split; [by right|done].
    + intros [->|(y & Hy & HP)].
      * left. by destruct (P x).
      * apply elem_of_cons in Hy as [->|Hy].
        -- left. by rewrite HP.
        -- right. eauto.
Qed.

Lemma cleanup_keep_spec (c : configuration) (us : instance) (ri : regionid) :
  entity_numbers_fit c →
  cleanup_keep c us (transfers_to c us) ri = true
  ↔ assigned c us ri ∨ transfer_target c us ri.
Proof.
  intros Hfit. unfold cleanup_keep.
  rewrite foldl_set_flag, foldl_set_flag.
  assert (cmp_leb entityid_compare (mk_entityid ri 0) (mk_entityid ri UINT8_MAX)
          = true) as Hlohi.
  { unfold cmp_leb, entityid_compare, lex. simpl.
    by rewrite (cmp_refl regionid_compare). }
  split.
  - intros [[?|(e & He & Hus)]|(t & Ht & Htr)]; [done| |].
    + left. apply bool_decide_eq_true in Hus.
      apply (elem_of_iter_range entityid_compare) in He
        as (He & Hlo & Hhi); [|apply map_elements_sorted; apply _|done].
      apply (elem_of_map_elements_1 entityid_compare) in He.
      exists e.1. split; [congruence|].
      by apply (entity_between_region ri e.1).
    + right. apply bool_decide_eq_true in Htr.
      apply (elem_of_map_elements_1 N.compare) in Ht.
      exists t.1. congruence.
  - intros [(e & He & Hri)|(t & Ht)].
    + left. right. exists (e, us). split; [|by apply bool_decide_eq_true].
      apply (elem_of_iter_range entityid_compare);
        [apply map_elements_sorted; apply _|done|].
      split; [by apply (elem_of_map_elements entityid_compare)|].
      apply (entity_between_region ri e). split; [done|by eapply Hfit].
    + right. exists (t, ri). split; [|by apply bool_decide_eq_true].
      by apply (elem_of_map_elements N.compare).
Qed.

Lemma wp_drop_disk (ri : regionid) w Q :
  match m_disks w !! ri with
  | Some d =>
      Q tt (set_disks (delete ri (m_disks w))
              (set_heap (<[d := disk_drop (heap w d)]> (heap w)) w))
        [EvLog INFO (MsgDropping ri); EvDrop ri d]
  | None => Q tt w []
  end →
  wp (drop_disk ri) w Q.
Proof.
  intros HQ. unfold drop_disk. apply wp_bind, wp_gets.
  destruct (m_disks w !! ri) as [d|]; [|by apply wp_ret].
  apply wp_bind, wp_emit, wp_bind, wp_call, wp_bind, wp_emit, wp_modify.
  exact HQ.
Qed.

Lemma wp_cleanup_loop (keep : regionid → bool)
    (l : list (regionid * disk_ptr)) w :
  wp (for_each l (λ d, if negb (keep d.1) then drop_disk d.1 else ret tt)) w
    (λ _ w' evs, cleanup_loop_post keep w l w' evs).
Proof.
  apply (wp_for_each _ (cleanup_loop_post keep w)).
  { split_and!; try done.
    - intros ri Hin. inversion Hin.
    - intros ri d. split; [inversion 1|]. intros [Hin _]. inversion Hin. }
  intros vis [x dx] w1 e1 (Hdrop & Hkeep & Hev & Hq1 & Hq2).
  assert (∀ ri, ri ∈ (vis ++ [(x, dx)]).*1 ↔ ri ∈ vis.*1 ∨ ri = x) as Hin.
  { intros ri. rewrite fmap_app, elem_of_app. simpl.
    by rewrite list_elem_of_singleton. }
  cbn [fst]. destruct (keep x) eqn:Hk; cbn [negb].
  - apply wp_ret. rewrite app_nil_r. split_and!; try done.
    + intros ri [?| ->]%Hin Hf; [auto|congruence].
    + intros ri [Hnin|Hkp]; apply Hkeep; [|by right].
      left. intros ?. apply Hnin, Hin. by left.
    + intros ri d. rewrite Hev, Hin. split.
      * intros (? & ? & ?). auto.
      * intros ([?| ->] & ? & ?); [done|congruence].
  - apply wp_drop_disk.
    destruct (m_disks w1 !! x) as [d|] eqn:E.
    + split_and!; try done; cbn [m_disks set_disks].
      * intros ri [Hri| ->]%Hin Hf.
        -- destruct (decide (ri = x)) as [->|Hne]; [apply lookup_delete_eq|].
           rewrite lookup_delete_ne by done. by apply Hdrop.
        -- apply lookup_delete_eq.
      * intros ri Hri.
        assert (ri ≠ x) as Hne.
        { intros ->. destruct Hri as [Hri|Hri]; [|congruence].
          apply Hri, Hin. by right. }
        rewrite lookup_delete_ne by done. apply Hkeep.
        destruct Hri as [Hri|Hri]; [|by right].
        left. intros ?. apply Hri, Hin. by left.
      * intros ri d'. rewrite elem_of_app, Hev, Hin.
        rewrite !elem_of_cons, elem_of_nil.
        destruct (decide (x ∈ vis.*1)) as [Hx|Hx].
        { by rewrite (Hdrop x Hx Hk) in E. }
        rewrite (Hkeep x (or_introl Hx)) in E.
        split.
        -- intros [(? & ? & ?)|[?|[[= -> ->]|[]]]]; [auto|done|auto].
        -- intros ([?| ->] & ? & Hd'); [by left|].
           right. right. left. congruence.
    + rewrite app_nil_r. split_and!; try done.
      * intros ri [Hri| ->]%Hin Hf; [by apply Hdrop|done].
      * intros ri Hri. apply Hkeep.
        destruct Hri as [Hri|Hri]; [|by right].
        left. intros ?. apply Hri, Hin. by left.
      * intros ri d'. rewrite Hev, Hin. split.
        -- intros (? & ? & ?). auto.
        -- intros ([?| ->] & ? & Hd'); [done|].
           destruct (decide (x ∈ vis.*1)) as [Hx|Hx]; [done|].
           rewrite (Hkeep x (or_introl Hx)) in E. congruence.
Qed.
End cleanup_facts.

Example cleanup_example :
  cleanup config_a self hosting_a_b =
  (tt, set_disks (HD := scripted) {[ region_a := 0 ]}
         (set_heap (HD := scripted) (<[1 := []]> (λ _, [])) scripted_init),
   [EvLog INFO (MsgDropping region_b); EvDrop region_b 1]).
Proof. vm_compute. reflexivity. Qed.

(** ** [prepare] *)

Section prepare_facts.
Context `{HD : Hyperdisk}.

Lemma first_create_app ri e1 e2 :
  first_create ri (e1 ++ e2) =
    match first_create ri e1 with
    | Some d => Some d
    | None => first_create ri e2
    end.
Proof.
  induction e1 as [|e e1 IH]; simpl; [done|].
  destruct e; try done. by case_decide.
Qed.

Lemma first_create_Some ri evs d :
  first_create ri evs = Some d → ∃ path h n, EvCreate ri path h n d ∈ evs.
Proof.
  induction evs as [|e evs IH]; simpl; [done|].
  assert (first_create ri evs = Some d → ∃ path h n,
            EvCreate ri path h n d ∈ e :: evs) as Hrec.
  { intros (path & h & n & Hin)%IH. exists path, h, n. by right. }
  destruct e; try done.
  case_decide; [|done]. intros [= ->]. subst.
  eexists _, _, _. left.
Qed.

Lemma first_create_None ri evs :
  first_create ri evs = None ↔ ∀ path h n d, EvCreate ri path h n d ∉ evs.
Proof.
  induction evs as [|e evs IH]; simpl.
  { split; [|done]. intros _ ? ? ? ?. inversion 1. }
  assert ((∀ path h n d, EvCreate ri path h n d ≠ e) →
          first_create ri evs = None
          ↔ ∀ path h n d, EvCreate ri path h n d ∉ e :: evs) as Hrec.
  { intros Hne. rewrite IH. split.
    - intros Hnin path h n d [Heq|Hin]%elem_of_cons; [by eapply Hne|].
      by eapply Hnin.
    - intros Hnin path h n d Hin. eapply Hnin. by right. }
  destruct e; try (apply Hrec; congruence).
  case_decide as Hr.
  - subst. split; [done|]. intros Hnin. exfalso. eapply Hnin. left.
  - apply Hrec. congruence.
Qed.

Lemma wp_create_disk (ri : regionid) (h : hasher) (num_columns : N) w Q :
  (let n := num_columns mod UINT16_MODULUS in
   let d := next_ptr w in
   let path := region_path (m_base w) ri in
   Q tt
     (set_disks (map_insert_new ri d (m_disks w))
        (set_next_ptr (N.succ d)
           (set_heap (<[d := disk_create path h n]> (heap w)) w)))
     [EvLog INFO (MsgCreating ri n); EvCreate ri path h n d]) →
  wp (create_disk ri h num_columns) w Q.
Proof.
  intros HQ. unfold create_disk.
  apply wp_bind, wp_emit, wp_bind, wp_gets, wp_bind, wp_new_disk.
  apply wp_bind, wp_emit, wp_modify. exact HQ.
Qed.

Lemma wp_prepare_loop (c : configuration) {X} (want : X → bool)
    (key : X → regionid) (l : list X) w0 :
  wp (for_each l (create_if c want key)) w0
    (λ _ w' evs, prepare_loop_post c want key w0 l w' evs).
Proof.
  apply (wp_for_each _ (prepare_loop_post c want key w0)).
  { split; try done.
    - intros ri. by destruct (m_disks w0 !! ri).
    - intros ? ? ? ? ?. inversion 1.
    - intros ? ?. inversion 1.
    - intros ?. inversion 1. }
  intros vis x w1 e1 [Hdisks Hsound Hcomplete Hskipped Hbase Hnext Hheap Hq1 Hq2].
  unfold create_if. destruct (want x) eqn:Hwant.
  2:{ apply wp_ret. rewrite app_nil_r. split; try done.
      - intros ri path h n d Hin.
        destruct (Hsound ri path h n d Hin) as ((y & sz & ? & ?) & ?).
        split; [|done]. exists y, sz. rewrite elem_of_app. tauto.
      - intros y sz [Hy|Hy]%elem_of_app ? ?; [by eapply Hcomplete|].
        apply list_elem_of_singleton in Hy as ->. congruence.
      - intros y [Hy|Hy]%elem_of_app ? ?; [by eapply Hskipped|].
        apply list_elem_of_singleton in Hy as ->. congruence. }
  destruct (regions c !! key x) as [sz|] eqn:Hsz.
  2:{ apply wp_emit. split; try done.
      - intros ri. rewrite Hdisks, first_create_app. simpl.
        by destruct (first_create ri e1).
      - intros ri path h n d [Hin|Hin]%elem_of_app.
        + destruct (Hsound ri path h n d Hin) as ((y & sz & ? & ?) & ?).
          split; [|done]. exists y, sz. rewrite elem_of_app. tauto.
        + apply list_elem_of_singleton in Hin. done.
      - intros y sz [Hy|Hy]%elem_of_app ? ?.
        + destruct (Hcomplete y sz) as [d Hd]; try done.
          exists d. apply elem_of_app. by left.
        + apply list_elem_of_singleton in Hy as ->. congruence.
      - intros y _ _ _. apply elem_of_app. right. left. }
  apply wp_create_disk. cbv zeta.
  split; cbn [m_disks m_base next_ptr heap m_preallocate_rr m_optimistic_rr
              set_disks set_next_ptr set_heap]; try done.
  - intros ri. rewrite lookup_map_insert_new, Hdisks, first_create_app.
    destruct (m_disks w0 !! ri); [done|].
    destruct (first_create ri e1); [done|]. simpl.
    by case_decide.
  - intros ri path h n d [Hin|Hin]%elem_of_app.
    + destruct (Hsound ri path h n d Hin) as ((y & sz' & ? & ?) & Hh & ? & ?).
      split_and!; try lia.
      * exists y, sz'. rewrite elem_of_app. tauto.
      * rewrite fn_lookup_insert_ne by lia. done.
    + apply elem_of_cons in Hin as [[=]|Hin].
      apply list_elem_of_singleton in Hin. injection Hin as -> -> -> -> ->.
      split_and!; try lia.
      * exists x, sz. rewrite elem_of_app, list_elem_of_singleton.
        split_and!; try done; [by right|].
        unfold created_as. by rewrite Hbase.
      * by rewrite fn_lookup_insert.
  - intros y sz' [Hy|Hy]%elem_of_app ? ?.
    + destruct (Hcomplete y sz') as [d Hd]; try done.
      exists d. apply elem_of_app. by left.
    + apply list_elem_of_singleton in Hy as ->.
      exists (next_ptr w1). apply elem_of_app. right. right.
      apply list_elem_of_singleton. unfold created_as.
      rewrite Hbase. congruence.
  - intros y [Hy|Hy]%elem_of_app ? ?.
    + apply elem_of_app. left. by eapply Hskipped.
    + apply list_elem_of_singleton in Hy as ->. congruence.
  - lia.
  - intros d Hd. rewrite fn_lookup_insert_ne by lia. by apply Hheap.
Qed.
End prepare_facts.

Section prepare_claims.
Context `{HD : Hyperdisk}.

Lemma wp_prepare (c : configuration) (us : instance) w :
  wp (prepare c us) w (λ _ w' evs, prepare_post c us w w' evs).
Proof.
  unfold prepare. apply wp_bind, wp_gets, wp_bind.
  eapply wp_mono.
  { apply (wp_prepare_loop c (want_entity us (m_disks w))
             (λ e, entity_region e.1)). }
  intros [] w1 e1 H1. simpl.
  eapply wp_mono.
  { apply (wp_prepare_loop c (want_transfer (m_disks w)) snd). }
  intros [] w2 e2 H2. by exists w1, e1, e2.
Qed.

Lemma prepare_run (c : configuration) (us : instance) w :
  prepare_post c us w (run_state (prepare c us) w) (run_events (prepare c us) w).
Proof. apply (wp_prepare c us w). Qed.

(** Which entries the loops act on. *)
Lemma want_entity_spec (c : configuration) us disks ri :
  (∃ e, e ∈ map_elements entityid_compare (entity_mapping c) ∧
        want_entity us disks e = true ∧ entity_region e.1 = ri)
  ↔ disks !! ri = None ∧ assigned_outside_sentinel c us ri.
Proof.
  unfold want_entity. split.
  - intros ([e i] & He & Hw & <-). simpl in *.
    apply (elem_of_map_elements entityid_compare) in He.
    apply andb_true_iff in Hw as [[H1 H2]%andb_true_iff H3].
    apply bool_decide_eq_true in H1, H2, H3. subst.
    split; [done|]. by exists e.
  - intros (Hd & e & He & <- & Hs). exists (e, us). simpl.
    split; [by apply (elem_of_map_elements entityid_compare)|].
    by rewrite !bool_decide_eq_true_2.
Qed.

Lemma want_transfer_spec (c : configuration) us disks ri :
  (∃ t, t ∈ map_elements N.compare (transfers_to c us) ∧
        want_transfer disks t = true ∧ t.2 = ri)
  ↔ disks !! ri = None ∧ transfer_target c us ri.
Proof.
  unfold want_transfer. split.
  - intros ([t r] & Ht & Hw & <-). simpl in *.
    apply (elem_of_map_elements N.compare) in Ht.
    apply bool_decide_eq_true in Hw. split; [done|]. by exists t.
  - intros (Hd & t & Ht). exists (t, ri). simpl.
    split; [by apply (elem_of_map_elements N.compare)|].
    by rewrite bool_decide_eq_true_2.
Qed.

(** The calls to [disk::create] that one [prepare] makes. *)
Lemma prepare_create_sound (c : configuration) us w w' evs ri path h n d :
  prepare_post c us w w' evs →
  EvCreate ri path h n d ∈ evs →
  m_disks w !! ri = None ∧
  (assigned_outside_sentinel c us ri ∨ transfer_target c us ri) ∧
  (∃ sz, regions c !! ri = Some sz ∧
         EvCreate ri path h n d = created_as c (m_base w) ri sz d) ∧
  heap w' d = disk_create path h n ∧
  next_ptr w ≤ d < next_ptr w'.
Proof.
  intros (w1 & e1 & e2 & -> & H1 & H2) [Hin|Hin]%elem_of_app.
  - destruct (plp_sound _ _ _ _ _ _ _ H1 _ _ _ _ _ Hin)
      as ((x & sz & Hx & Hw & Hk & Hsz & Heq) & Hh & Hlo & Hhi).
    destruct (proj1 (want_entity_spec c us (m_disks w) ri)) as [Hd Ha]; [eauto|].
    pose proof (plp_next _ _ _ _ _ _ _ H2).
    split_and!; eauto; [|lia].
    rewrite (plp_heap _ _ _ _ _ _ _ H2) by done. done.
  - destruct (plp_sound _ _ _ _ _ _ _ H2 _ _ _ _ _ Hin)
      as ((x & sz & Hx & Hw & Hk & Hsz & Heq) & Hh & Hlo & Hhi).
    destruct (proj1 (want_transfer_spec c us (m_disks w) ri)) as [Hd Ha]; [eauto|].
    pose proof (plp_next _ _ _ _ _ _ _ H1).
    rewrite (plp_base _ _ _ _ _ _ _ H1) in Heq.
    split_and!; eauto; lia.
Qed.

Lemma prepare_create_complete (c : configuration) us w w' evs ri sz :
  prepare_post c us w w' evs →
  m_disks w !! ri = None →
  assigned_outside_sentinel c us ri ∨ transfer_target c us ri →
  regions c !! ri = Some sz →
  ∃ d, created_as c (m_base w) ri sz d ∈ evs.
Proof.
  intros (w1 & e1 & e2 & -> & H1 & H2) Hd [Ha|Ht] Hsz.
  - destruct (proj2 (want_entity_spec c us (m_disks w) ri))
      as (x & Hx & Hw & Hk); [done|]. subst ri.
    destruct (plp_complete _ _ _ _ _ _ _ H1 x sz) as [d Hin]; try done.
    exists d. apply elem_of_app. by left.
  - destruct (proj2 (want_transfer_spec c us (m_disks w) ri))
      as (x & Hx & Hw & Hk); [done|]. subst ri.
    destruct (plp_complete _ _ _ _ _ _ _ H2 x sz) as [d Hin]; try done.
    exists d. apply elem_of_app. right.
    by rewrite <- (plp_base _ _ _ _ _ _ _ H1).
Qed.

Lemma prepare_skipped (c : configuration) us w w' evs ri :
  prepare_post c us w w' evs →
  m_disks w !! ri = None →
  assigned_outside_sentinel c us ri ∨ transfer_target c us ri →
  regions c !! ri = None →
  EvLog ERROR MsgLogicError ∈ evs.
Proof.
  intros (w1 & e1 & e2 & -> & H1 & H2) Hd [Ha|Ht] Hsz.
  - destruct (proj2 (want_entity_spec c us (m_disks w) ri))
      as (x & Hx & Hw & Hk); [done|]. subst ri.
    apply elem_of_app. left. by eapply (plp_skipped _ _ _ _ _ _ _ H1 x).
  - destruct (proj2 (want_transfer_spec c us (m_disks w) ri))
      as (x & Hx & Hw & Hk); [done|]. subst ri.
    apply elem_of_app. right. by eapply (plp_skipped _ _ _ _ _ _ _ H2 x).
Qed.

(** The map after [prepare]: old entries stay, and a region that was not
    hosted gets the disk of the first creation made for it. *)
Lemma prepare_disks (c : configuration) us w w' evs ri :
  prepare_post c us w w' evs →
  m_disks w' !! ri =
    match m_disks w !! ri with
    | Some d => Some d
    | None => first_create ri evs
    end.
Proof.
  intros (w1 & e1 & e2 & -> & H1 & H2).
  rewrite (plp_disks _ _ _ _ _ _ _ H2), (plp_disks _ _ _ _ _ _ _ H1).
  rewrite first_create_app. by destruct (m_disks w !! ri).
Qed.
End prepare_claims.

(** X19. What [prepare] creates.  [prepare] calls [disk::create] for
    exactly the regions that are not yet hosted, are listed in the
    column-count table, and are either the region of an entity outside the
    sentinel space that is assigned to [us] or the target of a transfer to
    [us].  Each call passes the region's path, the hasher of the region's
    subspace and the column count as [create_disk] receives it, a
    [uint16_t]: the table's count modulo 2^16.  Hosted regions keep their
    disk, a region that becomes hosted gets a disk created that way, and a
    wanted region that the table lacks is skipped with an error logged. *)
Theorem prepare_creates_exactly `{HD : Hyperdisk}
    (c : configuration) (us : instance) (w : world) :
  let w' := run_state (prepare c us) w in
  let evs := run_events (prepare c us) w in
  let wanted ri := assigned_outside_sentinel c us ri ∨ transfer_target c us ri in
  (∀ ri path h n d, EvCreate ri path h n d ∈ evs →
     m_disks w !! ri = None ∧ wanted ri ∧
     ∃ sz, regions c !! ri = Some sz ∧
           path = region_path (m_base w) ri ∧
           h = disk_hasher c (region_subspace ri) ∧
           n = sz mod UINT16_MODULUS ∧
           heap w' d = disk_create path h n) ∧
  (∀ ri sz, m_disks w !! ri = None → wanted ri → regions c !! ri = Some sz →
     ∃ d, EvCreate ri (region_path (m_base w) ri)
            (disk_hasher c (region_subspace ri)) (sz mod UINT16_MODULUS) d
          ∈ evs) ∧
  (∀ ri, is_Some (m_disks w' !! ri)
         ↔ is_Some (m_disks w !! ri) ∨ (wanted ri ∧ is_Some (regions c !! ri))) ∧
  (∀ ri d, m_disks w !! ri = Some d → m_disks w' !! ri = Some d) ∧
  (∀ ri d, m_disks w !! ri = None → m_disks w' !! ri = Some d →
     ∃ path h n, EvCreate ri path h n d ∈ evs) ∧
  (∀ ri, m_disks w !! ri = None → wanted ri → regions c !! ri = None →
     EvLog ERROR MsgLogicError ∈ evs ∧ m_disks w' !! ri = None).
Proof.
  intros w' evs wanted.
  pose proof (prepare_run c us w) as Hrun. fold w' evs in Hrun.
  assert (∀ ri path h n d, EvCreate ri path h n d ∈ evs →
     m_disks w !! ri = None ∧ wanted ri ∧
     ∃ sz, regions c !! ri = Some sz ∧
           path = region_path (m_base w) ri ∧
           h = disk_hasher c (region_subspace ri) ∧
           n = sz mod UINT16_MODULUS ∧
           heap w' d = disk_create path h n) as Hsound.
  { intros ri path h n d Hin.
    destruct (prepare_create_sound c us w w' evs ri path h n d Hrun Hin)
      as (Hd & Hw & (sz & Hsz & Heq) & Hh & _).
    split_and!; [done..|].
    injection Heq as -> -> ->. by exists sz. }
  split_and!.
  - exact Hsound.
  - intros ri sz Hd Hw Hsz.
    apply (prepare_create_complete c us w w' evs ri sz Hrun Hd Hw Hsz).
  - intros ri. rewrite (prepare_disks c us w w' evs ri Hrun).
    destruct (m_disks w !! ri) as [d|] eqn:Hd.
    { split; [by left|by eauto]. }
    split.
    + intros [d (path & h & n & Hin)%first_create_Some]. right.
      destruct (Hsound ri path h n d Hin) as (_ & Hw & sz & Hsz & _).
      split; [done|by eauto].
    + intros [[? [=]]|[Hw [sz Hsz]]].
      destruct (prepare_create_complete c us w w' evs ri sz Hrun Hd Hw Hsz)
        as [d Hin].
      destruct (first_create ri evs) eqn:Hf; [by eauto|].
      exfalso. by eapply first_create_None.
  - intros ri d Hd. by rewrite (prepare_disks c us w w' evs ri Hrun), Hd.
  - intros ri d Hd. rewrite (prepare_disks c us w w' evs ri Hrun), Hd.
    apply first_create_Some.
  - intros ri Hd Hw Hsz. split.
    + apply (prepare_skipped c us w w' evs ri Hrun Hd Hw Hsz).
    + rewrite (prepare_disks c us w w' evs ri Hrun), Hd.
      apply first_create_None. intros path h n d Hin.
      destruct (Hsound ri path h n d Hin) as (_ & _ & sz & ? & _). congruence.
Qed.

Example prepare_wide_example :
  run_events (prepare config_wide self) scripted_init =
  [EvLog INFO (MsgCreating region_a 0);
   @EvCreate scripted region_a [region_a] [] 0 0].
Proof. vm_compute. reflexivity. Qed.

(** C2. The column count of the table does not always reach the disk.
    [config_wide] lists [region_a] with 65536 columns and assigns it to
    [self], which does not host it yet; [prepare] then creates the disk of
    [region_a] with 0 columns, because [create_disk] takes the count as a
    [uint16_t]. *)
Theorem prepare_narrows_column_count :
  regions config_wide !! region_a = Some 65536 ∧
  entity_mapping config_wide !! mk_entityid region_a 0 = Some self ∧
  m_disks scripted_init !! region_a = None ∧
  run_events (prepare config_wide self) scripted_init =
    [EvLog INFO (MsgCreating region_a 0);
     @EvCreate scripted region_a [region_a] [] 0 0] ∧
  m_disks (run_state (prepare config_wide self) scripted_init) !! region_a
    = Some 0.
Proof. split_and!; vm_compute; reflexivity. Qed.

(** With a table count of 65536 the disk is not created with the count
    of the table. *)
Lemma prepare_column_count_not_from_table :
  ¬ (∀ (c : @configuration scripted) us w ri path h n d,
       @EvCreate scripted ri path h n d ∈ run_events (prepare c us) w →
       regions c !! ri = Some n).
Proof.
  intros Hclaim.
  specialize (Hclaim config_wide self scripted_init region_a [region_a] [] 0 0).
  rewrite prepare_wide_example in Hclaim.
  assert (regions config_wide !! region_a = Some 65536) as Hsz
    by (vm_compute; reflexivity).
  rewrite Hsz in Hclaim.
  assert (Some 65536 = Some 0) as Habs; [|discriminate Habs].
  apply Hclaim. right. left.
Qed.

(** C4. A second [prepare] with the same configuration and the same
    instance leaves the map as the first one left it and makes no call to
    [disk::create]. *)
Theorem prepare_idempotent `{HD : Hyperdisk}
    (c : configuration) (us : instance) (w : world) :
  let w1 := run_state (prepare c us) w in
  let w2 := run_state (prepare c us) w1 in
  let evs2 := run_events (prepare c us) w1 in
  m_disks w2 = m_disks w1 ∧
  ∀ ri path h n d, EvCreate ri path h n d ∉ evs2.
Proof.
  intros w1 w2 evs2.
  pose proof (prepare_run c us w) as H1. fold w1 in H1.
  pose proof (prepare_run c us w1) as H2. fold w2 evs2 in H2.
  assert (∀ ri path h n d, EvCreate ri path h n d ∉ evs2) as Hnone.
  { intros ri path h n d Hin.
    destruct (prepare_create_sound c us w1 w2 evs2 ri path h n d H2 Hin)
      as (Hd1 & Hw & (sz & Hsz & _) & _).
    rewrite (prepare_disks c us w w1 _ ri H1) in Hd1.
    destruct (m_disks w !! ri) eqn:Hd; [done|].
    destruct (prepare_create_complete c us w w1 _ ri sz H1 Hd Hw Hsz)
      as [d' Hin'].
    by eapply first_create_None. }
  split; [|done].
  apply map_eq. intros ri.
  rewrite (prepare_disks c us w1 w2 evs2 ri H2).
  destruct (m_disks w1 !! ri); [done|].
  by apply first_create_None.
Qed.

Example prepare_two_replicas_example :
  prepare config_two_replicas self scripted_init =
  (tt,
   set_disks (HD := scripted) {[ region_a := 0 ]}
     (set_next_ptr (HD := scripted) 2
        (set_heap (HD := scripted) (<[1 := []]> (<[0 := []]> (λ _, [])))
           scripted_init)),
   [EvLog INFO (MsgCreating region_a 3);
    @EvCreate scripted region_a [region_a] [] 3 0;
    EvLog INFO (MsgCreating region_a 3);
    @EvCreate scripted region_a [region_a] [] 3 1]).
Proof. vm_compute. reflexivity. Qed.

Example prepare_replica_and_transfer_example :
  run_events (prepare config_replica_and_transfer self) scripted_init =
  [EvLog INFO (MsgCreating region_a 3);
   @EvCreate scripted region_a [region_a] [] 3 0;
   EvLog INFO (MsgCreating region_a 3);
   @EvCreate scripted region_a [region_a] [] 3 1].
Proof. vm_compute. reflexivity. Qed.


(** ** The rotation of a round-robin queue *)

Section rotation_facts.
Context `{HD : Hyperdisk}.
Variable queue : world → list regionid.
Variable set_queue : list regionid → world → world.
Variable op : disk → returncode * disk.
Variable ev : regionid → disk_ptr → returncode → event.
Variable failed : logmsg.
Hypothesis queue_set_queue : ∀ q w, queue (set_queue q w) = q.
Hypothesis queue_set_heap : ∀ h w, queue (set_heap h w) = queue w.

Lemma wp_rotate_loop fuel disks i sleep w :
  wp (rotate_loop queue set_queue op ev failed fuel disks i sleep) w
    (λ sleep' w' evs, ∃ k attempts,
       rotate_post queue set_queue ev failed fuel disks i sleep w sleep' w' evs k attempts).
Proof.
  revert i w. induction fuel as [|fuel IH]; intros i w.
  { apply wp_ret. exists 0%nat, []. split; simpl; try done; try lia.
    by rewrite drop_0, app_nil_r. }
  cbn [rotate_loop]. apply wp_bind, wp_gets.
  case_bool_decide as Hi.
  2:{ apply wp_ret. exists 0%nat, []. split; simpl; try done; try lia.
      by rewrite drop_0, app_nil_r. }
  destruct (queue w) as [|front rest] eqn:Hq; [simpl in Hi; lia|].
  apply wp_bind, wp_modify.
  destruct (disks !! front) as [d|] eqn:Hfront.
  - apply wp_bind, wp_call, wp_bind, wp_emit.
    set (r := (op (heap (set_queue (rest ++ [front]) w) d)).1).
    set (w2 := set_heap _ (set_queue (rest ++ [front]) w)).
    assert (queue w2 = rest ++ [front]) as Hq2.
    { unfold w2. by rewrite queue_set_heap, queue_set_queue. }
    assert (∀ {X} (f : world → X),
      (∀ q w, f (set_queue q w) = f w) → (∀ h w, f (set_heap h w) = f w) →
      f w2 = f w) as Hframe2.
    { intros X f Hf1 Hf2. unfold w2. by rewrite Hf2, Hf1. }
    assert (wp (rotate_loop queue set_queue op ev failed fuel disks (S i) sleep) w2
      (λ b w3 e3, r ≠ SUCCESS → ∃ k attempts,
         rotate_post queue set_queue ev failed (S fuel) disks i sleep w b w3
           (attempt_events ev failed (front, d, r) ++ e3) k attempts)) as Hrec.
    { eapply wp_mono; [apply IH|].
      intros b w3 e3 (k & attempts & [Hk Hprog Hatt Hqueue Hev Hsl Hfr]) Hr.
      rewrite Hq2 in Hk, Hatt, Hqueue. rewrite length_app in Hk. simpl in Hk.
      assert (k ≤ length rest)%nat as Hkr by lia.
      rewrite take_app_le in Hatt by done.
      rewrite drop_app_le in Hqueue by done.
      exists (S k), ((front, d, r) :: attempts).
      split; rewrite ?Hq; [cbn [length] in *; lia|lia|..].
      - unfold hosted_of. simpl. rewrite Hfront. simpl. f_equal. exact Hatt.
      - rewrite Hqueue. simpl. by rewrite <- (assoc_L (++)).
      - by rewrite Hev.
      - rewrite Hsl.
        assert (SUCCESS ∈ ((front, d, r) :: attempts).*2
                ↔ SUCCESS ∈ attempts.*2) as Hiff.
        { rewrite fmap_cons, elem_of_cons. cbn [snd].
          split; [intros [?|?]; [congruence|done]|auto]. }
        by rewrite (bool_decide_ext _ _ Hiff).
      - intros X f Hf1 Hf2. rewrite (Hfr X f Hf1 Hf2). by apply Hframe2. }
    fold r. fold w2.
    destruct r eqn:Hr.
    + apply wp_ret. exists 1%nat, [(front, d, SUCCESS)].
      split; rewrite ?Hq; [cbn [length] in *; lia|lia|simpl..].
      * unfold hosted_of. simpl. by rewrite Hfront.
      * by rewrite Hq2, drop_0.
      * done.
      * done.
      * intros X f Hf1 Hf2. by apply Hframe2.
    + eapply wp_mono; [apply Hrec|]. intros b w3 e3 Hpost. simpl.
      apply Hpost. done.
    + apply wp_bind, wp_emit. eapply wp_mono; [apply Hrec|].
      intros b w3 e3 Hpost. simpl. apply Hpost. done.
    + apply wp_bind, wp_emit. eapply wp_mono; [apply Hrec|].
      intros b w3 e3 Hpost. simpl. apply Hpost. done.
    + apply wp_bind, wp_emit. eapply wp_mono; [apply Hrec|].
      intros b w3 e3 Hpost. simpl. apply Hpost. done.
    + apply wp_bind, wp_emit. eapply wp_mono; [apply Hrec|].
      intros b w3 e3 Hpost. simpl. apply Hpost. done.
  - eapply wp_mono; [apply IH|].
    intros b w3 e3 (k & attempts & [Hk Hprog Hatt Hqueue Hev Hsl Hfr]).
    rewrite queue_set_queue in Hk, Hatt, Hqueue.
    exists (S k), attempts.
    split; rewrite ?Hq; [cbn [length] in *; lia|lia|simpl..].
    + unfold hosted_of. simpl. rewrite Hfront. simpl. done.
    + done.
    + done.
    + done.
    + intros X f Hf1 Hf2. rewrite (Hfr X f Hf1 Hf2). by rewrite Hf1.
Qed.

Lemma elem_of_hosted_of disks q r d :
  (r, d) ∈ hosted_of disks q ↔ r ∈ q ∧ disks !! r = Some d.
Proof.
  unfold hosted_of. rewrite list_elem_of_omap. split.
  - intros (r' & Hr' & Heq). destruct (disks !! r') eqn:E; [|done].
    simpl in Heq. injection Heq as -> ->. done.
  - intros [Hr Hd]. exists r. split; [done|]. by rewrite Hd.
Qed.

Lemma hosted_of_keys disks q :
  (hosted_of disks q).*1 = filter (λ r, is_Some (disks !! r)) q.
Proof.
  induction q as [|r q IH]; [done|].
  change (hosted_of disks (r :: q)) with
    (match pair r <$> disks !! r with
     | Some y => y :: hosted_of disks q
     | None => hosted_of disks q
     end).
  destruct (disks !! r) eqn:E.
  - rewrite filter_cons_True by (rewrite E; eauto). simpl. f_equal. exact IH.
  - rewrite filter_cons_False by (rewrite E; by intros [? ?]). exact IH.
Qed.

(** Every hosted region among the first [k] entries had its disk called. *)
Lemma rotate_post_attempted fuel disks i sleep w sleep' w' evs k attempts r d :
  rotate_post queue set_queue ev failed fuel disks i sleep w sleep' w' evs k attempts →
  r ∈ take k (queue w) → disks !! r = Some d →
  ∃ code, ev r d code ∈ evs.
Proof.
  intros Hpost Hr Hd.
  assert ((r, d) ∈ attempts.*1) as Hin.
  { rewrite (rp_attempts _ _ _ _ _ _ _ _ _ _ _ _ _ _ Hpost). by apply elem_of_hosted_of. }
  apply list_elem_of_fmap in Hin as ([[r' d'] code] & [= <- <-] & Hin).
  exists code. rewrite (rp_events _ _ _ _ _ _ _ _ _ _ _ _ _ _ Hpost).
  apply list_elem_of_bind. exists (r, d, code). split; [|done]. left.
Qed.

(** The calls of a walk are disk calls on hosted regions among the first
    [k] entries, and warnings. *)
Lemma rotate_post_events fuel disks i sleep w sleep' w' evs k attempts e :
  rotate_post queue set_queue ev failed fuel disks i sleep w sleep' w' evs k attempts →
  e ∈ evs →
  (∃ r d code, e = ev r d code ∧ r ∈ take k (queue w) ∧ disks !! r = Some d)
  ∨ e = EvLog WARNING failed.
Proof.
  intros Hpost. rewrite (rp_events _ _ _ _ _ _ _ _ _ _ _ _ _ _ Hpost).
  intros ([[r d] code] & He & Hin)%list_elem_of_bind.
  assert ((r, d) ∈ attempts.*1) as Hrd.
  { apply list_elem_of_fmap. by exists (r, d, code). }
  rewrite (rp_attempts _ _ _ _ _ _ _ _ _ _ _ _ _ _ Hpost) in Hrd.
  apply elem_of_hosted_of in Hrd as [Hr Hd].
  unfold attempt_events in He. cbn [fst snd] in He.
  apply elem_of_cons in He as [->|He]; [left; by eauto 6|].
  right. destruct code; solve [inversion He | by apply list_elem_of_singleton in He].
Qed.

(** The walk clears [sleep] only after a call that returned SUCCESS. *)
Lemma rotate_post_sleep fuel disks i sleep w sleep' w' evs k attempts :
  rotate_post queue set_queue ev failed fuel disks i sleep w sleep' w' evs k attempts →
  sleep' = sleep ∨ ∃ r d, ev r d SUCCESS ∈ evs.
Proof.
  intros Hpost. rewrite (rp_sleep _ _ _ _ _ _ _ _ _ _ _ _ _ _ Hpost).
  case_bool_decide as Hs; [|by left]. right.
  apply list_elem_of_fmap in Hs as ([[r d] code] & Hc & Hin). simpl in Hc. subst.
  exists r, d. rewrite (rp_events _ _ _ _ _ _ _ _ _ _ _ _ _ _ Hpost).
  apply list_elem_of_bind. exists (r, d, SUCCESS). split; [|done]. left.
Qed.

(** The queue after the walk, as a list of regions. *)
Lemma rotate_post_queue fuel disks i sleep w sleep' w' evs k attempts :
  rotate_post queue set_queue ev failed fuel disks i sleep w sleep' w' evs k attempts →
  queue w' = drop k (queue w)
             ++ filter (λ r, is_Some (disks !! r)) (take k (queue w)).
Proof.
  intros Hpost. rewrite (rp_queue _ _ _ _ _ _ _ _ _ _ _ _ _ _ Hpost).
  by rewrite (rp_attempts _ _ _ _ _ _ _ _ _ _ _ _ _ _ Hpost), hosted_of_keys.
Qed.

Lemma run_state_call {A} (d : disk_ptr) (o : disk → A * disk) w :
  run_state (call d o) w = after_call d o w.
Proof. unfold run_state. by rewrite call_eq. Qed.

Lemma bind_ext_at {A B} (m : M A) (f g : A → M B) w :
  f (run_value m w) (run_state m w) = g (run_value m w) (run_state m w) →
  bind m f w = bind m g w.
Proof.
  unfold bind, run_value, run_state. destruct (m w) as [[a w1] e1]. simpl.
  by intros ->.
Qed.

(** Fuel beyond the number of rounds left changes nothing. *)
Lemma rotate_loop_fuel fuel fuel' disks i sleep w :
  (length (queue w) - i ≤ fuel)%nat → (length (queue w) - i ≤ fuel')%nat →
  rotate_loop queue set_queue op ev failed fuel disks i sleep w =
  rotate_loop queue set_queue op ev failed fuel' disks i sleep w.
Proof.
  revert fuel' i w. induction fuel as [|fuel IH]; intros fuel' i w Hf Hf'.
  - destruct fuel' as [|fuel']; [done|]. cbn [rotate_loop].
    unfold bind at 1, gets at 1. cbn [fst snd].
    rewrite bool_decide_eq_false_2 by lia. done.
  - destruct fuel' as [|fuel'].
    { cbn [rotate_loop]. unfold bind at 1, gets at 1.
      rewrite bool_decide_eq_false_2 by lia. done. }
    cbn [rotate_loop]. apply bind_ext_at.
    unfold run_value, run_state, gets. cbn [fst snd].
    case_bool_decide as Hi; [|done].
    destruct (queue w) as [|front rest] eqn:Hq; [done|].
    cbn [length] in *.
    apply bind_ext_at. unfold run_value, run_state, modify. cbn [fst snd].
    destruct (disks !! front) as [d|] eqn:Hfront.
    + apply bind_ext_at. rewrite run_state_call.
      set (r := run_value (call d op) _).
      assert (∀ w2, queue w2 = rest ++ [front] →
        rotate_loop queue set_queue op ev failed fuel disks (S i) sleep w2 =
        rotate_loop queue set_queue op ev failed fuel' disks (S i) sleep w2)
        as Hrec.
      { intros w2 Hq2. apply IH; rewrite Hq2, length_app; simpl; lia. }
      apply bind_ext_at. unfold run_state, emit. cbn [fst snd].
      destruct r; [done|..];
        try (apply bind_ext_at; unfold run_state, emit; cbn [fst snd]);
        apply Hrec; unfold after_call;
        by rewrite queue_set_heap, queue_set_queue.
    + apply IH; rewrite queue_set_queue; lia.
Qed.
End rotation_facts.

(** ** One round of [flush_loop] *)

Section flush_loop_facts.
Context `{HD : Hyperdisk}.

Lemma observe_prefix keys q : ∃ new, observe keys q = q ++ new.
Proof.
  revert q. induction keys as [|r keys IH]; intros q; simpl.
  { exists []. by rewrite app_nil_r. }
  case_bool_decide; [apply IH|].
  destruct (IH (q ++ [r])) as [new ->]. exists (r :: new).
  by rewrite <- (assoc_L (++)).
Qed.

Lemma elem_of_observe keys q r : r ∈ observe keys q ↔ r ∈ q ∨ r ∈ keys.
Proof.
  revert q. induction keys as [|r' keys IH]; intros q; simpl.
  { rewrite elem_of_nil. tauto. }
  rewrite elem_of_cons. case_bool_decide as Hr'; rewrite IH.
  - split; [tauto|]. intros [?|[->|?]]; auto.
  - rewrite elem_of_app, list_elem_of_singleton. tauto.
Qed.

Lemma NoDup_observe keys q : NoDup q → NoDup (observe keys q).
Proof.
  revert q. induction keys as [|r keys IH]; intros q Hq; simpl; [done|].
  case_bool_decide as Hr; apply IH; [done|].
  apply NoDup_app. split_and!; [done| |apply NoDup_singleton].
  intros x Hx ->%list_elem_of_singleton. done.
Qed.

Lemma observe_id keys q : (∀ r, r ∈ keys → r ∈ q) → observe keys q = q.
Proof.
  revert q. induction keys as [|r keys IH]; intros q Hsub; simpl; [done|].
  rewrite bool_decide_eq_true_2 by (apply Hsub; left).
  apply IH. intros r' Hr'. apply Hsub. by right.
Qed.

Lemma wp_observe_regions (disks : gmap regionid disk_ptr) w :
  wp (observe_regions disks) w (λ _ w' evs,
    let keys := (map_elements regionid_compare disks).*1 in
    evs = [] ∧
    w' = set_optimistic_rr (observe keys (m_optimistic_rr w))
           (set_preallocate_rr (observe keys (m_preallocate_rr w)) w)).
Proof.
  unfold observe_regions. cbv zeta.
  generalize (map_elements regionid_compare disks). intros l.
  eapply wp_mono.
  { apply (wp_for_each _ (λ vis w' evs,
      evs = [] ∧
      w' = set_optimistic_rr (observe vis.*1 (m_optimistic_rr w))
             (set_preallocate_rr (observe vis.*1 (m_preallocate_rr w)) w))).
    { split; [done|]. by destruct w. }
    intros vis [r d] w1 e1 [-> ->]. cbn [fst].
    apply wp_bind, wp_gets, wp_bind.
    assert (∀ q1 q2, observe (vis ++ [(r, d)]).*1 q1 =
              (if bool_decide (r ∈ observe vis.*1 q1)
               then observe vis.*1 q1 else observe vis.*1 q1 ++ [r]) ∧
            observe (vis ++ [(r, d)]).*1 q2 =
              (if bool_decide (r ∈ observe vis.*1 q2)
               then observe vis.*1 q2 else observe vis.*1 q2 ++ [r])) as Hobs.
    { intros q1 q2. unfold observe. by rewrite fmap_app, !foldl_app. }
    destruct (Hobs (m_preallocate_rr w) (m_optimistic_rr w)) as [-> ->].
    cbn [m_preallocate_rr set_optimistic_rr set_preallocate_rr].
    case_bool_decide.
    - apply wp_ret, wp_bind, wp_gets.
      cbn [m_optimistic_rr set_optimistic_rr set_preallocate_rr].
      case_bool_decide; [by apply wp_ret|by apply wp_modify].
    - apply wp_modify, wp_bind, wp_gets.
      cbn [m_optimistic_rr set_optimistic_rr set_preallocate_rr].
      case_bool_decide; [by apply wp_ret|by apply wp_modify]. }
  intros [] w' evs. done.
Qed.

(** *** The flush pass *)

Lemma wp_flush_disk (i : regionid * disk_ptr) sleep w :
  wp (flush_disk i sleep) w (λ sleep' w' evs,
    flush_block i.1 i.2 evs ∧
    (sleep' = sleep ∧ no_flush_success evs
     ∨ sleep' = false ∧ EvFlush i.1 i.2 10000 SUCCESS ∈ evs) ∧
    ∃ h, w' = set_heap h w).
Proof.
  unfold flush_disk. apply wp_bind, wp_call, wp_bind, wp_emit.
  set (w1 := set_heap _ w).
  destruct (disk_flush 10000 (heap w i.2)).1 eqn:Hret.
  - apply wp_ret. simpl. split_and!.
    + apply flush_block_plain. by left.
    + right. split; [done|]. left.
    + by eexists.
  - apply wp_ret. simpl. split_and!.
    + apply flush_block_plain. by right.
    + left. split; [done|]. intros ? ? ? [[=]|[]%elem_of_nil]%elem_of_cons.
    + by eexists.
  - apply wp_bind, wp_call, wp_bind, wp_emit, wp_bind.
    set (ioret := (disk_do_mandatory_io (heap w1 i.2)).1).
    destruct (bool_decide (ioret ≠ SUCCESS) && bool_decide (ioret ≠ DIDNOTHING))
      eqn:Hfail.
    + apply andb_true_iff in Hfail as [H1%bool_decide_eq_true H2%bool_decide_eq_true].
      apply wp_emit, wp_ret. split_and!.
      * simpl. apply flush_block_io_failed; auto.
      * left. split; [done|].
        intros ri d t. simpl. rewrite !elem_of_cons, elem_of_nil.
        intros [[=]|[[=]|[[=]|[]]]].
      * unfold w1. eexists. by destruct w.
    + apply wp_ret, wp_ret. split_and!.
      * simpl. apply flush_block_io; auto.
        apply andb_false_iff in Hfail as [H1%bool_decide_eq_false|H1%bool_decide_eq_false].
        -- left. by apply dec_stable.
        -- right. by apply dec_stable.
      * left. split; [done|].
        intros ri d t. simpl. rewrite !elem_of_cons, elem_of_nil.
        intros [[=]|[[=]|[]]].
      * unfold w1. eexists. by destruct w.
  - apply wp_bind, wp_call, wp_bind, wp_emit, wp_bind.
    set (ioret := (disk_do_mandatory_io (heap w1 i.2)).1).
    destruct (bool_decide (ioret ≠ SUCCESS) && bool_decide (ioret ≠ DIDNOTHING))
      eqn:Hfail.
    + apply andb_true_iff in Hfail as [H1%bool_decide_eq_true H2%bool_decide_eq_true].
      apply wp_emit, wp_ret. split_and!.
      * simpl. apply flush_block_io_failed; auto.
      * left. split; [done|].
        intros ri d t. simpl. rewrite !elem_of_cons, elem_of_nil.
        intros [[=]|[[=]|[[=]|[]]]].
      * unfold w1. eexists. by destruct w.
    + apply wp_ret, wp_ret. split_and!.
      * simpl. apply flush_block_io; auto.
        apply andb_false_iff in Hfail as [H1%bool_decide_eq_false|H1%bool_decide_eq_false].
        -- left. by apply dec_stable.
        -- right. by apply dec_stable.
      * left. split; [done|].
        intros ri d t. simpl. rewrite !elem_of_cons, elem_of_nil.
        intros [[=]|[[=]|[]]].
      * unfold w1. eexists. by destruct w.
  - apply wp_bind, wp_emit, wp_ret. split_and!.
    + simpl. apply flush_block_failed. by left.
    + left. split; [done|].
      intros ri d t. simpl. rewrite !elem_of_cons, elem_of_nil.
      intros [[=]|[[=]|[]]].
    + by eexists.
  - apply wp_bind, wp_emit, wp_ret. split_and!.
    + simpl. apply flush_block_failed. by right.
    + left. split; [done|].
      intros ri d t. simpl. rewrite !elem_of_cons, elem_of_nil.
      intros [[=]|[[=]|[]]].
    + by eexists.
Qed.

Lemma wp_flush_pass (disks : gmap regionid disk_ptr) sleep w :
  wp (flush_pass disks sleep) w (λ sleep' w' evs,
    (∃ blocks,
       Forall2 (λ i b, flush_block i.1 i.2 b)
         (map_elements regionid_compare disks) blocks ∧
       evs = concat blocks) ∧
    (sleep' = sleep ∧ no_flush_success evs
     ∨ sleep' = false ∧ ∃ ri d, EvFlush ri d 10000 SUCCESS ∈ evs) ∧
    ∃ h, w' = set_heap h w).
Proof.
  unfold flush_pass. generalize (map_elements regionid_compare disks).
  intros l.
  apply (wp_for_each_with flush_disk (λ vis sleep' w' evs,
    (∃ blocks,
       Forall2 (λ i b, flush_block i.1 i.2 b) vis blocks ∧
       evs = concat blocks) ∧
    (sleep' = sleep ∧ no_flush_success evs
     ∨ sleep' = false ∧ ∃ ri d, EvFlush ri d 10000 SUCCESS ∈ evs) ∧
    ∃ h, w' = set_heap h w)).
  { split_and!.
    - exists []. split; [constructor|done].
    - left. split; [done|]. intros ? ? ?. inversion 1.
    - exists (heap w). by destruct w. }
  intros vis x s1 w1 e1 ((blocks & Hblocks & ->) & Hsleep & h1 & ->).
  eapply wp_mono; [apply wp_flush_disk|].
  intros s2 w2 e2 (Hblock & Hs2 & h2 & ->). split_and!.
  - exists (blocks ++ [e2]). split.
    + apply Forall2_app; [done|]. by repeat constructor.
    + rewrite concat_app. simpl. by rewrite app_nil_r.
  - destruct Hs2 as [[-> Hno2]|[-> Hin]].
    + destruct Hsleep as [[-> Hno1]|[-> (ri & d & Hin)]].
      * left. split; [done|]. intros ri d t [?|?]%elem_of_app.
        -- by eapply Hno1.
        -- by eapply Hno2.
      * right. split; [done|]. exists ri, d. apply elem_of_app. by left.
    + right. split; [done|]. exists x.1, x.2. apply elem_of_app. by right.
  - by exists h2.
Qed.

(** *** A rotation pass, when due *)

Lemma pass_post_not_due ev failed disks q sleep :
  pass_post ev failed disks false q q sleep sleep [].
Proof.
  exists 0%nat, []. split_and!; try done; try lia.
  by rewrite drop_0, app_nil_r.
Qed.

Lemma wp_rotate (queue : world → list regionid)
    (set_queue : list regionid → world → world)
    (op : disk → returncode * disk)
    (ev : regionid → disk_ptr → returncode → event) (failed : logmsg)
    (disks : gmap regionid disk_ptr) (sleep : bool) (w : world) :
  (∀ q w, queue (set_queue q w) = q) →
  (∀ h w, queue (set_heap h w) = queue w) →
  wp (rotate queue set_queue op ev failed disks sleep) w (λ sleep' w' evs,
    pass_post ev failed disks true (queue w) (queue w') sleep sleep' evs ∧
    ∀ (X : Type) (f : world → X),
      (∀ q w, f (set_queue q w) = f w) → (∀ h w, f (set_heap h w) = f w) →
      f w' = f w).
Proof.
  intros Hqq Hqh. unfold rotate. apply wp_bind, wp_gets.
  eapply wp_mono; [by apply wp_rotate_loop|].
  intros sleep' w' evs (k & attempts & [Hk Hprog Hatt Hq Hev Hsl Hfr]).
  simpl. split; [|exact Hfr].
  exists k, attempts. split_and!; try done; try lia.
  intros _ Hne. apply Hprog; destruct (queue w); simpl; try done; lia.
Qed.

Lemma wp_preallocate_phase disks (due : bool) w :
  wp (if due then
        bind (preallocate_pass disks true) (λ sleep,
          bind e_time (λ now,
            bind (modify (set_last_preallocation now)) (λ _, ret sleep)))
      else ret true) w
    (λ sleep' w' evs,
      pass_post EvPreallocate MsgPreallocationFailed disks due
        (m_preallocate_rr w) (m_preallocate_rr w') true sleep' evs ∧
      m_optimistic_rr w' = m_optimistic_rr w ∧
      m_disks w' = m_disks w ∧
      m_shutdown w' = m_shutdown w ∧
      clock w' = clock w ∧
      ticks w' = (ticks w + if due then 1 else 0)%nat ∧
      m_last_dose_of_optimism w' = m_last_dose_of_optimism w).
Proof.
  destruct due.
  2:{ apply wp_ret. split_and!; try done; try lia. apply pass_post_not_due. }
  apply wp_bind. eapply wp_mono.
  { apply (wp_rotate m_preallocate_rr set_preallocate_rr); done. }
  intros sleep' w1 e1 [Hpost Hframe]. simpl.
  apply wp_bind, wp_e_time, wp_bind, wp_modify, wp_ret.
  rewrite !app_nil_r. cbn.
  split_and!; try done.
  - by apply (Hframe _ m_optimistic_rr).
  - by apply (Hframe _ m_disks).
  - by apply (Hframe _ m_shutdown).
  - by apply (Hframe _ clock).
  - rewrite (Hframe _ ticks) by done. lia.
  - by apply (Hframe _ m_last_dose_of_optimism).
Qed.

Lemma wp_optimistic_phase disks (due : bool) sleep w :
  wp (if due then
        bind (optimistic_pass disks sleep) (λ sleep,
          bind e_time (λ now,
            bind (modify (set_last_dose_of_optimism now)) (λ _, ret sleep)))
      else ret sleep) w
    (λ sleep' w' evs,
      pass_post EvOptimisticIO MsgOptimisticFailed disks due
        (m_optimistic_rr w) (m_optimistic_rr w') sleep sleep' evs ∧
      m_preallocate_rr w' = m_preallocate_rr w ∧
      m_disks w' = m_disks w ∧
      m_shutdown w' = m_shutdown w).
Proof.
  destruct due.
  2:{ apply wp_ret. split_and!; try done. apply pass_post_not_due. }
  apply wp_bind. eapply wp_mono.
  { apply (wp_rotate m_optimistic_rr set_optimistic_rr); done. }
  intros sleep' w1 e1 [Hpost Hframe]. simpl.
  apply wp_bind, wp_e_time, wp_bind, wp_modify, wp_ret.
  rewrite !app_nil_r. cbn.
  split_and!; try done.
  - by apply (Hframe _ m_preallocate_rr).
  - by apply (Hframe _ m_disks).
  - by apply (Hframe _ m_shutdown).
Qed.

Lemma wp_flush_loop_body w :
  wp flush_loop_body w (λ _ w' evs, round_post w w' evs).
Proof.
  unfold flush_loop_body. cbv zeta.
  apply wp_bind, wp_gets, wp_bind.
  eapply wp_mono; [apply wp_observe_regions|].
  intros [] w1 e1 [-> ->]. cbv zeta.
  apply wp_bind, wp_e_time, wp_bind, wp_gets, wp_bind.
  eapply wp_mono; [apply wp_preallocate_phase|].
  intros sleep1 w2 e_pre (Hpre & Hq2 & Hd2 & Hs2 & Hc2 & Ht2 & Hl2).
  cbn in Hpre, Hq2, Hd2, Hs2, Hc2, Ht2, Hl2. simpl.
  apply wp_bind, wp_e_time, wp_bind, wp_gets, wp_bind.
  eapply wp_mono; [apply wp_optimistic_phase|].
  intros sleep2 w3 e_opt (Hopt & Hq3 & Hd3 & Hs3).
  cbn in Hopt, Hq3, Hd3, Hs3. simpl.
  apply wp_bind. eapply wp_mono; [apply wp_flush_pass|].
  intros sleep3 w4 e_flush (Hblocks & Hsleep & h & ->). simpl.
  assert (round_post w (set_heap h w3)
            (e_pre ++ e_opt ++ e_flush ++ if sleep3 then [EvSleep 0 100] else []))
    as Hround.
  { exists e_pre, e_opt, e_flush, sleep1, sleep2, sleep3.
    split_and!.
    - done.
    - cbn. rewrite Hq3. exact Hpre.
    - cbn. unfold optimism_due, preallocation_due.
      rewrite Hl2, Hc2, Ht2, Hq2 in Hopt.
      replace (ticks w + (if half_second_elapsed (clock w (ticks w))
                               (m_last_preallocation w) then 2 else 1))%nat
        with (S (ticks w + (if half_second_elapsed (clock w (ticks w))
                               (m_last_preallocation w) then 1 else 0)))%nat
        by (destruct (half_second_elapsed _ _); lia).
      exact Hopt.
    - exact Hblocks.
    - exact Hsleep.
    - cbn. by rewrite Hd3, Hd2.
    - cbn. by rewrite Hs3, Hs2. }
  destruct sleep3.
  - apply wp_emit. exact Hround.
  - apply wp_ret. exact Hround.
Qed.

Lemma flush_loop_body_run w :
  round_post w (run_state flush_loop_body w) (run_events flush_loop_body w).
Proof. apply (wp_flush_loop_body w). Qed.
End flush_loop_facts.

Section flush_claims.
Context `{HD : Hyperdisk}.

Lemma pass_post_events ev failed disks due q q' sleep sleep' evs e :
  pass_post ev failed disks due q q' sleep sleep' evs →
  e ∈ evs →
  (∃ r d code, e = ev r d code ∧ r ∈ q ∧ disks !! r = Some d)
  ∨ e = EvLog WARNING failed.
Proof.
  intros (k & attempts & _ & _ & _ & Hatt & _ & -> & _).
  intros ([[r d] code] & He & Hin)%list_elem_of_bind.
  assert ((r, d) ∈ attempts.*1) as Hrd.
  { apply list_elem_of_fmap. by exists (r, d, code). }
  rewrite Hatt in Hrd. apply elem_of_hosted_of in Hrd as [Hr Hd].
  apply subseteq_take in Hr.
  unfold attempt_events in He. cbn [fst snd] in He.
  apply elem_of_cons in He as [->|He]; [left; by eauto 6|].
  right. destruct code;
    solve [inversion He | by apply list_elem_of_singleton in He].
Qed.

Lemma pass_post_sleep ev failed disks due q q' sleep sleep' evs :
  pass_post ev failed disks due q q' sleep sleep' evs →
  (∀ r d, ev r d SUCCESS ∉ evs) →
  sleep' = sleep.
Proof.
  intros (k & attempts & _ & _ & _ & _ & _ & -> & ->) Hno.
  case_bool_decide as Hs; [|done]. exfalso.
  apply list_elem_of_fmap in Hs as ([[r d] code] & Hc & Hin).
  simpl in Hc. subst code. apply (Hno r d).
  apply list_elem_of_bind. exists (r, d, SUCCESS). split; [|done]. left.
Qed.

Lemma flush_block_inv ri d b e :
  flush_block ri d b → e ∈ b →
  (∃ ret, e = EvFlush ri d 10000 ret) ∨
  (∃ ioret, e = EvMandatoryIO ri d ioret) ∨
  (∃ ret, e = EvLog ERROR ret).
Proof.
  destruct 1; rewrite ?elem_of_cons, elem_of_nil; intros Hin;
    repeat (destruct Hin as [->|Hin]; [by eauto|]); done.
Qed.

(** Within the block of calls of one disk, [do_mandatory_io] is called
    exactly when [flush] returned DATAFULL or SEARCHFULL, and its failure
    is logged as an error. *)
Lemma flush_block_mandatory ri d b :
  flush_block ri d b →
  ∃ ret, EvFlush ri d 10000 ret ∈ b ∧
    (∀ ret', EvFlush ri d 10000 ret' ∈ b → ret' = ret) ∧
    ((ret = DATAFULL ∨ ret = SEARCHFULL) ↔ ∃ ioret, EvMandatoryIO ri d ioret ∈ b) ∧
    (∀ ioret, EvMandatoryIO ri d ioret ∈ b →
       ioret ≠ SUCCESS → ioret ≠ DIDNOTHING →
       EvLog ERROR (MsgDiskIOReturned ioret) ∈ b).
Proof.
  destruct 1 as [ret Hret|ret ioret Hret Hio|ret ioret Hret Hio1 Hio2|ret Hret];
    exists ret.
  - split; [|split; [|split]].
    + left.
    + intros ret'. rewrite !elem_of_cons, elem_of_nil.
      intros [[= ->]|[]]. done.
    + split.
      * intros [->| ->]; by destruct Hret.
      * intros [io Hin]. revert Hin. rewrite !elem_of_cons, elem_of_nil.
        by intros [[=]|[]].
    + intros io. rewrite !elem_of_cons, elem_of_nil. by intros [[=]|[]].
  - split; [|split; [|split]].
    + left.
    + intros ret'. rewrite !elem_of_cons, elem_of_nil.
      intros [[= ->]|[[=]|[]]]. done.
    + split; [|done]. intros _. exists ioret. right. left.
    + intros io. rewrite !elem_of_cons, elem_of_nil.
      intros [[=]|[[= ->]|[]]]. by destruct Hio.
  - split; [|split; [|split]].
    + left.
    + intros ret'. rewrite !elem_of_cons, elem_of_nil.
      intros [[= ->]|[[=]|[[=]|[]]]]. done.
    + split; [|done]. intros _. exists ioret. right. left.
    + intros io. rewrite !elem_of_cons, elem_of_nil.
      intros [[=]|[[= ->]|[[=]|[]]]] _ _. right. right. by left.
  - split; [|split; [|split]].
    + left.
    + intros ret'. rewrite !elem_of_cons, elem_of_nil.
      intros [[= ->]|[[=]|[]]]. done.
    + split.
      * intros [->| ->]; by destruct Hret.
      * intros [io Hin]. revert Hin. rewrite !elem_of_cons, elem_of_nil.
        by intros [[=]|[[=]|[]]].
    + intros io. rewrite !elem_of_cons, elem_of_nil.
      by intros [[=]|[[=]|[]]].
Qed.

(** C10. A round in which no [preallocate], [do_optimistic_io] or
    [flush] call returned SUCCESS ends with the 100 ms sleep, whatever
    [do_mandatory_io] returned. *)
Theorem mandatory_io_success_still_sleeps (w : world) :
  let evs := run_events flush_loop_body w in
  (∀ ri d, EvPreallocate ri d SUCCESS ∉ evs) →
  (∀ ri d, EvOptimisticIO ri d SUCCESS ∉ evs) →
  (∀ ri d t, EvFlush ri d t SUCCESS ∉ evs) →
  last evs = Some (EvSleep 0 100).
Proof.
  intros evs Hpre Hopt Hflush.
  destruct (flush_loop_body_run w)
    as (e_pre & e_opt & e_flush & s1 & s2 & s3 & Hevs & Hp & Ho & _ & Hs & _).
  fold evs in Hevs.
  assert (s1 = true) as ->.
  { apply (pass_post_sleep _ _ _ _ _ _ _ _ _ Hp).
    intros r d Hin. apply (Hpre r d). rewrite Hevs, elem_of_app. by left. }
  assert (s2 = true) as ->.
  { apply (pass_post_sleep _ _ _ _ _ _ _ _ _ Ho).
    intros r d Hin. apply (Hopt r d). rewrite Hevs, !elem_of_app. auto. }
  destruct Hs as [[-> _]|[_ (ri & d & Hin)]].
  - rewrite Hevs, !(assoc_L (++)). apply last_snoc.
  - exfalso. apply (Hflush ri d 10000). rewrite Hevs, !elem_of_app. auto.
Qed.
End flush_claims.

Example full_disk_round :
  run_events flush_loop_body hosting_full_disk =
  [@EvPreallocate scripted region_a 0 DIDNOTHING;
   EvOptimisticIO region_a 0 DIDNOTHING;
   EvFlush region_a 0 10000 DATAFULL;
   EvMandatoryIO region_a 0 SUCCESS;
   EvSleep 0 100].
Proof. vm_compute. reflexivity. Qed.

Lemma mandatory_io_success_still_sleeps_witness :
  let evs := run_events flush_loop_body hosting_full_disk in
  ((∀ ri d, EvPreallocate ri d SUCCESS ∉ evs) ∧
   (∀ ri d, EvOptimisticIO ri d SUCCESS ∉ evs) ∧
   (∀ ri d t, EvFlush ri d t SUCCESS ∉ evs)) ∧
  EvMandatoryIO region_a 0 SUCCESS ∈ evs ∧
  last evs = Some (EvSleep 0 100).
Proof.
  assert (∀ e, e ∈ run_events flush_loop_body hosting_full_disk →
            e = EvPreallocate region_a 0 DIDNOTHING ∨
            e = EvOptimisticIO region_a 0 DIDNOTHING ∨
            e = EvFlush region_a 0 10000 DATAFULL ∨
            e = EvMandatoryIO region_a 0 SUCCESS ∨
            e = EvSleep 0 100) as Hevs.
  { intros e. rewrite full_disk_round, !elem_of_cons, elem_of_nil. tauto. }
  assert (∀ ri d, EvPreallocate ri d SUCCESS
            ∉ run_events flush_loop_body hosting_full_disk) as H1.
  { intros ri d [?|[?|[?|[?|?]]]]%Hevs; discriminate. }
  assert (∀ ri d, EvOptimisticIO ri d SUCCESS
            ∉ run_events flush_loop_body hosting_full_disk) as H2.
  { intros ri d [?|[?|[?|[?|?]]]]%Hevs; discriminate. }
  assert (∀ ri d t, EvFlush ri d t SUCCESS
            ∉ run_events flush_loop_body hosting_full_disk) as H3.
  { intros ri d t [?|[?|[?|[?|?]]]]%Hevs; discriminate. }
  split; [by split_and!|]. split.
  - rewrite full_disk_round. do 3 right. left.
  - exact (mandatory_io_success_still_sleeps hosting_full_disk H1 H2 H3).
Defined.

(** ** Fairness of the preallocation schedule *)

Section fairness.
Context `{HD : Hyperdisk}.

Lemma elem_of_concat {A} (x : A) (ls : list (list A)) :
  x ∈ concat ls ↔ ∃ l, x ∈ l ∧ l ∈ ls.
Proof.
  rewrite list_elem_of_In, in_concat. split.
  - intros (l & ? & ?). exists l. by rewrite !list_elem_of_In.
  - intros (l & ? & ?). exists l. by rewrite <- !list_elem_of_In.
Qed.

Lemma elem_of_region_keys disks ri : ri ∈ region_keys disks ↔ ri ∈ dom disks.
Proof.
  unfold region_keys.
  by rewrite (elem_of_map_elements_keys regionid_compare), elem_of_dom.
Qed.

(** The preallocation queue after a round: the queue as extended by the
    regions of the snapshot, minus the [k] entries the pass took off the
    front, plus those of them that the snapshot holds.  Only they had
    [preallocate] called. *)
Lemma round_preallocation (w : world) :
  let q := observe (region_keys (m_disks w)) (m_preallocate_rr w) in
  ∃ k : nat,
    (k ≤ length q)%nat ∧
    (preallocation_due w = false → k = 0%nat) ∧
    (preallocation_due w = true → q ≠ [] → (1 ≤ k)%nat) ∧
    m_preallocate_rr (run_state flush_loop_body w) =
      drop k q ++ filter (λ r, is_Some (m_disks w !! r)) (take k q) ∧
    (∀ ri d, ri ∈ take k q → m_disks w !! ri = Some d →
       ∃ code, EvPreallocate ri d code ∈ run_events flush_loop_body w) ∧
    (∀ ri d code, EvPreallocate ri d code ∈ run_events flush_loop_body w →
       ri ∈ take k q ∧ m_disks w !! ri = Some d).
Proof.
  intros q.
  destruct (flush_loop_body_run w)
    as (e_pre & e_opt & e_flush & s1 & s2 & s3 & Hevs & Hpre & Hopt &
        (blocks & Hblocks & ->) & _).
  pose proof Hopt as Hopt'.
  destruct Hpre as (k & attempts & Hk & Hprog & Hnot & Hatt & Hq & He & _).
  fold (region_keys (m_disks w)) in Hk, Hprog, Hatt, Hq. fold q in Hk, Hprog, Hatt, Hq.
  exists k. split_and!; try done.
  - by rewrite Hq, Hatt, hosted_of_keys.
  - intros ri d Hri Hd.
    assert ((ri, d) ∈ attempts.*1) as Hin.
    { rewrite Hatt. by apply elem_of_hosted_of. }
    apply list_elem_of_fmap in Hin as ([[r' d'] code] & [= <- <-] & Hin).
    exists code. rewrite Hevs, elem_of_app. left. rewrite He.
    apply list_elem_of_bind. exists (ri, d, code). split; [|done]. left.
  - intros ri d code. rewrite Hevs, !elem_of_app.
    intros [Hin|[Hin|[Hin|Hin]]].
    + rewrite He in Hin.
      apply list_elem_of_bind in Hin as ([[r' d'] code'] & Hin & Ha).
      assert ((r', d') ∈ attempts.*1) as Hrd.
      { apply list_elem_of_fmap. by exists (r', d', code'). }
      rewrite Hatt in Hrd. apply elem_of_hosted_of in Hrd.
      unfold attempt_events in Hin. cbn [fst snd] in Hin.
      apply elem_of_cons in Hin as [[= -> -> ->]|Hin]; [done|].
      destruct code'; solve [inversion Hin
        | by apply list_elem_of_singleton in Hin].
    + by destruct (pass_post_events _ _ _ _ _ _ _ _ _ _ Hopt' Hin)
        as [(? & ? & ? & ? & _)|?].
    + apply elem_of_concat in Hin as (b & Hin & Hb).
      apply list_elem_of_lookup in Hb as [j Hb].
      destruct (Forall2_lookup_r _ _ _ _ _ Hblocks Hb) as (i & _ & Hfb).
      by destruct (flush_block_inv _ _ _ _ Hfb Hin)
        as [[? ?]|[[? ?]|[? ?]]].
    + destruct s3; [|inversion Hin].
      by apply list_elem_of_singleton in Hin.
Qed.

(** A round that does not run the preallocation pass leaves a queue that
    holds every hosted region as it is. *)
Lemma round_not_due_keeps_queue (w : world) :
  preallocation_due w = false →
  (∀ ri, ri ∈ dom (m_disks w) → ri ∈ m_preallocate_rr w) →
  m_preallocate_rr (run_state flush_loop_body w) = m_preallocate_rr w.
Proof.
  intros Hdue Hsub.
  destruct (round_preallocation w) as (k & _ & Hk & _ & -> & _).
  rewrite (Hk Hdue), drop_0. simpl. rewrite app_nil_r.
  apply observe_id. intros ri. rewrite elem_of_region_keys. apply Hsub.
Qed.

Lemma windows_hosted hosted w traces :
  preallocation_windows hosted w traces → dom (m_disks w) = hosted.
Proof. by destruct 1. Qed.

Lemma fairness_by_position hosted w traces :
  preallocation_windows hosted w traces →
  ∀ (j : nat) ri,
    observe (region_keys (m_disks w)) (m_preallocate_rr w) !! j = Some ri →
    ri ∈ hosted → (j < length traces)%nat →
    ∃ evs d code, evs ∈ traces ∧ EvPreallocate ri d code ∈ evs.
Proof.
  induction 1 as [w Hdom|w w_next traces Hdom Hdue Hnext Hrest IH];
    intros j ri Hj Hri Hlen; [simpl in Hlen; lia|].
  destruct (round_preallocation w) as (k & Hk & _ & Hprog & Hq & Hatt & _).
  set (q := observe (region_keys (m_disks w)) (m_preallocate_rr w)) in *.
  assert (1 ≤ k)%nat as Hk1.
  { apply Hprog; [done|]. intros Hnil. by rewrite Hnil in Hj. }
  destruct (decide (j < k)%nat) as [Hjk|Hjk].
  - assert (ri ∈ dom (m_disks w)) as [d Hd]%elem_of_dom by by rewrite Hdom.
    destruct (Hatt ri d) as [code Hcode]; [|done|].
    { apply elem_of_take. eauto. }
    exists (run_events flush_loop_body w), d, code. split; [left|done].
  - destruct (IH (j - k)%nat ri) as (evs & d & code & Hin & Hev);
      [|done|simpl in Hlen; lia|].
    + destruct (observe_prefix (region_keys (m_disks w_next))
                  (m_preallocate_rr w_next)) as [new ->].
      rewrite Hnext, Hq. apply lookup_app_l_Some, lookup_app_l_Some.
      rewrite lookup_drop. by replace (k + (j - k))%nat with j by lia.
    + exists evs, d, code. split; [by right|done].
Qed.

(** Over N consecutive preallocation windows during which the hosted
    regions do not change, every hosted region has [preallocate] called at
    least once, provided N is at least the length of the preallocation
    queue at the first window, counted after the hosted regions it lacks
    were appended (stale entries of dropped regions count too). *)
Lemma preallocation_fairness_by_queue_length (hosted : gset regionid) (w : world)
    (traces : list (list event)) :
  preallocation_windows hosted w traces →
  (length (observe (region_keys (m_disks w)) (m_preallocate_rr w))
   ≤ length traces)%nat →
  ∀ ri, ri ∈ hosted →
    ∃ evs d code, evs ∈ traces ∧ EvPreallocate ri d code ∈ evs.
Proof.
  intros Hwin Hlen ri Hri.
  assert (ri ∈ observe (region_keys (m_disks w)) (m_preallocate_rr w)) as Hin.
  { apply elem_of_observe. right. apply elem_of_region_keys.
    by rewrite (windows_hosted _ _ _ Hwin). }
  apply list_elem_of_lookup in Hin as [j Hj].
  apply (fairness_by_position hosted w traces Hwin j ri Hj Hri).
  apply lookup_lt_Some in Hj. lia.
Qed.

(** Without stale entries (and without duplicates, which [flush_loop]
    never creates) the queue is as long as the number of hosted regions. *)
Lemma observe_length_no_stale (disks : gmap regionid disk_ptr)
    (q : list regionid) :
  NoDup q → (∀ ri, ri ∈ q → ri ∈ dom disks) →
  length (observe (region_keys disks) q) = size (dom disks).
Proof.
  intros Hnd Hsub.
  assert (observe (region_keys disks) q ≡ₚ elements (dom disks)) as ->.
  { apply NoDup_Permutation.
    - by apply NoDup_observe.
    - apply NoDup_elements.
    - intros ri. rewrite elem_of_observe, elem_of_elements, elem_of_region_keys.
      split; [intros [?|?]; auto|auto]. }
  done.
Qed.
End fairness.

(** *** A region dropped between two rounds *)

Example hosting_abc_after_round_queues :
  m_preallocate_rr hosting_abc_after_round = [region_a; region_b; region_c] ∧
  m_optimistic_rr hosting_abc_after_round = [region_a; region_b; region_c].
Proof. split; vm_compute; reflexivity. Qed.

Example hosting_c_stale_state :
  m_disks hosting_c_stale = {[ region_c := 2 ]} ∧
  m_preallocate_rr hosting_c_stale = [region_a; region_b; region_c] ∧
  m_optimistic_rr hosting_c_stale = [region_a; region_b; region_c] ∧
  preallocation_due hosting_c_stale = true ∧
  optimism_due hosting_c_stale = true.
Proof. split_and!; vm_compute; reflexivity. Qed.

Example hosting_c_stale_round :
  run_events flush_loop_body hosting_c_stale =
    [@EvFlush scripted region_c 2 10000 DIDNOTHING; EvSleep 0 100] ∧
  m_disks (run_state flush_loop_body hosting_c_stale) = {[ region_c := 2 ]} ∧
  m_preallocate_rr (run_state flush_loop_body hosting_c_stale) = [region_c] ∧
  m_optimistic_rr (run_state flush_loop_body hosting_c_stale) = [region_c].
Proof. split_and!; vm_compute; reflexivity. Qed.

(** C6 as stated fails: [region_c] is the only hosted region, yet the
    one preallocation window that follows the drop of [region_a] and
    [region_b] only takes their stale entries off the queue and never
    calls [preallocate] on [region_c]. *)
Lemma preallocation_fairness_fails_with_stale_entries :
  ¬ (∀ (hosted : gset regionid) (w : @world scripted)
       (traces : list (list event)),
       preallocation_windows hosted w traces →
       (size hosted ≤ length traces)%nat →
       ∀ ri, ri ∈ hosted →
         ∃ evs d code, evs ∈ traces ∧ EvPreallocate ri d code ∈ evs).
Proof.
  intros Hclaim.
  destruct hosting_c_stale_state as (Hdisks & _ & _ & Hdue & _).
  destruct hosting_c_stale_round as (Hevs & Hdisks' & _).
  destruct (Hclaim {[ region_c ]} hosting_c_stale
              [run_events flush_loop_body hosting_c_stale])
    with (ri := region_c) as (evs & d & code & Hin & Hev).
  - apply windows_cons with (w_next := run_state flush_loop_body hosting_c_stale).
    + by rewrite Hdisks, dom_singleton_L.
    + exact Hdue.
    + done.
    + apply windows_nil. by rewrite Hdisks', dom_singleton_L.
  - by rewrite size_singleton.
  - by apply elem_of_singleton.
  - apply list_elem_of_singleton in Hin as ->. rewrite Hevs in Hev.
    revert Hev. rewrite !elem_of_cons, elem_of_nil.
    by intros [[=]|[[=]|[]]].
Qed.

Example hosting_a_round :
  m_disks hosting_a = {[ region_a := 0 ]} ∧
  m_preallocate_rr hosting_a = [] ∧
  preallocation_due hosting_a = true ∧
  m_disks (run_state flush_loop_body hosting_a) = {[ region_a := 0 ]}.
Proof. split_and!; vm_compute; reflexivity. Qed.

(** ** Stale entries of the round-robin queues *)

Section stale_entries.
Context `{HD : Hyperdisk}.

(** The optimistic queue after a round; as [round_preallocation]. *)
Lemma round_optimism (w : world) :
  let q := observe (region_keys (m_disks w)) (m_optimistic_rr w) in
  ∃ k : nat,
    (k ≤ length q)%nat ∧
    (optimism_due w = false → k = 0%nat) ∧
    (optimism_due w = true → q ≠ [] → (1 ≤ k)%nat) ∧
    m_optimistic_rr (run_state flush_loop_body w) =
      drop k q ++ filter (λ r, is_Some (m_disks w !! r)) (take k q) ∧
    (∀ ri d code, EvOptimisticIO ri d code ∈ run_events flush_loop_body w →
       ri ∈ take k q ∧ m_disks w !! ri = Some d).
Proof.
  intros q.
  destruct (flush_loop_body_run w)
    as (e_pre & e_opt & e_flush & s1 & s2 & s3 & Hevs & Hpre & Hopt &
        (blocks & Hblocks & ->) & _).
  pose proof Hpre as Hpre'.
  destruct Hopt as (k & attempts & Hk & Hprog & Hnot & Hatt & Hq & He & _).
  fold (region_keys (m_disks w)) in Hk, Hprog, Hatt, Hq.
  fold q in Hk, Hprog, Hatt, Hq.
  exists k. split_and!; try done.
  - by rewrite Hq, Hatt, hosted_of_keys.
  - intros ri d code. rewrite Hevs, !elem_of_app.
    intros [Hin|[Hin|[Hin|Hin]]].
    + by destruct (pass_post_events _ _ _ _ _ _ _ _ _ _ Hpre' Hin)
        as [(? & ? & ? & ? & _)|?].
    + rewrite He in Hin.
      apply list_elem_of_bind in Hin as ([[r' d'] code'] & Hin & Ha).
      assert ((r', d') ∈ attempts.*1) as Hrd.
      { apply list_elem_of_fmap. by exists (r', d', code'). }
      rewrite Hatt in Hrd. apply elem_of_hosted_of in Hrd.
      unfold attempt_events in Hin. cbn [fst snd] in Hin.
      apply elem_of_cons in Hin as [[= -> -> ->]|Hin]; [done|].
      destruct code'; solve [inversion Hin
        | by apply list_elem_of_singleton in Hin].
    + apply elem_of_concat in Hin as (b & Hin & Hb).
      apply list_elem_of_lookup in Hb as [j Hb].
      destruct (Forall2_lookup_r _ _ _ _ _ Hblocks Hb) as (i & _ & Hfb).
      by destruct (flush_block_inv _ _ _ _ Hfb Hin)
        as [[? ?]|[[? ?]|[? ?]]].
    + destruct s3; [|inversion Hin].
      by apply list_elem_of_singleton in Hin.
Qed.

Lemma cleanup_keeps_queues (c : configuration) (us : instance) (w : world) :
  m_preallocate_rr (run_state (cleanup c us) w) = m_preallocate_rr w ∧
  m_optimistic_rr (run_state (cleanup c us) w) = m_optimistic_rr w.
Proof.
  pose proof (wp_cleanup_loop (cleanup_keep c us (transfers_to c us))
    (map_elements regionid_compare (m_disks w)) w) as Hloop.
  assert (run_state (cleanup c us) w =
    run_state (for_each (map_elements regionid_compare (m_disks w))
      (λ d, if negb (cleanup_keep c us (transfers_to c us) d.1)
            then drop_disk d.1 else ret tt)) w) as ->.
  { unfold run_state, cleanup, bind, gets. simpl.
    by destruct (for_each _ _ w) as [[? ?] ?]. }
  by destruct Hloop as (_ & _ & _ & ? & ?).
Qed.

(** A pass that takes [k ≥ 1] entries off a queue without duplicates
    removes a stale entry that was at the front. *)
Lemma stale_front_removed (disks : gmap regionid disk_ptr)
    (q : list regionid) (k : nat) ri :
  NoDup q → head q = Some ri → disks !! ri = None → (1 ≤ k)%nat →
  ri ∉ drop k q ++ filter (λ r, is_Some (disks !! r)) (take k q).
Proof.
  intros Hnd Hhead Hstale Hk.
  destruct q as [|r rest]; [done|]. injection Hhead as ->.
  apply NoDup_cons in Hnd as [Hnin _].
  destruct k as [|k]; [lia|]. simpl.
  rewrite elem_of_app, list_elem_of_filter.
  intros [Hin|[[? Hd] _]].
  - apply Hnin. by eapply subseteq_drop.
  - by rewrite Hstale in Hd.
Qed.

(** C7 (as amended). Dropping a region does not prune the round-robin
    queues: [cleanup] leaves both as they are.  In a round, a queue is
    first extended by the hosted regions it lacks; its pass, when due,
    takes the first [k] entries off the front ([k ≥ 1] for a non-empty
    queue) and puts back only those the snapshot holds, and no disk call
    is made for a region the snapshot lacks.  So a stale entry stays
    queued while no due pass reaches it, and leaves the queue when one
    does: a stale entry at the front is gone after the next due pass. *)
Theorem stale_entries_pruned_when_visited :
  (∀ (c : configuration) (us : instance) (w : world),
     m_preallocate_rr (run_state (cleanup c us) w) = m_preallocate_rr w ∧
     m_optimistic_rr (run_state (cleanup c us) w) = m_optimistic_rr w) ∧
  (∀ w : world,
     let q := observe (region_keys (m_disks w)) (m_preallocate_rr w) in
     let q' := m_preallocate_rr (run_state flush_loop_body w) in
     (∃ k : nat,
        (k ≤ length q)%nat ∧
        (preallocation_due w = false → k = 0%nat) ∧
        (preallocation_due w = true → q ≠ [] → (1 ≤ k)%nat) ∧
        q' = drop k q ++ filter (λ r, is_Some (m_disks w !! r)) (take k q)) ∧
     (∀ ri d code, EvPreallocate ri d code ∈ run_events flush_loop_body w →
        m_disks w !! ri = Some d) ∧
     (∀ ri, preallocation_due w = true → NoDup q → head q = Some ri →
        m_disks w !! ri = None → ri ∉ q')) ∧
  (∀ w : world,
     let q := observe (region_keys (m_disks w)) (m_optimistic_rr w) in
     let q' := m_optimistic_rr (run_state flush_loop_body w) in
     (∃ k : nat,
        (k ≤ length q)%nat ∧
        (optimism_due w = false → k = 0%nat) ∧
        (optimism_due w = true → q ≠ [] → (1 ≤ k)%nat) ∧
        q' = drop k q ++ filter (λ r, is_Some (m_disks w !! r)) (take k q)) ∧
     (∀ ri d code, EvOptimisticIO ri d code ∈ run_events flush_loop_body w →
        m_disks w !! ri = Some d) ∧
     (∀ ri, optimism_due w = true → NoDup q → head q = Some ri →
        m_disks w !! ri = None → ri ∉ q')).
Proof.
  split_and!.
  - apply cleanup_keeps_queues.
  - intros w q q'.
    destruct (round_preallocation w) as (k & Hk & Hnot & Hprog & Hq & _ & Hev).
    fold q in Hk, Hprog, Hq, Hev. fold q' in Hq.
    split_and!.
    + by exists k.
    + intros ri d code Hin. by destruct (Hev ri d code Hin).
    + intros ri Hdue Hnd Hhead Hstale. rewrite Hq.
      apply stale_front_removed; try done.
      apply Hprog; [done|]. intros Hnil. by rewrite Hnil in Hhead.
  - intros w q q'.
    destruct (round_optimism w) as (k & Hk & Hnot & Hprog & Hq & Hev).
    fold q in Hk, Hprog, Hq, Hev. fold q' in Hq.
    split_and!.
    + by exists k.
    + intros ri d code Hin. by destruct (Hev ri d code Hin).
    + intros ri Hdue Hnd Hhead Hstale. rewrite Hq.
      apply stale_front_removed; try done.
      apply Hprog; [done|]. intros Hnil. by rewrite Hnil in Hhead.
Qed.
End stale_entries.

(** C7 as stated fails: [region_a] and [region_b] were queued while
    hosted and then dropped; they are still queued after the [cleanup],
    but the next round removes them from both queues. *)
Lemma stale_entries_do_not_remain :
  m_disks hosting_c_stale !! region_a = None ∧
  region_a ∈ m_preallocate_rr hosting_c_stale ∧
  region_a ∈ m_optimistic_rr hosting_c_stale ∧
  (region_a ∉ m_preallocate_rr (run_state flush_loop_body hosting_c_stale)) ∧
  (region_a ∉ m_optimistic_rr (run_state flush_loop_body hosting_c_stale)).
Proof.
  destruct hosting_c_stale_state as (Hd & Hp & Ho & _).
  destruct hosting_c_stale_round as (_ & _ & Hp' & Ho').
  rewrite Hd, Hp, Ho, Hp', Ho'.
  split_and!.
  - done.
  - left.
  - left.
  - by intros [=]%list_elem_of_singleton.
  - by intros [=]%list_elem_of_singleton.
Qed.

(** ** Fairness when no entry is stale *)

Section fairness_no_stale.
Context `{HD : Hyperdisk}.

Lemma NoDup_rotated {A} (P : A → Prop) `{∀ x, Decision (P x)}
    (q : list A) (k : nat) :
  NoDup q → NoDup (drop k q ++ filter P (take k q)).
Proof.
  intros Hnd. rewrite <- (take_drop k q) in Hnd.
  apply NoDup_app in Hnd as (Htake & Hdisj & Hdrop).
  apply NoDup_app. split_and!; [done| |by apply NoDup_filter].
  intros x Hx [_ Hx']%list_elem_of_filter. by apply (Hdisj x).
Qed.

(** [flush_loop] never puts a region twice in a queue. *)
Lemma round_keeps_NoDup (w : world) :
  (NoDup (m_preallocate_rr w) →
   NoDup (m_preallocate_rr (run_state flush_loop_body w))) ∧
  (NoDup (m_optimistic_rr w) →
   NoDup (m_optimistic_rr (run_state flush_loop_body w))).
Proof.
  split; intros Hnd.
  - destruct (round_preallocation w) as (k & _ & _ & _ & -> & _).
    by apply NoDup_rotated, NoDup_observe.
  - destruct (round_optimism w) as (k & _ & _ & _ & -> & _).
    by apply NoDup_rotated, NoDup_observe.
Qed.

End fairness_no_stale.

(** ** The segment list *)

(** C8. [add] on a list [l1] returns a new list [l2] that holds the
    entries of [l1] followed by the new entry, and leaves [l1], like every
    other list of the heap, as it was: [get_lower_bound], [get_segment] and
    the length of [l1] give the same results after the call as before. *)
Theorem segment_list_add_keeps_previous (h : gmap N segment_list.t)
    (l1 : segment_list.list_ptr) (x : N) (seg : segment_list.segment_ptr) :
  match segment_list.add l1 x seg h with
  | None => h !! l1 = None
  | Some (l2, h') =>
      l2 ≠ l1 ∧
      segment_list.entries l2 h' =
        (λ es, es ++ [(x, seg)]) <$> segment_list.entries l1 h ∧
      segment_list.length l2 h' = S <$> segment_list.length l1 h ∧
      (∀ i, segment_list.get_lower_bound l1 i h' =
            segment_list.get_lower_bound l1 i h) ∧
      (∀ i, segment_list.get_segment l1 i h' =
            segment_list.get_segment l1 i h) ∧
      segment_list.length l1 h' = segment_list.length l1 h ∧
      segment_list.entries l1 h' = segment_list.entries l1 h ∧
      (∀ l, l ≠ l2 → h' !! l = h !! l)
  end.
Proof.
  unfold segment_list.add, segment_list.entries, segment_list.length,
    segment_list.get_lower_bound, segment_list.get_segment.
  unfold segment_list.list_ptr, segment_list.segment_ptr in *.
  destruct (h !! l1) as [l|] eqn:Hl1; [|done].
  assert (fresh (dom h) ≠ l1) as Hne.
  { intros Heq. apply (is_fresh (dom h)). rewrite Heq.
    apply elem_of_dom. eauto. }
  rewrite lookup_insert_eq, !lookup_insert_ne by done. rewrite Hl1.
  split_and!; try done.
  intros l' Hl'. rewrite lookup_insert_ne; [done|congruence].
Qed.

Example segment_list_add_example :
  let h : gmap N segment_list.t := {[ 0 := segment_list.mk 1 1 [(0, 10)] ]} in
  ∃ h', segment_list.add 0 100 11 h = Some (1, h') ∧
        segment_list.entries 1 h' = Some [(0, 10); (100, 11)] ∧
        segment_list.entries 0 h' = Some [(0, 10)] ∧
        segment_list.get_lower_bound 0 0 h' = Some 0 ∧
        segment_list.get_lower_bound 1 1 h' = Some 100 ∧
        segment_list.get_segment 1 1 h' = Some 11 ∧
        segment_list.get_segment 0 1 h' = None.
Proof. eexists. split_and!; vm_compute; reflexivity. Qed.

(** * Further properties of the directory and of the scheduler *)

Section running_equations.
Context `{HD : Hyperdisk}.

Lemma run_events_bind {A B} (m : M A) (f : A → M B) w :
  run_events (bind m f) w =
  run_events m w ++ run_events (f (run_value m w)) (run_state m w).
Proof.
  unfold run_events, run_value, run_state, bind.
  destruct (m w) as [[a w1] e1]. simpl. by destruct (f a w1) as [[b w2] e2].
Qed.

Lemma run_state_bind {A B} (m : M A) (f : A → M B) w :
  run_state (bind m f) w = run_state (f (run_value m w)) (run_state m w).
Proof.
  unfold run_value, run_state, bind.
  destruct (m w) as [[a w1] e1]. simpl. by destruct (f a w1) as [[b w2] e2].
Qed.

Lemma run_value_bind {A B} (m : M A) (f : A → M B) w :
  run_value (bind m f) w = run_value (f (run_value m w)) (run_state m w).
Proof.
  unfold run_value, run_state, bind.
  destruct (m w) as [[a w1] e1]. simpl. by destruct (f a w1) as [[b w2] e2].
Qed.
End running_equations.

Section snapshots.
Context `{HD : Hyperdisk}.

(** X1. [make_snapshot], [make_rolling_snapshot] and [trickle] on a region
    the map does not hold return an empty result (or nothing), make no
    call and leave the state as it was; on a hosted region they call the
    region's disk ([flush] with a timeout of 1000 for [trickle], whose
    return code is dropped) and only that disk object can change. *)
Theorem snapshot_trickle_missing_or_delegate (w : world) (ri : regionid) :
  match m_disks w !! ri with
  | None =>
      make_snapshot ri w = (None, w, []) ∧
      make_rolling_snapshot ri w = (None, w, []) ∧
      trickle ri w = (tt, w, [])
  | Some d =>
      make_snapshot ri w =
        ((disk_make_snapshot (heap w d)).1,
         after_call d disk_make_snapshot w, []) ∧
      make_rolling_snapshot ri w =
        ((disk_make_rolling_snapshot (heap w d)).1,
         after_call d disk_make_rolling_snapshot w, []) ∧
      trickle ri w = (tt, after_call d (disk_flush 1000) w, [])
  end.
Proof.
  unfold make_snapshot, make_rolling_snapshot, trickle, get_region, bind, gets.
  destruct (m_disks w !! ri) as [d|] eqn:E; simpl; [|done].
  rewrite !call_eq. done.
Qed.
End snapshots.

(** ** What a round leaves alone *)

Section round_frame.
Context `{HD : Hyperdisk}.

Lemma wp_preallocate_phase_times disks (due : bool) w :
  wp (if due then
        bind (preallocate_pass disks true) (λ sleep,
          bind e_time (λ now,
            bind (modify (set_last_preallocation now)) (λ _, ret sleep)))
      else ret true) w
    (λ _ w' _,
      (∀ X (f : world → X), untouched_by_rounds f → f w' = f w) ∧
      clock w' = clock w ∧
      ticks w' = (ticks w + if due then 1 else 0)%nat ∧
      m_last_preallocation w' =
        (if due then clock w (ticks w) else m_last_preallocation w) ∧
      m_last_dose_of_optimism w' = m_last_dose_of_optimism w).
Proof.
  destruct due.
  2:{ apply wp_ret. split_and!; (done || lia). }
  apply wp_bind. eapply wp_mono.
  { apply (wp_rotate m_preallocate_rr set_preallocate_rr); done. }
  intros sleep' w1 e1 [_ Hframe]. simpl.
  apply wp_bind, wp_e_time, wp_bind, wp_modify, wp_ret.
  split_and!.
  - intros X f (Hf1 & Hf2 & Hf3 & Hf4 & Hf5 & Hf6).
    rewrite Hf3, Hf6. by apply Hframe.
  - cbn. by apply (Hframe _ clock).
  - cbn. rewrite (Hframe _ ticks) by done. lia.
  - cbn. by rewrite (Hframe _ clock), (Hframe _ ticks).
  - cbn. by apply (Hframe _ m_last_dose_of_optimism).
Qed.

Lemma wp_optimistic_phase_times disks (due : bool) sleep w :
  wp (if due then
        bind (optimistic_pass disks sleep) (λ sleep,
          bind e_time (λ now,
            bind (modify (set_last_dose_of_optimism now)) (λ _, ret sleep)))
      else ret sleep) w
    (λ _ w' _,
      (∀ X (f : world → X), untouched_by_rounds f → f w' = f w) ∧
      clock w' = clock w ∧
      ticks w' = (ticks w + if due then 1 else 0)%nat ∧
      m_last_dose_of_optimism w' =
        (if due then clock w (ticks w) else m_last_dose_of_optimism w) ∧
      m_last_preallocation w' = m_last_preallocation w).
Proof.
  destruct due.
  2:{ apply wp_ret. split_and!; (done || lia). }
  apply wp_bind. eapply wp_mono.
  { apply (wp_rotate m_optimistic_rr set_optimistic_rr); done. }
  intros sleep' w1 e1 [_ Hframe]. simpl.
  apply wp_bind, wp_e_time, wp_bind, wp_modify, wp_ret.
  split_and!.
  - intros X f (Hf1 & Hf2 & Hf3 & Hf4 & Hf5 & Hf6).
    rewrite Hf4, Hf6. by apply Hframe.
  - cbn. by apply (Hframe _ clock).
  - cbn. rewrite (Hframe _ ticks) by done. lia.
  - cbn. by rewrite (Hframe _ clock), (Hframe _ ticks).
  - cbn. by apply (Hframe _ m_last_preallocation).
Qed.

(** The clock readings and the recorded times of a round. *)
Lemma wp_flush_loop_body_times w :
  wp flush_loop_body w (λ _ w' _,
    (∀ X (f : world → X), untouched_by_rounds f → f w' = f w) ∧
    clock w' = clock w ∧
    ticks w' = (ticks w + 2 + (if preallocation_due w then 1 else 0)
                + (if optimism_due w then 1 else 0))%nat ∧
    m_last_preallocation w' =
      (if preallocation_due w then clock w (S (ticks w))
       else m_last_preallocation w) ∧
    m_last_dose_of_optimism w' =
      (if optimism_due w
       then clock w (ticks w + if preallocation_due w then 3 else 2)%nat
       else m_last_dose_of_optimism w)).
Proof.
  unfold flush_loop_body. cbv zeta.
  apply wp_bind, wp_gets, wp_bind.
  eapply wp_mono; [apply wp_observe_regions|].
  intros [] w1 e1 [-> ->]. cbv zeta.
  apply wp_bind, wp_e_time, wp_bind, wp_gets, wp_bind.
  eapply wp_mono; [apply wp_preallocate_phase_times|].
  intros sleep1 w2 e_pre (Hf2 & Hc2 & Ht2 & Hp2 & Ho2).
  cbn in Hc2, Ht2, Hp2, Ho2. simpl.
  apply wp_bind, wp_e_time, wp_bind, wp_gets, wp_bind.
  eapply wp_mono; [apply wp_optimistic_phase_times|].
  intros sleep2 w3 e_opt (Hf3 & Hc3 & Ht3 & Ho3 & Hp3).
  cbn in Hc3, Ht3, Hp3, Ho3. simpl.
  apply wp_bind. eapply wp_mono; [apply wp_flush_pass|].
  intros sleep3 w4 e_flush (_ & _ & h & ->). simpl.
  fold (preallocation_due w) in Ht2, Hp2.
  assert (half_second_elapsed (clock w2 (ticks w2))
            (m_last_dose_of_optimism w2) = optimism_due w) as Hdue.
  { unfold optimism_due. rewrite Hc2, Ht2, Ho2. f_equal. f_equal.
    destruct (preallocation_due w); lia. }
  rewrite Hdue in Ht3, Ho3.
  assert ((∀ X (f : world → X), untouched_by_rounds f →
             f (set_heap h w3) = f w) ∧
          clock (set_heap h w3) = clock w ∧
          ticks (set_heap h w3) =
            (ticks w + 2 + (if preallocation_due w then 1 else 0)
             + (if optimism_due w then 1 else 0))%nat ∧
          m_last_preallocation (set_heap h w3) =
            (if preallocation_due w then clock w (S (ticks w))
             else m_last_preallocation w) ∧
          m_last_dose_of_optimism (set_heap h w3) =
            (if optimism_due w
             then clock w (ticks w + if preallocation_due w then 3 else 2)%nat
             else m_last_dose_of_optimism w)) as Hpost.
  { split_and!.
    - intros X f Hf. pose proof Hf as (Hf1 & Hf2' & Hf3' & Hf4 & Hf5 & Hf6).
      rewrite Hf5, (Hf3 X f Hf), Hf6, (Hf2 X f Hf), Hf6, Hf2', Hf1. done.
    - cbn. by rewrite Hc3, Hc2.
    - cbn. rewrite Ht3, Ht2. lia.
    - cbn. by rewrite Hp3, Hp2.
    - cbn. rewrite Ho3, Hc2, Ht2, Ho2.
      destruct (optimism_due w); [|done]. f_equal.
      destruct (preallocation_due w); lia. }
  destruct sleep3; [apply wp_emit|apply wp_ret]; exact Hpost.
Qed.
End round_frame.

Section round_frame_claims.
Context `{HD : Hyperdisk}.

Lemma untouched_m_disks : untouched_by_rounds m_disks.
Proof. by split_and!. Qed.
Lemma untouched_m_shutdown : untouched_by_rounds m_shutdown.
Proof. by split_and!. Qed.
Lemma untouched_m_base : untouched_by_rounds m_base.
Proof. by split_and!. Qed.
Lemma untouched_next_ptr : untouched_by_rounds next_ptr.
Proof. by split_and!. Qed.

Lemma round_untouched {X} (f : world → X) w :
  untouched_by_rounds f → f (run_state flush_loop_body w) = f w.
Proof.
  intros Hf. destruct (wp_flush_loop_body_times w) as (Hframe & _).
  by apply Hframe.
Qed.

Lemma round_events_maintenance w :
  Forall maintenance_event (run_events flush_loop_body w).
Proof.
  destruct (flush_loop_body_run w)
    as (e_pre & e_opt & e_flush & s1 & s2 & s3 & -> & Hpre & Hopt &
        (blocks & Hblocks & ->) & _).
  rewrite !Forall_app. split_and!.
  - apply Forall_forall. intros e Hin.
    by destruct (pass_post_events _ _ _ _ _ _ _ _ _ _ Hpre Hin)
      as [(r & d & code & -> & _)| ->].
  - apply Forall_forall. intros e Hin.
    by destruct (pass_post_events _ _ _ _ _ _ _ _ _ _ Hopt Hin)
      as [(r & d & code & -> & _)| ->].
  - apply Forall_forall. intros e Hin.
    apply elem_of_concat in Hin as (b & Hin & Hb).
    apply list_elem_of_lookup in Hb as [j Hb].
    destruct (Forall2_lookup_r _ _ _ _ _ Hblocks Hb) as (i & _ & Hfb).
    by destruct (flush_block_inv _ _ _ _ Hfb Hin)
      as [[? ->]|[[? ->]|[? ->]]].
  - destruct s3; by repeat constructor.
Qed.

(** X2. The scheduler only maintains disks: whatever the disks answer and
    however many rounds run, [flush_loop] leaves the region map, the stop
    flag, the base path and the allocator as they were, and the only calls
    it makes are disk maintenance calls, warnings, errors and sleeps; it
    never creates or drops a disk. *)
Theorem flush_loop_leaves_directory_alone (rounds : nat) (w : world) :
  let w' := run_state (flush_loop rounds) w in
  m_disks w' = m_disks w ∧
  m_shutdown w' = m_shutdown w ∧
  m_base w' = m_base w ∧
  next_ptr w' = next_ptr w ∧
  Forall maintenance_event (run_events (flush_loop rounds) w).
Proof.
  assert (∀ n w0,
    (∀ X (f : world → X), untouched_by_rounds f →
       f (run_state (flush_loop_rounds n) w0) = f w0) ∧
    Forall maintenance_event (run_events (flush_loop_rounds n) w0)) as Hrounds.
  { induction n as [|n IH]; intros w0; [by split|].
    cbn [flush_loop_rounds].
    rewrite run_state_bind, run_events_bind.
    change (run_value (gets m_shutdown) w0) with (m_shutdown w0).
    change (run_state (gets m_shutdown) w0) with w0.
    change (run_events (gets m_shutdown) w0) with (@nil event).
    destruct (m_shutdown w0); [by split|].
    rewrite run_state_bind, run_events_bind. simpl.
    destruct (IH (run_state flush_loop_body w0)) as [Hf Hev]. split.
    - intros X f Hunt. rewrite (Hf X f Hunt). by apply round_untouched.
    - apply Forall_app. split; [apply round_events_maintenance|done]. }
  intros w'. unfold w', flush_loop.
  rewrite run_state_bind, run_events_bind.
  change (run_state (emit (EvLog WARNING MsgFlushThreadStarted)) w) with w.
  destruct (Hrounds rounds w) as [Hf Hev].
  split_and!.
  - apply (Hf _ m_disks untouched_m_disks).
  - apply (Hf _ m_shutdown untouched_m_shutdown).
  - apply (Hf _ m_base untouched_m_base).
  - apply (Hf _ next_ptr untouched_next_ptr).
  - apply Forall_app. split; [by repeat constructor|done].
Qed.

(** X3. The stop flag is only read at the top of a round.  Once
    [shutdown] (or the destructor) has set it, [flush_loop] makes no disk
    call at all; while it is clear every round runs, since no round sets
    it. *)
Theorem flush_loop_stops_after_shutdown (rounds : nat) (w : world) :
  flush_loop rounds (run_state shutdown w) =
    (tt, run_state shutdown w, [EvLog WARNING MsgFlushThreadStarted]) ∧
  flush_loop rounds (run_state datalayer_destroy w) =
    (tt, run_state datalayer_destroy w, [EvLog WARNING MsgFlushThreadStarted]) ∧
  (m_shutdown w = false →
   run_state (flush_loop_rounds rounds) w =
     Nat.iter rounds (run_state flush_loop_body) w ∧
   run_events (flush_loop_rounds rounds) w =
     concat ((λ n, run_events flush_loop_body
                     (Nat.iter n (run_state flush_loop_body) w))
             <$> seq 0 rounds)).
Proof.
  assert (∀ w0, m_shutdown w0 = true →
    flush_loop rounds w0 = (tt, w0, [EvLog WARNING MsgFlushThreadStarted]))
    as Hstop.
  { intros w0 Hw0. unfold flush_loop, bind, emit.
    destruct rounds as [|n]; [done|]. cbn [flush_loop_rounds].
    unfold bind, gets. by rewrite Hw0. }
  split_and!.
  - by apply Hstop.
  - apply Hstop. unfold datalayer_destroy.
    rewrite run_state_bind.
    change (run_value (gets m_shutdown) w) with (m_shutdown w).
    change (run_state (gets m_shutdown) w) with w.
    by destruct (m_shutdown w) eqn:E.
  - clear Hstop. revert w. induction rounds as [|n IH]; intros w Hw; [done|].
    cbn [flush_loop_rounds].
    rewrite run_state_bind, run_events_bind.
    change (run_value (gets m_shutdown) w) with (m_shutdown w).
    change (run_state (gets m_shutdown) w) with w.
    change (run_events (gets m_shutdown) w) with (@nil event).
    rewrite Hw, run_state_bind, run_events_bind.
    assert (m_shutdown (run_state flush_loop_body w) = false) as Hw'.
    { by rewrite (round_untouched m_shutdown w untouched_m_shutdown). }
    destruct (IH _ Hw') as [-> ->]. split.
    + by rewrite <- Nat.iter_succ_r.
    + cbn [seq fmap list_fmap concat app].
      f_equal. rewrite <- seq_shift, <- list_fmap_compose. f_equal.
      apply list_fmap_ext. intros _ n' _. simpl.
      by rewrite <- Nat.iter_succ_r.
Qed.

(** X4. A round reads the clock once before the test of each pass and
    once more after each pass it runs.  The reading taken after a pass
    becomes the recorded time of that pass, and the recorded time of a pass
    that did not run is left as it was. *)
Theorem round_records_pass_times (w : world) :
  let w' := run_state flush_loop_body w in
  clock w' = clock w ∧
  ticks w' = (ticks w + 2 + (if preallocation_due w then 1 else 0)
              + (if optimism_due w then 1 else 0))%nat ∧
  m_last_preallocation w' =
    (if preallocation_due w then clock w (S (ticks w))
     else m_last_preallocation w) ∧
  m_last_dose_of_optimism w' =
    (if optimism_due w
     then clock w (ticks w + if preallocation_due w then 3 else 2)%nat
     else m_last_dose_of_optimism w).
Proof.
  intros w'. by destruct (wp_flush_loop_body_times w) as (_ & ? & ? & ? & ?).
Qed.
End round_frame_claims.

Section round_sleep.
Context `{HD : Hyperdisk}.

Lemma hosted_of_empty (q : list regionid) : hosted_of ∅ q = [].
Proof.
  induction q as [|r q IH]; [done|].
  change (hosted_of ∅ (r :: q)) with
    (match pair r <$> (∅ : gmap regionid disk_ptr) !! r with
     | Some y => y :: hosted_of ∅ q
     | None => hosted_of ∅ q
     end).
  by rewrite lookup_empty.
Qed.

Lemma map_elements_empty {K} `{Countable K} {V} (cmp : K → K → comparison) :
  map_elements cmp (∅ : gmap K V) = [].
Proof.
  apply Permutation_nil_r. rewrite map_elements_perm. by rewrite map_to_list_empty.
Qed.



(** X6. With no hosted region a round makes no disk call and sleeps,
    whatever the queues hold and whatever the clock reads. *)
Theorem empty_directory_round_only_sleeps (w : world) :
  m_disks w = ∅ →
  run_events flush_loop_body w = [EvSleep 0 100] ∧
  m_disks (run_state flush_loop_body w) = ∅.
Proof.
  intros Hempty.
  destruct (flush_loop_body_run w)
    as (e_pre & e_opt & e_flush & s1 & s2 & s3 & Hevs & Hp & Ho &
        (blocks & Hblocks & Hflush) & Hs & Hd & _).
  rewrite Hempty in Hp, Ho, Hblocks.
  assert (∀ ev failed due q q' sleep sleep' evs,
    pass_post ev failed ∅ due q q' sleep sleep' evs →
    evs = [] ∧ sleep' = sleep) as Hpass.
  { intros ev failed due q q' sleep sleep' evs
      (k & attempts & _ & _ & _ & Hatt & _ & -> & ->).
    rewrite hosted_of_empty in Hatt. apply fmap_nil_inv in Hatt as ->.
    done. }
  destruct (Hpass _ _ _ _ _ _ _ _ Hp) as [-> ->].
  destruct (Hpass _ _ _ _ _ _ _ _ Ho) as [-> ->].
  rewrite (map_elements_empty regionid_compare) in Hblocks.
  apply Forall2_nil_inv_l in Hblocks as ->. simpl in Hflush. subst e_flush.
  destruct Hs as [[-> _]|[_ (? & ? & Hin)]]; [|inversion Hin].
  split; [by rewrite Hevs|by rewrite Hd].
Qed.
End round_sleep.

Lemma empty_directory_round_only_sleeps_witness :
  m_disks scripted_init = ∅ ∧
  run_events flush_loop_body scripted_init = [@EvSleep scripted 0 100] ∧
  m_disks (run_state flush_loop_body scripted_init) = ∅.
Proof.
  split; [reflexivity|].
  apply (empty_directory_round_only_sleeps scripted_init). reflexivity.
Defined.

(** ** The round-robin queues *)

Section queue_invariants.
Context `{HD : Hyperdisk}.

Lemma prepare_keeps_queues (c : configuration) (us : instance) (w : world) :
  m_preallocate_rr (run_state (prepare c us) w) = m_preallocate_rr w ∧
  m_optimistic_rr (run_state (prepare c us) w) = m_optimistic_rr w.
Proof.
  destruct (prepare_run c us w) as (w1 & e1 & e2 & _ & H1 & H2).
  rewrite (plp_preallocate_rr _ _ _ _ _ _ _ H2), (plp_optimistic_rr _ _ _ _ _ _ _ H2).
  by rewrite (plp_preallocate_rr _ _ _ _ _ _ _ H1), (plp_optimistic_rr _ _ _ _ _ _ _ H1).
Qed.

Lemma rounds_keep_NoDup (n : nat) (w : world) :
  queues_nodup w → queues_nodup (run_state (flush_loop_rounds n) w).
Proof.
  revert w. induction n as [|n IH]; intros w Hw; [done|].
  cbn [flush_loop_rounds]. rewrite run_state_bind.
  change (run_value (gets m_shutdown) w) with (m_shutdown w).
  change (run_state (gets m_shutdown) w) with w.
  destruct (m_shutdown w); [done|].
  rewrite run_state_bind. apply IH.
  destruct Hw as [Hp Ho]. destruct (round_keeps_NoDup w) as [Hp' Ho'].
  split; auto.
Qed.

(** The request methods change nothing but disk objects. *)
Lemma requests_only_touch_disks (ri : regionid) (key : buffer)
    (value : list buffer) (version : N) (w : world) :
  (∃ h, run_state (get ri key) w = set_heap h w) ∧
  (∃ h, run_state (put ri key value version) w = set_heap h w) ∧
  (∃ h, run_state (del ri key) w = set_heap h w) ∧
  (∃ h, run_state (trickle ri) w = set_heap h w).
Proof.
  assert (w = set_heap (heap w) w) as Hw by by destruct w.
  unfold run_state, get, put, del, trickle, get_region, bind, gets.
  destruct (m_disks w !! ri) as [d|]; simpl.
  - rewrite !call_eq. unfold after_call. simpl. eauto 10.
  - eauto 10.
Qed.

(** X7. The scheduler never queues a region twice: both queues are empty
    when the directory is constructed, and [prepare], [cleanup], the
    request methods and any number of rounds of [flush_loop] keep them free
    of duplicates. *)
Theorem queues_never_hold_duplicates :
  (∀ base h clk, queues_nodup (datalayer_init base h clk)) ∧
  (∀ (c : configuration) (us : instance) (w : world),
     queues_nodup w →
     queues_nodup (run_state (prepare c us) w) ∧
     queues_nodup (run_state (cleanup c us) w)) ∧
  (∀ (rounds : nat) (w : world),
     queues_nodup w → queues_nodup (run_state (flush_loop rounds) w)) ∧
  (∀ (ri : regionid) (key : buffer) (value : list buffer) (version : N)
     (w : world),
     queues_nodup w →
     queues_nodup (run_state (get ri key) w) ∧
     queues_nodup (run_state (put ri key value version) w) ∧
     queues_nodup (run_state (del ri key) w) ∧
     queues_nodup (run_state (trickle ri) w)).
Proof.
  split_and!.
  - intros base h clk. split; constructor.
  - intros c us w Hw. unfold queues_nodup.
    destruct (prepare_keeps_queues c us w) as [-> ->].
    destruct (cleanup_keeps_queues c us w) as [-> ->]. done.
  - intros rounds w Hw. unfold flush_loop. rewrite run_state_bind.
    by apply rounds_keep_NoDup.
  - intros ri key value version w Hw.
    destruct (requests_only_touch_disks ri key value version w)
      as ((h1 & ->) & (h2 & ->) & (h3 & ->) & (h4 & ->)).
    done.
Qed.
End queue_invariants.

Section queue_contents.
Context `{HD : Hyperdisk}.

Lemma rotated_elem_of (disks : gmap regionid disk_ptr) (q : list regionid)
    (k : nat) ri :
  ri ∈ drop k q ++ filter (λ r, is_Some (disks !! r)) (take k q)
  ↔ ri ∈ q ∧ (ri ∈ drop k q ∨ is_Some (disks !! ri)).
Proof.
  rewrite elem_of_app, list_elem_of_filter. split.
  - intros [Hin|[Hd Hin]].
    + split; [by eapply subseteq_drop|by left].
    + split; [by eapply subseteq_take|by right].
  - intros [Hin [Hdrop|Hd]]; [by left|].
    rewrite <- (take_drop k q) in Hin.
    apply elem_of_app in Hin as [Hin|Hin]; [by right|by left].
Qed.

Lemma rotated_all_hosted (disks : gmap regionid disk_ptr) (q : list regionid)
    (k : nat) :
  (∀ ri, ri ∈ q → is_Some (disks !! ri)) →
  drop k q ++ filter (λ r, is_Some (disks !! r)) (take k q) ≡ₚ q.
Proof.
  intros Hall.
  assert (filter (λ r, is_Some (disks !! r)) (take k q) = take k q) as ->.
  { assert (∀ ri, ri ∈ take k q → is_Some (disks !! ri)) as Hsub.
    { intros ri Hri. apply Hall. by eapply subseteq_take. }
    induction (take k q) as [|r l IH]; [done|].
    rewrite filter_cons_True by (apply Hsub; left).
    f_equal. apply IH. intros ri Hri. apply Hsub. by right. }
  rewrite (comm (++)). by rewrite take_drop.
Qed.

(** X8. After a round each queue holds every hosted region, and holds no
    region that was neither queued before nor hosted.  When no queued
    region was stale and the queue had no duplicates, the queue after the
    round is a rearrangement of the hosted regions. *)
Theorem round_queues_hold_hosted (w : world) :
  let w' := run_state flush_loop_body w in
  (∀ ri, ri ∈ dom (m_disks w) →
     ri ∈ m_preallocate_rr w' ∧ ri ∈ m_optimistic_rr w') ∧
  (∀ ri, ri ∈ m_preallocate_rr w' →
     ri ∈ m_preallocate_rr w ∨ ri ∈ dom (m_disks w)) ∧
  (∀ ri, ri ∈ m_optimistic_rr w' →
     ri ∈ m_optimistic_rr w ∨ ri ∈ dom (m_disks w)) ∧
  (NoDup (m_preallocate_rr w) →
   (∀ ri, ri ∈ m_preallocate_rr w → ri ∈ dom (m_disks w)) →
   m_preallocate_rr w' ≡ₚ elements (dom (m_disks w))) ∧
  (NoDup (m_optimistic_rr w) →
   (∀ ri, ri ∈ m_optimistic_rr w → ri ∈ dom (m_disks w)) →
   m_optimistic_rr w' ≡ₚ elements (dom (m_disks w))).
Proof.
  intros w'.
  destruct (round_preallocation w) as (kp & _ & _ & _ & Hp & _).
  destruct (round_optimism w) as (ko & _ & _ & _ & Ho & _).
  fold w' in Hp, Ho.
  assert (∀ q0, NoDup q0 → (∀ r, r ∈ q0 → r ∈ dom (m_disks w)) →
    observe (region_keys (m_disks w)) q0 ≡ₚ elements (dom (m_disks w)))
    as Hperm.
  { intros q0 Hnd Hsub. apply NoDup_Permutation.
    - by apply NoDup_observe.
    - apply NoDup_elements.
    - intros r. rewrite elem_of_observe, elem_of_elements, elem_of_region_keys.
      split; [intros [?|?]; auto|auto]. }
  split_and!.
  - intros ri Hri. rewrite Hp, Ho, !rotated_elem_of.
    apply elem_of_dom in Hri as Hsome.
    rewrite !elem_of_observe, !elem_of_region_keys. auto 10.
  - intros ri. rewrite Hp, rotated_elem_of, elem_of_observe, elem_of_region_keys.
    tauto.
  - intros ri. rewrite Ho, rotated_elem_of, elem_of_observe, elem_of_region_keys.
    tauto.
  - intros Hnd Hsub. rewrite Hp, rotated_all_hosted; [by apply Hperm|].
    intros ri. rewrite elem_of_observe, elem_of_region_keys, <- elem_of_dom.
    intros [?|?]; auto.
  - intros Hnd Hsub. rewrite Ho, rotated_all_hosted; [by apply Hperm|].
    intros ri. rewrite elem_of_observe, elem_of_region_keys, <- elem_of_dom.
    intros [?|?]; auto.
Qed.
End queue_contents.

Section pass_break.
Context `{HD : Hyperdisk}.

Lemma stops_at_nil S C : stops_at S C [].
Proof. intros pre e post Heq. destruct pre; discriminate. Qed.

Lemma stops_at_mono S C C' evs :
  (∀ e, C' e → C e) → stops_at S C evs → stops_at S C' evs.
Proof. intros HC Hstop pre e post Heq HS e' Hin HC'. by eapply Hstop; eauto. Qed.

Lemma stops_at_app_l S C l1 l2 :
  (∀ e, S e → C e) → stops_at S C l1 → (∀ e, e ∈ l2 → ¬ C e) →
  stops_at S C (l1 ++ l2).
Proof.
  intros HSC H1 H2 pre e post Heq HS e' Hin.
  apply app_eq_app in Heq as [l [[-> Heq]|[-> ->]]].
  - destruct l as [|x l]; simpl in Heq.
    + destruct (H2 e); [rewrite <- Heq; left|by apply HSC].
    + injection Heq as <- ->. apply elem_of_app in Hin as [Hin|Hin].
      * by eapply H1.
      * by apply H2.
  - destruct (H2 e); [|by apply HSC].
    apply elem_of_app. right. left.
Qed.

Lemma stops_at_app_r S C l1 l2 :
  (∀ e, e ∈ l1 → ¬ S e) → stops_at S C l2 → stops_at S C (l1 ++ l2).
Proof.
  intros H1 H2 pre e post Heq HS e' Hin.
  apply app_eq_app in Heq as [l [[-> Heq]|[-> ->]]].
  - destruct l as [|x l]; simpl in Heq.
    + by eapply (H2 []); eauto.
    + injection Heq as <- ->. destruct (H1 e); [|done].
      apply elem_of_app. right. left.
  - by eapply H2.
Qed.

Section one_queue.
Variable queue : world → list regionid.
Variable set_queue : list regionid → world → world.
Variable op : disk → returncode * disk.
Variable ev : regionid → disk_ptr → returncode → event.
Variable failed : logmsg.
Hypothesis ev_code : ∀ r d c r' d' c', ev r d c = ev r' d' c' → c = c'.
Hypothesis ev_not_log : ∀ r d c, ev r d c ≠ EvLog WARNING failed.

(** The walk leaves the loop at the first SUCCESS: nothing follows it. *)
Lemma wp_rotate_loop_break fuel disks i sleep w :
  wp (rotate_loop queue set_queue op ev failed fuel disks i sleep) w
    (λ _ _ evs, stops_at (λ e, ∃ r d, e = ev r d SUCCESS) (λ _, True) evs).
Proof.
  revert i w. induction fuel as [|fuel IH]; intros i w.
  { apply wp_ret, stops_at_nil. }
  cbn [rotate_loop]. apply wp_bind, wp_gets.
  case_bool_decide as Hi; [|apply wp_ret, stops_at_nil].
  destruct (queue w) as [|front rest] eqn:Hq; [apply wp_ret, stops_at_nil|].
  apply wp_bind, wp_modify.
  destruct (disks !! front) as [d|] eqn:Hfront.
  2:{ eapply wp_mono; [apply IH|]. intros b w3 e3 Hstop. exact Hstop. }
  apply wp_bind, wp_call, wp_bind, wp_emit.
  set (r := (op (heap (set_queue (rest ++ [front]) w) d)).1).
  set (w2 := set_heap _ (set_queue (rest ++ [front]) w)).
  assert (r ≠ SUCCESS → ∀ e3 extra,
    (∀ e, e ∈ extra → e = EvLog WARNING failed) →
    stops_at (λ e, ∃ r d, e = ev r d SUCCESS) (λ _, True) e3 →
    stops_at (λ e, ∃ r d, e = ev r d SUCCESS) (λ _, True)
      ([ev front d r] ++ extra ++ e3)) as Hcont.
  { intros Hr e3 extra Hextra Hstop.
    apply stops_at_app_r.
    { intros e ->%list_elem_of_singleton (r' & d' & Heq).
      apply ev_code in Heq. done. }
    apply stops_at_app_r; [|done].
    intros e ->%Hextra (r' & d' & Heq). by eapply ev_not_log. }
  destruct r eqn:Hr.
  - apply wp_ret. intros pre e post Heq _ e' Hin.
    destruct pre as [|x [|y pre]]; simplify_eq/=. by apply elem_of_nil in Hin.
  - eapply wp_mono; [apply IH|]. intros b w3 e3 Hstop.
    apply (Hcont ltac:(done) e3 []); [by intros ? ?%elem_of_nil|done].
  - apply wp_bind, wp_emit. eapply wp_mono; [apply IH|]. intros b w3 e3 Hstop.
    apply (Hcont ltac:(done) e3 [EvLog WARNING failed]);
      [by intros ? ->%list_elem_of_singleton|done].
  - apply wp_bind, wp_emit. eapply wp_mono; [apply IH|]. intros b w3 e3 Hstop.
    apply (Hcont ltac:(done) e3 [EvLog WARNING failed]);
      [by intros ? ->%list_elem_of_singleton|done].
  - apply wp_bind, wp_emit. eapply wp_mono; [apply IH|]. intros b w3 e3 Hstop.
    apply (Hcont ltac:(done) e3 [EvLog WARNING failed]);
      [by intros ? ->%list_elem_of_singleton|done].
  - apply wp_bind, wp_emit. eapply wp_mono; [apply IH|]. intros b w3 e3 Hstop.
    apply (Hcont ltac:(done) e3 [EvLog WARNING failed]);
      [by intros ? ->%list_elem_of_singleton|done].
Qed.

Lemma wp_phase_break (last : Z → world → world) disks (due : bool) sleep w :
  wp (if due then
        bind (rotate queue set_queue op ev failed disks sleep) (λ sleep,
          bind e_time (λ now,
            bind (modify (last now)) (λ _, ret sleep)))
      else ret sleep) w
    (λ _ _ evs, stops_at (λ e, ∃ r d, e = ev r d SUCCESS) (λ _, True) evs).
Proof.
  destruct due; [|apply wp_ret, stops_at_nil].
  apply wp_bind. unfold rotate. apply wp_bind, wp_gets.
  eapply wp_mono; [apply wp_rotate_loop_break|].
  intros b w1 e1 Hstop. simpl.
  apply wp_bind, wp_e_time, wp_bind, wp_modify, wp_ret.
  by rewrite !app_nil_r.
Qed.
End one_queue.
End pass_break.

Section round_break.
Context `{HD : Hyperdisk}.

Lemma wp_flush_loop_body_break w :
  wp flush_loop_body w (λ _ _ evs,
    stops_at (λ e, ∃ r d, e = EvPreallocate r d SUCCESS)
      (λ e, ∃ r d c, e = EvPreallocate r d c) evs ∧
    stops_at (λ e, ∃ r d, e = EvOptimisticIO r d SUCCESS)
      (λ e, ∃ r d c, e = EvOptimisticIO r d c) evs).
Proof.
  unfold flush_loop_body. cbv zeta.
  apply wp_bind, wp_gets, wp_bind.
  eapply wp_mono; [apply wp_observe_regions|].
  intros [] w1 e1 [-> ->]. cbv zeta.
  apply wp_bind, wp_e_time, wp_bind, wp_gets, wp_bind.
  eapply wp_mono.
  { apply wp_and; [apply wp_preallocate_phase|].
    apply (wp_phase_break m_preallocate_rr set_preallocate_rr disk_preallocate
             EvPreallocate MsgPreallocationFailed);
      [by intros ? ? ? ? ? ? [=]|done]. }
  intros sleep1 w2 e_pre [(Hpre & _) Hbreak1]. simpl.
  apply wp_bind, wp_e_time, wp_bind, wp_gets, wp_bind.
  eapply wp_mono.
  { apply wp_and; [apply wp_optimistic_phase|].
    apply (wp_phase_break m_optimistic_rr set_optimistic_rr
             disk_do_optimistic_io EvOptimisticIO MsgOptimisticFailed);
      [by intros ? ? ? ? ? ? [=]|done]. }
  intros sleep2 w3 e_opt [(Hopt & _) Hbreak2]. simpl.
  apply wp_bind. eapply wp_mono; [apply wp_flush_pass|].
  intros sleep3 w4 e_flush ((blocks & Hblocks & ->) & _ & _). simpl.
  assert (∀ e, e ∈ e_pre →
    (∃ r d c, e = EvPreallocate r d c)
    ∨ e = EvLog WARNING MsgPreallocationFailed) as Hpre_events.
  { intros e Hin.
    destruct (pass_post_events _ _ _ _ _ _ _ _ _ _ Hpre Hin)
      as [(r & d & c & -> & _)| ->]; eauto. }
  assert (∀ e, e ∈ e_opt →
    (∃ r d c, e = EvOptimisticIO r d c)
    ∨ e = EvLog WARNING MsgOptimisticFailed) as Hopt_events.
  { intros e Hin.
    destruct (pass_post_events _ _ _ _ _ _ _ _ _ _ Hopt Hin)
      as [(r & d & c & -> & _)| ->]; eauto. }
  assert (∀ e, e ∈ concat blocks →
    (∃ ri d ret, e = EvFlush ri d 10000 ret) ∨
    (∃ ri d ioret, e = EvMandatoryIO ri d ioret) ∨
    (∃ ret, e = EvLog ERROR ret)) as Hflush_events.
  { intros e Hin. apply elem_of_concat in Hin as (b & Hin & Hb).
    apply list_elem_of_lookup in Hb as [j Hb].
    destruct (Forall2_lookup_r _ _ _ _ _ Hblocks Hb) as (i & _ & Hfb).
    destruct (flush_block_inv _ _ _ _ Hfb Hin)
      as [[? ->]|[[? ->]|[? ->]]]; eauto 10. }
  assert (∀ tail, (tail = [] ∨ tail = [EvSleep 0 100]) →
    stops_at (λ e, ∃ r d, e = EvPreallocate r d SUCCESS)
      (λ e, ∃ r d c, e = EvPreallocate r d c)
      (e_pre ++ e_opt ++ concat blocks ++ tail) ∧
    stops_at (λ e, ∃ r d, e = EvOptimisticIO r d SUCCESS)
      (λ e, ∃ r d c, e = EvOptimisticIO r d c)
      (e_pre ++ e_opt ++ concat blocks ++ tail)) as Hpost.
  { intros tail Htail.
    assert (∀ e, e ∈ concat blocks ++ tail →
      (¬ ∃ r d c, e = EvPreallocate r d c) ∧
      (¬ ∃ r d c, e = EvOptimisticIO r d c)) as Hrest.
    { intros e [Hin|Hin]%elem_of_app.
      - destruct (Hflush_events e Hin)
          as [(? & ? & ? & ->)|[(? & ? & ? & ->)|(? & ->)]];
          split; intros (? & ? & ? & [=]).
      - destruct Htail as [-> | ->]; [by apply elem_of_nil in Hin|].
        apply list_elem_of_singleton in Hin as ->.
        split; intros (? & ? & ? & [=]). }
    split.
    - apply stops_at_app_l.
      + intros e (r & d & ->). eauto.
      + eapply stops_at_mono; [|exact Hbreak1]. done.
      + intros e [Hin|Hin]%elem_of_app.
        * destruct (Hopt_events e Hin) as [(? & ? & ? & ->)| ->];
            intros (? & ? & ? & [=]).
        * by apply Hrest.
    - apply stops_at_app_r.
      { intros e Hin (r & d & ->).
        by destruct (Hpre_events _ Hin) as [(? & ? & ? & [=])|[=]]. }
      apply stops_at_app_l.
      + intros e (r & d & ->). eauto.
      + eapply stops_at_mono; [|exact Hbreak2]. done.
      + intros e Hin. by apply Hrest. }
  destruct sleep3; [apply wp_emit|apply wp_ret]; apply Hpost; auto.
Qed.

(** X9. A pass over a round-robin queue ends at its first success: once
    a [preallocate] call has returned SUCCESS, the round calls
    [preallocate] on no further disk, and likewise for
    [do_optimistic_io].  So a round has at most one successful call of
    each kind. *)
Theorem pass_ends_at_first_success (w : world) :
  let evs := run_events flush_loop_body w in
  (∀ pre ri d post, evs = pre ++ EvPreallocate ri d SUCCESS :: post →
     (∀ ri' d' c, EvPreallocate ri' d' c ∉ post) ∧
     (∀ ri' d', EvPreallocate ri' d' SUCCESS ∉ pre)) ∧
  (∀ pre ri d post, evs = pre ++ EvOptimisticIO ri d SUCCESS :: post →
     (∀ ri' d' c, EvOptimisticIO ri' d' c ∉ post) ∧
     (∀ ri' d', EvOptimisticIO ri' d' SUCCESS ∉ pre)).
Proof.
  intros evs. destruct (wp_flush_loop_body_break w) as [Hp Ho].
  fold evs in Hp, Ho. split.
  - intros pre ri d post Heq. split.
    + intros ri' d' c Hin. eapply Hp; eauto.
    + intros ri' d' Hin.
      apply list_elem_of_split in Hin as (pre1 & pre2 & ->).
      rewrite <- (assoc_L (++)) in Heq. simpl in Heq.
      eapply (Hp pre1 _ _ Heq); eauto.
      apply elem_of_app. right. left.
  - intros pre ri d post Heq. split.
    + intros ri' d' c Hin. eapply Ho; eauto.
    + intros ri' d' Hin.
      apply list_elem_of_split in Hin as (pre1 & pre2 & ->).
      rewrite <- (assoc_L (++)) in Heq. simpl in Heq.
      eapply (Ho pre1 _ _ Heq); eauto.
      apply elem_of_app. right. left.
Qed.
End round_break.

Section cleanup_exact.
Context `{HD : Hyperdisk}.

Lemma set_disks_set_heap_id (w : world) :
  set_disks (m_disks w) (set_heap (heap w) w) = w.
Proof. by destruct w. Qed.

Lemma cleanup_loop_exact (keep : regionid → bool)
    (l : list (regionid * disk_ptr)) (w : world) :
  NoDup l.*1 →
  (∀ x, x ∈ l → m_disks w !! x.1 = Some x.2) →
  let body := λ d : regionid * disk_ptr,
    if negb (keep d.1) then drop_disk d.1 else ret tt in
  let dropped := filter (λ d, keep d.1 = false) l in
  run_events (for_each l body) w = drop_calls dropped ∧
  run_state (for_each l body) w =
    set_disks (foldl (λ m d, delete d.1 m) (m_disks w) dropped)
      (set_heap (dropped_heap dropped (heap w)) w).
Proof.
  intros Hnd Hl body. revert w Hl.
  induction l as [|[x d] l IH]; intros w Hl dropped.
  { split; [done|]. symmetry. apply set_disks_set_heap_id. }
  apply NoDup_cons in Hnd as [Hx Hnd]. cbn [for_each].
  rewrite run_events_bind, run_state_bind.
  unfold dropped.
  assert (body (x, d) = if negb (keep x) then drop_disk x else ret tt)
    as -> by done.
  destruct (keep x) eqn:Hk; cbn [negb].
  - rewrite filter_cons_False by (cbn; congruence).
    destruct (IH Hnd w) as [Hev Hst].
    { intros y Hy. apply Hl. by right. }
    split; [exact Hev|exact Hst].
  - rewrite filter_cons_True by done.
    pose proof (Hl (x, d) ltac:(left)) as Hxd. cbn in Hxd.
    assert (run_events (drop_disk x) w = [EvLog INFO (MsgDropping x); EvDrop x d]
            ∧ run_state (drop_disk x) w =
                set_disks (delete x (m_disks w))
                  (set_heap (<[d := disk_drop (heap w d)]> (heap w)) w))
      as [Hev1 Hst1].
    { apply (wp_drop_disk x w (λ _ w' evs,
        evs = [EvLog INFO (MsgDropping x); EvDrop x d] ∧
        w' = set_disks (delete x (m_disks w))
               (set_heap (<[d := disk_drop (heap w d)]> (heap w)) w))).
      by rewrite Hxd. }
    rewrite Hev1, Hst1.
    destruct (IH Hnd (set_disks (delete x (m_disks w))
                (set_heap (<[d := disk_drop (heap w d)]> (heap w)) w)))
      as [Hev Hst].
    { intros y Hy. cbn. rewrite lookup_delete_ne; [apply Hl; by right|].
      intros Heq. apply Hx. apply (list_elem_of_fmap_2 fst) in Hy.
      cbn [fst]. by rewrite Heq. }
    rewrite Hev, Hst. split; [done|]. destruct w. reflexivity.
Qed.

Lemma cleanup_run (c : configuration) (us : instance) (w : world) :
  let dropped :=
    filter (λ d, cleanup_keep c us (transfers_to c us) d.1 = false)
      (map_elements regionid_compare (m_disks w)) in
  run_events (cleanup c us) w = drop_calls dropped ∧
  run_state (cleanup c us) w =
    set_disks (foldl (λ m d, delete d.1 m) (m_disks w) dropped)
      (set_heap (dropped_heap dropped (heap w)) w).
Proof.
  intros dropped. unfold cleanup.
  rewrite run_events_bind, run_state_bind. cbn.
  apply (cleanup_loop_exact (cleanup_keep c us (transfers_to c us))).
  - apply (NoDup_map_elements_keys regionid_compare).
  - intros [x d] Hx. by apply (elem_of_map_elements_1 regionid_compare) in Hx.
Qed.
End cleanup_exact.

Section cleanup_exact_claims.
Context `{HD : Hyperdisk}.

Lemma lookup_foldl_delete (l : list (regionid * disk_ptr))
    (m : gmap regionid disk_ptr) ri :
  foldl (λ m d, delete d.1 m) m l !! ri =
    if decide (ri ∈ l.*1) then None else m !! ri.
Proof.
  revert m. induction l as [|[x d] l IH]; intros m; [done|].
  cbn [foldl fst]. rewrite IH, fmap_cons. cbn [fst].
  destruct (decide (ri ∈ l.*1)) as [Hin|Hin].
  - rewrite decide_True; [done|by right].
  - destruct (decide (ri = x)) as [->|Hne].
    + rewrite decide_True by left. apply lookup_delete_eq.
    + rewrite decide_False.
      * by apply lookup_delete_ne.
      * by intros [?|?]%elem_of_cons.
Qed.

Lemma dropped_heap_other (l : list (regionid * disk_ptr))
    (h : disk_ptr → disk) d :
  d ∉ l.*2 → dropped_heap l h d = h d.
Proof.
  revert h. induction l as [|[x d'] l IH]; intros h Hd; [done|].
  rewrite fmap_cons in Hd. apply not_elem_of_cons in Hd as [Hne Hd].
  change (dropped_heap l (<[d' := disk_drop (h d')]> h) d = h d).
  rewrite IH by done. by apply fn_lookup_insert_ne.
Qed.

Lemma StronglySorted_filter {A} (R : A → A → Prop) (P : A → Prop)
    `{∀ x, Decision (P x)} (l : list A) :
  StronglySorted R l → StronglySorted R (filter P l).
Proof.
  induction 1 as [|x l Hl IH Hx]; [constructor|].
  rewrite filter_cons. destruct (decide (P x)); [|done].
  constructor; [done|].
  apply Forall_forall. intros y [_ Hy]%list_elem_of_filter.
  by apply (proj1 (Forall_forall _ _) Hx).
Qed.

(** X10. [cleanup] makes its calls in the order of the map: for each
    hosted region that it does not keep, in ascending order of region id,
    it logs the drop and calls [drop] on the region's disk, once, and it
    makes no other call.  The regions it drops leave the map, every other
    entry stays, and no disk object but those of the dropped regions is
    touched. *)
Theorem cleanup_drops_in_map_order (c : configuration) (us : instance)
    (w : world) :
  let w' := run_state (cleanup c us) w in
  let dropped :=
    filter (λ d, cleanup_keep c us (transfers_to c us) d.1 = false)
      (map_elements regionid_compare (m_disks w)) in
  run_events (cleanup c us) w =
    dropped ≫= (λ d, [EvLog INFO (MsgDropping d.1); EvDrop d.1 d.2]) ∧
  StronglySorted (key_le regionid_compare) dropped ∧
  NoDup dropped.*1 ∧
  (∀ ri, m_disks w' !! ri =
     if decide (ri ∈ dropped.*1) then None else m_disks w !! ri) ∧
  heap w' = dropped_heap dropped (heap w) ∧
  (∀ d, d ∉ dropped.*2 → heap w' d = heap w d) ∧
  next_ptr w' = next_ptr w ∧ m_base w' = m_base w ∧
  m_shutdown w' = m_shutdown w.
Proof.
  intros w' dropped. destruct (cleanup_run c us w) as [Hev Hst].
  fold w' dropped in Hev, Hst.
  split_and!.
  - exact Hev.
  - apply StronglySorted_filter, (map_elements_sorted regionid_compare).
  - apply (sublist_NoDup _ (map_elements regionid_compare (m_disks w)).*1).
    + apply (NoDup_map_elements_keys regionid_compare).
    + apply fmap_sublist, sublist_filter.
  - intros ri. rewrite Hst. cbn. apply lookup_foldl_delete.
  - by rewrite Hst.
  - intros d Hd. rewrite Hst. cbn. by apply dropped_heap_other.
  - by rewrite Hst.
  - by rewrite Hst.
  - by rewrite Hst.
Qed.

Lemma filter_none {A} (P : A → Prop) `{∀ x, Decision (P x)} (l : list A) :
  (∀ x, x ∈ l → ¬ P x) → filter P l = [].
Proof.
  induction l as [|x l IH]; intros Hl; [done|].
  rewrite filter_cons_False by (apply Hl; left).
  apply IH. intros y Hy. apply Hl. by right.
Qed.

Lemma cleanup_nothing_to_drop (c : configuration) (us : instance) (w : world) :
  (∀ ri, is_Some (m_disks w !! ri) →
     cleanup_keep c us (transfers_to c us) ri = true) →
  run_events (cleanup c us) w = [] ∧ run_state (cleanup c us) w = w.
Proof.
  intros Hkeep. destruct (cleanup_run c us w) as [Hev Hst].
  rewrite filter_none in Hev, Hst.
  - split; [exact Hev|]. rewrite Hst. apply set_disks_set_heap_id.
  - intros [x d] Hx%(elem_of_map_elements_1 regionid_compare). cbn in *.
    rewrite Hkeep; [done|eauto].
  - intros [x d] Hx%(elem_of_map_elements_1 regionid_compare). cbn in *.
    rewrite Hkeep; [done|eauto].
Qed.

(** X11. A second [cleanup] with the same configuration and instance
    does nothing: it makes no call, not even a log entry, and leaves the
    map, the disks and every other member as the first one left them. *)
Theorem cleanup_again_does_nothing (c : configuration) (us : instance)
    (w : world) :
  let w1 := run_state (cleanup c us) w in
  run_events (cleanup c us) w1 = [] ∧ run_state (cleanup c us) w1 = w1.
Proof.
  intros w1. apply cleanup_nothing_to_drop. intros ri [d Hri].
  destruct (cleanup_run c us w) as [_ Hst]. fold w1 in Hst.
  rewrite Hst in Hri. cbn in Hri. rewrite lookup_foldl_delete in Hri.
  destruct (decide (ri ∈ _)) as [|Hnin] in Hri; [done|].
  destruct (cleanup_keep c us (transfers_to c us) ri) eqn:Hk; [done|].
  destruct Hnin. apply (list_elem_of_fmap_2 fst _ (ri, d)).
  apply list_elem_of_filter. split; [done|].
  by apply (elem_of_map_elements_1 regionid_compare).
Qed.
End cleanup_exact_claims.

Section reconfiguration.
Context `{HD : Hyperdisk}.

Lemma elem_of_drop_calls (l : list (regionid * disk_ptr)) ri d :
  EvDrop ri d ∈ drop_calls l ↔ (ri, d) ∈ l.
Proof.
  unfold drop_calls. rewrite list_elem_of_bind. split.
  - intros ([x dx] & Hin & Hx). cbn in Hin.
    apply elem_of_cons in Hin as [[=]|Hin].
    by apply list_elem_of_singleton in Hin as [= -> ->].
  - intros Hin. exists (ri, d). split; [|done]. cbn. right. left.
Qed.

Lemma cleanup_drop_iff (c : configuration) (us : instance) (w : world) ri d :
  EvDrop ri d ∈ run_events (cleanup c us) w
  ↔ m_disks w !! ri = Some d ∧
    cleanup_keep c us (transfers_to c us) ri = false.
Proof.
  destruct (cleanup_run c us w) as [-> _].
  rewrite elem_of_drop_calls, list_elem_of_filter.
  rewrite (elem_of_map_elements_1 regionid_compare). cbn. tauto.
Qed.

Lemma cleanup_lookup (c : configuration) (us : instance) (w : world) ri :
  m_disks (run_state (cleanup c us) w) !! ri =
    if cleanup_keep c us (transfers_to c us) ri then m_disks w !! ri else None.
Proof.
  destruct (cleanup_run c us w) as [_ ->]. cbn. rewrite lookup_foldl_delete.
  destruct (decide (ri ∈ _)) as [Hin|Hnin].
  - apply list_elem_of_fmap in Hin as ([x d] & -> & [Hk _]%list_elem_of_filter).
    cbn in *. by rewrite Hk.
  - destruct (cleanup_keep c us (transfers_to c us) ri) eqn:Hk; [done|].
    destruct (m_disks w !! ri) as [d|] eqn:Hd; [|done].
    destruct Hnin. apply (list_elem_of_fmap_2 fst _ (ri, d)).
    apply list_elem_of_filter. split; [done|].
    by apply (elem_of_map_elements_1 regionid_compare).
Qed.

Lemma assigned_outside_sentinel_assigned (c : configuration) us ri :
  assigned_outside_sentinel c us ri → assigned c us ri.
Proof. intros (e & ? & ? & _). by exists e. Qed.

(** X12. The reconfiguration sequence [prepare], [reconfigure],
    [cleanup] with one configuration: the [cleanup] drops no disk that
    the [prepare] created; it drops exactly the disks hosted before the
    [prepare] whose region is neither assigned to [us] nor the target of
    a transfer to [us].  Afterwards a region is hosted exactly when it
    was hosted and is still wanted, or [prepare] wanted it and the
    column-count table lists it. *)
Theorem prepare_then_cleanup (c : configuration) (us : instance) (w : world) :
  entity_numbers_fit c →
  let w1 := run_state (prepare c us >> reconfigure c us) w in
  let evs1 := run_events (prepare c us >> reconfigure c us) w in
  let w2 := run_state (cleanup c us) w1 in
  let evs2 := run_events (cleanup c us) w1 in
  let kept ri := assigned c us ri ∨ transfer_target c us ri in
  let wanted ri := assigned_outside_sentinel c us ri ∨ transfer_target c us ri in
  (∀ ri path h n d, EvCreate ri path h n d ∈ evs1 →
     ∀ d', EvDrop ri d' ∉ evs2) ∧
  (∀ ri d, EvDrop ri d ∈ evs2 ↔ m_disks w !! ri = Some d ∧ ¬ kept ri) ∧
  (∀ ri, is_Some (m_disks w2 !! ri)
         ↔ (is_Some (m_disks w !! ri) ∧ kept ri)
           ∨ (wanted ri ∧ is_Some (regions c !! ri))).
Proof.
  intros Hfit w1 evs1 w2 evs2 kept wanted.
  assert (w1 = run_state (prepare c us) w) as Hw1.
  { unfold w1. by rewrite run_state_bind. }
  assert (evs1 = run_events (prepare c us) w) as Hevs1.
  { unfold evs1. rewrite run_events_bind. apply app_nil_r. }
  pose proof (prepare_run c us w) as Hrun. rewrite <- Hw1, <- Hevs1 in Hrun.
  assert (∀ ri, cleanup_keep c us (transfers_to c us) ri = false ↔ ¬ kept ri)
    as Hkeep.
  { intros ri. unfold kept. rewrite <- (cleanup_keep_spec c us ri Hfit).
    by destruct (cleanup_keep c us (transfers_to c us) ri). }
  assert (∀ ri, wanted ri → kept ri) as Hwk.
  { intros ri [?%assigned_outside_sentinel_assigned|?]; [by left|by right]. }
  assert (∀ ri path h n d, EvCreate ri path h n d ∈ evs1 →
            m_disks w !! ri = None ∧ wanted ri ∧ is_Some (regions c !! ri))
    as Hsound.
  { intros ri path h n d Hin.
    destruct (prepare_create_sound c us w w1 evs1 ri path h n d Hrun Hin)
      as (Hd & Hw & (sz & Hsz & _) & _). eauto. }
  assert (∀ ri d, m_disks w1 !! ri = Some d → ¬ kept ri →
            m_disks w !! ri = Some d) as Hold.
  { intros ri d Hd Hnk.
    rewrite (prepare_disks c us w w1 evs1 ri Hrun) in Hd.
    destruct (m_disks w !! ri); [done|].
    apply first_create_Some in Hd as (path & h & n & Hin).
    destruct Hnk. apply Hwk. by apply (Hsound ri path h n d). }
  split_and!.
  - intros ri path h n d Hin d' Hdrop.
    apply cleanup_drop_iff in Hdrop as [_ Hk%Hkeep].
    apply Hk, Hwk. by apply (Hsound ri path h n d).
  - intros ri d. unfold evs2. rewrite cleanup_drop_iff, Hkeep. split.
    + intros [Hd Hnk]. split; [by apply Hold|done].
    + intros [Hd Hnk]. split; [|done].
      by rewrite (prepare_disks c us w w1 evs1 ri Hrun), Hd.
  - intros ri. unfold w2. rewrite cleanup_lookup.
    rewrite (prepare_disks c us w w1 evs1 ri Hrun).
    destruct (cleanup_keep c us (transfers_to c us) ri) eqn:Hk.
    + assert (kept ri) as Hkept by by apply (cleanup_keep_spec c us ri Hfit).
      destruct (m_disks w !! ri) as [d|] eqn:Hd.
      { split; [intros _; left; eauto|eauto]. }
      split.
      * intros [d (path & h & n & Hin)%first_create_Some]. right.
        by apply (Hsound ri path h n d).
      * intros [[[? [=]] _]|[Hw [sz Hsz]]].
        destruct (prepare_create_complete c us w w1 evs1 ri sz Hrun Hd Hw Hsz)
          as [d Hin].
        destruct (first_create ri evs1) eqn:Hf; [by eauto|].
        exfalso. by eapply first_create_None.
    + apply Hkeep in Hk. split; [by intros [? [=]]|].
      intros [[_ ?]|[?%Hwk _]]; done.
Qed.
End reconfiguration.

Lemma prepare_then_cleanup_witness :
  entity_numbers_fit config_a ∧
  let w1 :=
    run_state (prepare config_a self >> reconfigure config_a self) hosting_a_b in
  let evs1 :=
    run_events (prepare config_a self >> reconfigure config_a self) hosting_a_b in
  let w2 := run_state (cleanup config_a self) w1 in
  let evs2 := run_events (cleanup config_a self) w1 in
  let kept ri :=
    assigned config_a self ri ∨ transfer_target config_a self ri in
  let wanted ri :=
    assigned_outside_sentinel config_a self ri
    ∨ transfer_target config_a self ri in
  (∀ ri path h n d, EvCreate ri path h n d ∈ evs1 →
     ∀ d', EvDrop ri d' ∉ evs2) ∧
  (∀ ri d, EvDrop ri d ∈ evs2
           ↔ m_disks hosting_a_b !! ri = Some d ∧ ¬ kept ri) ∧
  (∀ ri, is_Some (m_disks w2 !! ri)
         ↔ (is_Some (m_disks hosting_a_b !! ri) ∧ kept ri)
           ∨ (wanted ri ∧ is_Some (regions config_a !! ri))).
Proof.
  assert (entity_numbers_fit config_a) as Hfit.
  { apply (bool_decide_unpack _). vm_compute. reflexivity. }
  split; [exact Hfit|].
  exact (prepare_then_cleanup config_a self hosting_a_b Hfit).
Defined.

Section directory_pointers.
Context `{HD : Hyperdisk}.

Lemma create_disk_keeps_wf ri h n w :
  directory_wf w → wp (create_disk ri h n) w (λ _ w' _, directory_wf w').
Proof.
  intros [Halloc Hinj]. apply wp_create_disk. cbv zeta.
  unfold directory_wf. cbn [m_disks next_ptr set_disks set_next_ptr set_heap].
  assert (∀ r d, map_insert_new ri (next_ptr w) (m_disks w) !! r = Some d →
            m_disks w !! r = Some d
            ∨ r = ri ∧ d = next_ptr w ∧ m_disks w !! ri = None) as Hcases.
  { intros r d. rewrite lookup_map_insert_new.
    destruct (m_disks w !! r) eqn:Hr; [by left|].
    case_decide; [|done]. intros [= <-]. right. by subst. }
  split.
  - intros r d [Hd|(_ & -> & _)]%Hcases; [|lia].
    apply Halloc in Hd. lia.
  - intros r r' d [Hd|(-> & -> & _)]%Hcases [Hd'|(-> & Heq & _)]%Hcases.
    + by eapply Hinj.
    + subst d. apply Halloc in Hd. lia.
    + apply Halloc in Hd'. lia.
    + done.
Qed.

Lemma create_loop_keeps_wf (c : configuration) {X} (want : X → bool)
    (key : X → regionid) (l : list X) w :
  directory_wf w →
  wp (for_each l (create_if c want key)) w (λ _ w' _, directory_wf w').
Proof.
  intros Hwf. apply (wp_for_each _ (λ _ w' _, directory_wf w')); [done|].
  intros vis x w1 e1 Hwf1. unfold create_if.
  destruct (want x); [|by apply wp_ret].
  destruct (regions c !! key x); [|by apply wp_emit].
  by apply create_disk_keeps_wf.
Qed.

Lemma init_wf base h clk : directory_wf (datalayer_init base h clk).
Proof. split; intros *; cbn; by rewrite lookup_empty. Qed.

Lemma prepare_keeps_wf (c : configuration) (us : instance) w :
  directory_wf w → directory_wf (run_state (prepare c us) w).
Proof.
  intros Hwf.
  apply (wp_mono (prepare c us) w (λ _ w' _, directory_wf w')
           (λ _ w' _, directory_wf w')); [|done].
  unfold prepare. apply wp_bind, wp_gets, wp_bind.
  eapply wp_mono.
  { apply (create_loop_keeps_wf c (want_entity us (m_disks w))
             (λ e, entity_region e.1)), Hwf. }
  intros [] w1 e1 H1. simpl.
  eapply wp_mono.
  { apply (create_loop_keeps_wf c (want_transfer (m_disks w)) snd), H1. }
  done.
Qed.

Lemma cleanup_keeps_wf (c : configuration) (us : instance) w :
  directory_wf w → directory_wf (run_state (cleanup c us) w).
Proof.
  intros [Halloc Hinj].
  assert (next_ptr (run_state (cleanup c us) w) = next_ptr w) as Hnext.
  { by destruct (cleanup_run c us w) as [_ ->]. }
  assert (∀ ri d, m_disks (run_state (cleanup c us) w) !! ri = Some d →
            m_disks w !! ri = Some d) as Hsub.
  { intros ri d. rewrite cleanup_lookup. by destruct (cleanup_keep _ _ _ _). }
  split.
  - intros ri d Hd%Hsub. rewrite Hnext. by eapply Halloc.
  - intros ri ri' d Hd%Hsub Hd'%Hsub. by eapply Hinj.
Qed.

Lemma directory_wf_frame (w w' : world) :
  m_disks w' = m_disks w → next_ptr w' = next_ptr w →
  directory_wf w → directory_wf w'.
Proof. unfold directory_wf. by intros -> ->. Qed.

Lemma rounds_untouched (n : nat) {X} (f : world → X) w :
  untouched_by_rounds f → f (run_state (flush_loop_rounds n) w) = f w.
Proof.
  intros Hf. revert w. induction n as [|n IH]; intros w; [done|].
  cbn [flush_loop_rounds]. rewrite run_state_bind.
  change (run_value (gets m_shutdown) w) with (m_shutdown w).
  change (run_state (gets m_shutdown) w) with w.
  destruct (m_shutdown w); [done|].
  rewrite run_state_bind. cbn beta. rewrite IH. by apply round_untouched.
Qed.

(** X13. No two regions ever share a disk object, and every disk of the
    map was returned by [disk::create]: the constructor leaves the map
    so, and [prepare] (even when it creates two disks for one region),
    [cleanup], the flush thread and the requests keep it so. *)
Theorem disks_are_never_shared :
  (∀ base h clk, directory_wf (datalayer_init base h clk)) ∧
  (∀ (c : configuration) (us : instance) (w : world),
     directory_wf w →
     directory_wf (run_state (prepare c us) w) ∧
     directory_wf (run_state (cleanup c us) w)) ∧
  (∀ (rounds : nat) (w : world),
     directory_wf w → directory_wf (run_state (flush_loop rounds) w)) ∧
  (∀ (ri : regionid) (key : buffer) (value : list buffer) (version : N)
     (w : world),
     directory_wf w →
     directory_wf (run_state (get ri key) w) ∧
     directory_wf (run_state (put ri key value version) w) ∧
     directory_wf (run_state (del ri key) w) ∧
     directory_wf (run_state (trickle ri) w)).
Proof.
  split_and!.
  - apply init_wf.
  - intros c us w Hw. split; [by apply prepare_keeps_wf|by apply cleanup_keeps_wf].
  - intros rounds w Hw. unfold flush_loop. rewrite run_state_bind.
    change (run_state (emit (EvLog WARNING MsgFlushThreadStarted)) w) with w.
    cbn beta. eapply directory_wf_frame; [| |exact Hw].
    + apply (rounds_untouched rounds m_disks), untouched_m_disks.
    + apply (rounds_untouched rounds next_ptr), untouched_next_ptr.
  - intros ri key value version w Hw.
    destruct (requests_only_touch_disks ri key value version w)
      as ((h1 & ->) & (h2 & ->) & (h3 & ->) & (h4 & ->)).
    done.
Qed.

(** X14. A request touches one disk only: while no two regions share a
    disk, [get], [put], [del] and [trickle] on one region leave the disk
    object of every other hosted region as it was. *)
Theorem requests_touch_one_disk (ri : regionid) (key : buffer)
    (value : list buffer) (version : N) (w : world) :
  directory_wf w →
  ∀ ri' d', ri' ≠ ri → m_disks w !! ri' = Some d' →
    heap (run_state (get ri key) w) d' = heap w d' ∧
    heap (run_state (put ri key value version) w) d' = heap w d' ∧
    heap (run_state (del ri key) w) d' = heap w d' ∧
    heap (run_state (trickle ri) w) d' = heap w d'.
Proof.
  intros [_ Hinj] ri' d' Hri' Hd'.
  unfold run_state, get, put, del, trickle, get_region, bind, gets.
  destruct (m_disks w !! ri) as [d|] eqn:Hd; simpl; [|done].
  assert (d ≠ d') as Hne.
  { intros ->. by apply Hri', (Hinj ri' ri d'). }
  rewrite !call_eq. simpl. by rewrite !fn_lookup_insert_ne.
Qed.
End directory_pointers.

Lemma requests_touch_one_disk_witness :
  let w := run_state (prepare config_abc self) scripted_init in
  directory_wf w ∧
  ∀ ri' d', ri' ≠ region_a → m_disks w !! ri' = Some d' →
    heap (run_state (get (HD := scripted) region_a 5) w) d' = heap w d' ∧
    heap (run_state (put (HD := scripted) region_a 5 [6] 1) w) d' = heap w d' ∧
    heap (run_state (del (HD := scripted) region_a 5) w) d' = heap w d' ∧
    heap (run_state (trickle region_a) w) d' = heap w d'.
Proof.
  assert (directory_wf (run_state (prepare config_abc self) scripted_init))
    as Hwf.
  { apply prepare_keeps_wf, init_wf. }
  split; [exact Hwf|].
  exact (requests_touch_one_disk (HD := scripted) region_a 5 [6] 1 _ Hwf).
Defined.

(** ** Fairness of the optimistic pass *)

Section optimistic_fairness.
Context `{HD : Hyperdisk}.

(** The regions the optimistic pass of a round takes off the front of
    its queue each get one [do_optimistic_io] call when hosted. *)
Lemma round_optimism_attempts (w : world) :
  let q := observe (region_keys (m_disks w)) (m_optimistic_rr w) in
  ∃ k : nat,
    (optimism_due w = true → q ≠ [] → (1 ≤ k)%nat) ∧
    m_optimistic_rr (run_state flush_loop_body w) =
      drop k q ++ filter (λ r, is_Some (m_disks w !! r)) (take k q) ∧
    (∀ ri d, ri ∈ take k q → m_disks w !! ri = Some d →
       ∃ code, EvOptimisticIO ri d code ∈ run_events flush_loop_body w).
Proof.
  intros q.
  destruct (flush_loop_body_run w)
    as (e_pre & e_opt & e_flush & s1 & s2 & s3 & Hevs & _ & Hopt & _).
  destruct Hopt as (k & attempts & Hk & Hprog & Hnot & Hatt & Hq & He & _).
  fold (region_keys (m_disks w)) in Hk, Hprog, Hatt, Hq.
  fold q in Hk, Hprog, Hatt, Hq.
  exists k. split_and!; try done.
  - by rewrite Hq, Hatt, hosted_of_keys.
  - intros ri d Hri Hd.
    assert ((ri, d) ∈ attempts.*1) as Hin.
    { rewrite Hatt. by apply elem_of_hosted_of. }
    apply list_elem_of_fmap in Hin as ([[r' d'] code] & [= <- <-] & Hin).
    exists code. rewrite Hevs, !elem_of_app. right. left. rewrite He.
    apply list_elem_of_bind. exists (ri, d, code). split; [|done]. left.
Qed.

Lemma optimistic_windows_hosted hosted w traces :
  optimistic_windows hosted w traces → dom (m_disks w) = hosted.
Proof. by destruct 1. Qed.

End optimistic_fairness.

(** ** Warnings of the round-robin passes *)

Section pass_warnings.
Context `{HD : Hyperdisk}.

Lemma app_skip_prefix {A} (l0 l pre post : list A) (e : A) :
  l0 ++ l = pre ++ e :: post → e ∉ l0 →
  ∃ pre', pre = l0 ++ pre' ∧ l = pre' ++ e :: post.
Proof.
  intros Heq Hnin. apply app_eq_app in Heq as [k [[-> Heq]|[-> ->]]].
  - destruct k as [|x k]; simpl in Heq.
    + exists []. by rewrite !app_nil_r.
    + injection Heq as <- ->. destruct Hnin.
      apply elem_of_app. right. left.
  - by exists k.
Qed.

Section one_queue.
Variable ev : regionid → disk_ptr → returncode → event.
Variable failed : logmsg.
Hypothesis ev_inj : ∀ r d c r' d' c',
  ev r d c = ev r' d' c' → r = r' ∧ d = d' ∧ c = c'.
Hypothesis ev_not_log : ∀ r d c, ev r d c ≠ EvLog WARNING failed.

Lemma attempt_events_cases (a : attempt) :
  (a.2 = SUCCESS ∨ a.2 = DIDNOTHING) ∧
    attempt_events ev failed a = [ev a.1.1 a.1.2 a.2]
  ∨ (a.2 ≠ SUCCESS ∧ a.2 ≠ DIDNOTHING) ∧
    attempt_events ev failed a = [ev a.1.1 a.1.2 a.2; EvLog WARNING failed].
Proof. unfold attempt_events. destruct a.2; auto. Qed.

(** What follows a call of the pass in its trace. *)
Lemma after_attempt (attempts : list attempt) (rest pre post : list event)
    r d c :
  (attempts ≫= attempt_events ev failed) ++ rest = pre ++ ev r d c :: post →
  (∀ r' d' c', ev r' d' c' ∉ rest) →
  head rest ≠ Some (EvLog WARNING failed) →
  (head post = Some (EvLog WARNING failed) ↔ c ≠ SUCCESS ∧ c ≠ DIDNOTHING).
Proof.
  intros Heq Hrest Hhead. revert pre Heq.
  induction attempts as [|a attempts IH]; intros pre Heq.
  { simpl in Heq. destruct (Hrest r d c). rewrite Heq.
    apply elem_of_app. right. left. }
  rewrite bind_cons, <- (assoc_L (++)) in Heq.
  assert (head ((attempts ≫= attempt_events ev failed) ++ rest)
          ≠ Some (EvLog WARNING failed)) as Hnext.
  { destruct attempts as [|a' attempts']; [done|].
    rewrite bind_cons. unfold attempt_events at 1. simpl.
    intros [= Hev]. by eapply ev_not_log. }
  destruct (attempt_events_cases a) as [[Hok Hae]|[[Hf1 Hf2] Hae]];
    rewrite Hae in Heq.
  - destruct pre as [|x pre]; simpl in Heq.
    + injection Heq as Hev <-. apply ev_inj in Hev as (_ & _ & <-).
      split; [done|]. intros [? ?]. destruct Hok; done.
    + injection Heq as <- Heq. by apply (IH pre).
  - destruct pre as [|x [|y pre]]; simpl in Heq.
    + injection Heq as Hev <-. apply ev_inj in Hev as (_ & _ & <-).
      done.
    + injection Heq as <- Hlog _. symmetry in Hlog. by apply ev_not_log in Hlog.
    + injection Heq as <- <- Heq. by apply (IH pre).
Qed.

(** What precedes a warning of the pass in its trace. *)
Lemma before_warning (attempts : list attempt) (rest pre post : list event) :
  (attempts ≫= attempt_events ev failed) ++ rest
    = pre ++ EvLog WARNING failed :: post →
  EvLog WARNING failed ∉ rest →
  ∃ pre' r d c, pre = pre' ++ [ev r d c] ∧ c ≠ SUCCESS ∧ c ≠ DIDNOTHING.
Proof.
  intros Heq Hrest. revert pre Heq.
  induction attempts as [|a attempts IH]; intros pre Heq.
  { simpl in Heq. destruct Hrest. rewrite Heq.
    apply elem_of_app. right. left. }
  rewrite bind_cons, <- (assoc_L (++)) in Heq.
  destruct (attempt_events_cases a) as [[Hok Hae]|[[Hf1 Hf2] Hae]];
    rewrite Hae in Heq.
  - destruct pre as [|x pre]; simpl in Heq.
    + injection Heq as Hev _. by apply ev_not_log in Hev.
    + injection Heq as <- Heq.
      destruct (IH pre Heq) as (pre' & r & d & c & -> & ?).
      by exists (ev a.1.1 a.1.2 a.2 :: pre'), r, d, c.
  - destruct pre as [|x [|y pre]]; simpl in Heq.
    + injection Heq as Hev _. by apply ev_not_log in Hev.
    + injection Heq as <- _. by exists [], a.1.1, a.1.2, a.2.
    + injection Heq as <- <- Heq.
      destruct (IH pre Heq) as (pre' & r & d & c & -> & ?).
      by exists (ev a.1.1 a.1.2 a.2 :: EvLog WARNING failed :: pre'), r, d, c.
Qed.
End one_queue.

Lemma flush_events_kinds (disks : gmap regionid disk_ptr)
    (blocks : list (list event)) (s3 : bool) e :
  Forall2 (λ i b, flush_block i.1 i.2 b)
    (map_elements regionid_compare disks) blocks →
  e ∈ concat blocks ++ (if s3 then [EvSleep 0 100] else []) →
  match e with
  | EvFlush _ _ _ _ | EvMandatoryIO _ _ _ | EvLog ERROR _ | EvSleep _ _ => True
  | _ => False
  end.
Proof.
  intros Hblocks [Hin|Hin]%elem_of_app.
  - apply elem_of_concat in Hin as (b & Hin & Hb).
    apply list_elem_of_lookup in Hb as [j Hb].
    destruct (Forall2_lookup_r _ _ _ _ _ Hblocks Hb) as (i & _ & Hfb).
    by destruct (flush_block_inv _ _ _ _ Hfb Hin)
      as [[? ->]|[[? ->]|[? ->]]].
  - destruct s3; [|by apply elem_of_nil in Hin].
    by apply list_elem_of_singleton in Hin as ->.
Qed.

(** X16. A failed call of a pass is logged at once, and nothing else is.
    In a round, the event that follows a [preallocate] call is the
    warning "preallocation failed" exactly when the call returned neither
    SUCCESS nor DIDNOTHING, and every such warning directly follows such a
    call; likewise for [do_optimistic_io] and its warning. *)
Theorem failed_pass_calls_are_logged (w : world) :
  let evs := run_events flush_loop_body w in
  (∀ pre ri d c post, evs = pre ++ EvPreallocate ri d c :: post →
     (head post = Some (EvLog WARNING MsgPreallocationFailed)
      ↔ c ≠ SUCCESS ∧ c ≠ DIDNOTHING)) ∧
  (∀ pre post, evs = pre ++ EvLog WARNING MsgPreallocationFailed :: post →
     ∃ pre' ri d c, pre = pre' ++ [EvPreallocate ri d c] ∧
                    c ≠ SUCCESS ∧ c ≠ DIDNOTHING) ∧
  (∀ pre ri d c post, evs = pre ++ EvOptimisticIO ri d c :: post →
     (head post = Some (EvLog WARNING MsgOptimisticFailed)
      ↔ c ≠ SUCCESS ∧ c ≠ DIDNOTHING)) ∧
  (∀ pre post, evs = pre ++ EvLog WARNING MsgOptimisticFailed :: post →
     ∃ pre' ri d c, pre = pre' ++ [EvOptimisticIO ri d c] ∧
                    c ≠ SUCCESS ∧ c ≠ DIDNOTHING).
Proof.
  intros evs.
  destruct (flush_loop_body_run w)
    as (e_pre & e_opt & e_flush & s1 & s2 & s3 & Hevs & Hpre & Hopt &
        (blocks & Hblocks & ->) & _).
  fold evs in Hevs.
  assert (∀ e, e ∈ e_pre →
    (∃ r d c, e = EvPreallocate r d c)
    ∨ e = EvLog WARNING MsgPreallocationFailed) as Hpre_events.
  { intros e Hin.
    destruct (pass_post_events _ _ _ _ _ _ _ _ _ _ Hpre Hin)
      as [(r & d & c & -> & _)| ->]; eauto. }
  assert (∀ e, e ∈ e_opt →
    (∃ r d c, e = EvOptimisticIO r d c)
    ∨ e = EvLog WARNING MsgOptimisticFailed) as Hopt_events.
  { intros e Hin.
    destruct (pass_post_events _ _ _ _ _ _ _ _ _ _ Hopt Hin)
      as [(r & d & c & -> & _)| ->]; eauto. }
  pose proof (λ e, flush_events_kinds (m_disks w) blocks s3 e Hblocks)
    as Hflush_events.
  destruct Hpre as (kp & ap & _ & _ & _ & _ & _ & Hep & _).
  destruct Hopt as (ko & ao & _ & _ & _ & _ & _ & Heo & _).
  set (tail := concat blocks ++ (if s3 then [EvSleep 0 100] else [])) in *.
  assert (∀ x, head tail = Some x → x ∈ tail) as Hhead_in.
  { intros x Hx. destruct tail; [done|]. injection Hx as ->. left. }
  assert (∀ x, head (e_opt ++ tail) = Some x → x ∈ e_opt ++ tail) as Hhead_in'.
  { intros x Hx. destruct (e_opt ++ tail); [done|]. injection Hx as ->. left. }
  split_and!.
  - intros pre ri d c post Heq. rewrite Hevs, Hep in Heq.
    apply (after_attempt EvPreallocate MsgPreallocationFailed
             ltac:(by intros ? ? ? ? ? ? [=]) ltac:(done) _ _ _ _ _ _ _ Heq).
    + intros r' d' c' [Hin|Hin]%elem_of_app.
      * by destruct (Hopt_events _ Hin) as [(? & ? & ? & [=])|[=]].
      * by apply Hflush_events in Hin.
    + intros [Hin|Hin]%Hhead_in'%elem_of_app.
      * by destruct (Hopt_events _ Hin) as [(? & ? & ? & [=])|[=]].
      * by apply Hflush_events in Hin.
  - intros pre post Heq. rewrite Hevs, Hep in Heq.
    apply (before_warning EvPreallocate MsgPreallocationFailed
             ltac:(done) _ _ _ _ Heq).
    intros [Hin|Hin]%elem_of_app.
    + by destruct (Hopt_events _ Hin) as [(? & ? & ? & [=])|[=]].
    + by apply Hflush_events in Hin.
  - intros pre ri d c post Heq. rewrite Hevs in Heq.
    apply app_skip_prefix in Heq as (pre' & -> & Heq).
    2:{ intros Hin. by destruct (Hpre_events _ Hin) as [(? & ? & ? & [=])|[=]]. }
    rewrite Heo in Heq.
    apply (after_attempt EvOptimisticIO MsgOptimisticFailed
             ltac:(by intros ? ? ? ? ? ? [=]) ltac:(done) _ _ _ _ _ _ _ Heq).
    + intros r' d' c' Hin. by apply Hflush_events in Hin.
    + intros Hin%Hhead_in. by apply Hflush_events in Hin.
  - intros pre post Heq. rewrite Hevs in Heq.
    apply app_skip_prefix in Heq as (pre' & -> & Heq).
    2:{ intros Hin. by destruct (Hpre_events _ Hin) as [(? & ? & ? & [=])|[=]]. }
    rewrite Heo in Heq.
    destruct (before_warning EvOptimisticIO MsgOptimisticFailed
                ltac:(done) _ _ _ _ Heq) as (pre2 & r & d & c & -> & ?).
    { intros Hin. by apply Hflush_events in Hin. }
    exists (e_pre ++ pre2), r, d, c. by rewrite (assoc_L (++)).
Qed.
End pass_warnings.

(** ** What [prepare] leaves alone *)

Section prepare_frame.
Context `{HD : Hyperdisk}.

Lemma creates_logged_app (e1 e2 : list event) :
  creates_logged e1 →
  (e2 = [] ∨ e2 = [EvLog ERROR MsgLogicError]
   ∨ ∃ ri path h n d, e2 = [EvLog INFO (MsgCreating ri n); EvCreate ri path h n d]) →
  creates_logged (e1 ++ e2).
Proof.
  intros H1 H2 pre ri path h n d post Heq.
  apply app_eq_app in Heq as [k [[-> Heq]|[-> Heq]]].
  - destruct k as [|x k]; simpl in Heq.
    + destruct H2 as [->|[->|(ri' & path' & h' & n' & d' & ->)]];
        try discriminate.
    + injection Heq as <- ->. by eapply H1.
  - destruct H2 as [->|[->|(ri' & path' & h' & n' & d' & ->)]].
    + by destruct k.
    + destruct k as [|? [|? ?]]; discriminate.
    + destruct k as [|x [|y [|? ?]]]; simplify_eq/=.
      by exists e1.
Qed.

Lemma wp_create_loop_frame (c : configuration) {X} (want : X → bool)
    (key : X → regionid) (l : list X) w0 :
  wp (for_each l (create_if c want key)) w0
    (λ _ w' evs,
       Forall creation_event evs ∧ creates_logged evs ∧
       ∀ Y (f : world → Y), untouched_by_create f → f w' = f w0).
Proof.
  apply (wp_for_each _ (λ _ w' evs,
    Forall creation_event evs ∧ creates_logged evs ∧
    ∀ Y (f : world → Y), untouched_by_create f → f w' = f w0)).
  { split_and!; [constructor| |done].
    intros pre ? ? ? ? ? ? Heq. by destruct pre. }
  intros vis x w1 e1 (Hkind & Hlog & Hframe). unfold create_if.
  destruct (want x).
  2:{ apply wp_ret. rewrite app_nil_r. done. }
  destruct (regions c !! key x) as [sz|].
  2:{ apply wp_emit. split_and!; [|apply creates_logged_app; auto|done].
      apply Forall_app. split; [done|]. by repeat constructor. }
  apply wp_create_disk. cbv zeta. split_and!.
  - apply Forall_app. split; [done|]. by repeat constructor.
  - apply creates_logged_app; [done|]. right. right. eauto 10.
  - intros Y f Hf. pose proof Hf as (Hf1 & Hf2 & Hf3).
    rewrite Hf1, Hf2, Hf3. by apply Hframe.
Qed.

Lemma wp_prepare_frame (c : configuration) (us : instance) w :
  wp (prepare c us) w (λ _ w' evs,
    Forall creation_event evs ∧ creates_logged evs ∧
    ∀ Y (f : world → Y), untouched_by_create f → f w' = f w).
Proof.
  unfold prepare. apply wp_bind, wp_gets, wp_bind.
  eapply wp_mono.
  { apply (wp_create_loop_frame c (want_entity us (m_disks w))
             (λ e, entity_region e.1)). }
  intros [] w1 e1 (Hk1 & Hl1 & Hf1). simpl.
  eapply wp_mono.
  { apply (wp_create_loop_frame c (want_transfer (m_disks w)) snd). }
  intros [] w2 e2 (Hk2 & Hl2 & Hf2). split_and!.
  - apply Forall_app. by split.
  - intros pre ri path h n d post Heq.
    apply app_eq_app in Heq as [k [[-> Heq]|[-> Heq]]].
    + destruct k as [|y k]; simpl in Heq.
      * destruct (Hl2 [] ri path h n d post) as [pre' Hpre']; [done|].
        by destruct pre'.
      * injection Heq as <- ->. by eapply Hl1.
    + destruct (Hl2 k ri path h n d post Heq) as [pre' ->].
      exists (e1 ++ pre'). by rewrite (assoc_L (++)).
  - intros Y f Hf. rewrite (Hf2 Y f Hf). by apply Hf1.
Qed.

(** X17. [prepare] only creates.  Its calls are creation log entries,
    [disk::create] calls and "logic error" entries, and each
    [disk::create] directly follows the log entry of its region and column
    count.  It leaves alone every disk object that existed before, the
    stop flag, the base path, both queues, the times of the last passes and
    the clock; it drops no disk and makes no maintenance call. *)
Theorem prepare_only_creates (c : configuration) (us : instance) (w : world) :
  let w' := run_state (prepare c us) w in
  let evs := run_events (prepare c us) w in
  (∀ e, e ∈ evs →
     match e with
     | EvLog INFO (MsgCreating _ _) | EvCreate _ _ _ _ _
     | EvLog ERROR MsgLogicError => True
     | _ => False
     end) ∧
  (∀ pre ri path h n d post, evs = pre ++ EvCreate ri path h n d :: post →
     ∃ pre', pre = pre' ++ [EvLog INFO (MsgCreating ri n)]) ∧
  (∀ d, d < next_ptr w → heap w' d = heap w d) ∧
  next_ptr w ≤ next_ptr w' ∧
  m_shutdown w' = m_shutdown w ∧
  m_base w' = m_base w ∧
  m_preallocate_rr w' = m_preallocate_rr w ∧
  m_optimistic_rr w' = m_optimistic_rr w ∧
  m_last_preallocation w' = m_last_preallocation w ∧
  m_last_dose_of_optimism w' = m_last_dose_of_optimism w ∧
  clock w' = clock w ∧ ticks w' = ticks w.
Proof.
  intros w' evs.
  destruct (wp_prepare_frame c us w) as (Hkind & Hlog & Hframe).
  fold w' evs in Hkind, Hlog, Hframe.
  destruct (prepare_run c us w) as (w1 & e1 & e2 & _ & H1 & H2).
  fold w' in H2.
  split_and!.
  - intros e He. by apply (proj1 (Forall_forall _ _) Hkind).
  - exact Hlog.
  - intros d Hd.
    pose proof (plp_next _ _ _ _ _ _ _ H1) as Hn1.
    rewrite (plp_heap _ _ _ _ _ _ _ H2) by lia.
    by apply (plp_heap _ _ _ _ _ _ _ H1).
  - pose proof (plp_next _ _ _ _ _ _ _ H1).
    pose proof (plp_next _ _ _ _ _ _ _ H2). lia.
  - by apply (Hframe _ m_shutdown).
  - by apply (Hframe _ m_base).
  - by apply (Hframe _ m_preallocate_rr).
  - by apply (Hframe _ m_optimistic_rr).
  - by apply (Hframe _ m_last_preallocation).
  - by apply (Hframe _ m_last_dose_of_optimism).
  - by apply (Hframe _ clock).
  - by apply (Hframe _ ticks).
Qed.
End prepare_frame.

(** ** One call per region and pass *)

Section pass_once.
Context `{HD : Hyperdisk}.

Section one_queue.
Variable ev : regionid → disk_ptr → returncode → event.
Variable failed : logmsg.
Hypothesis ev_inj : ∀ r d c r' d' c',
  ev r d c = ev r' d' c' → r = r' ∧ d = d' ∧ c = c'.
Hypothesis ev_not_log : ∀ r d c, ev r d c ≠ EvLog WARNING failed.

Lemma call_in_attempts (attempts : list attempt) r d c :
  ev r d c ∈ attempts ≫= attempt_events ev failed → (r, d, c) ∈ attempts.
Proof.
  intros ([[r' d'] c'] & Hin & Ha)%list_elem_of_bind.
  unfold attempt_events in Hin. cbn [fst snd] in Hin.
  apply elem_of_cons in Hin as [Hev|Hin].
  - apply ev_inj in Hev as (-> & -> & ->). done.
  - destruct c'; try (by apply elem_of_nil in Hin);
      apply list_elem_of_singleton in Hin; by apply ev_not_log in Hin.
Qed.

(** The attempts before and after a call of the pass. *)
Lemma attempt_split (attempts : list attempt) (rest pre post : list event)
    r d c :
  (attempts ≫= attempt_events ev failed) ++ rest = pre ++ ev r d c :: post →
  (∀ r' d' c', ev r' d' c' ∉ rest) →
  ∃ a1 a2, attempts = a1 ++ (r, d, c) :: a2 ∧
    (∀ r' d' c', ev r' d' c' ∈ pre → (r', d', c') ∈ a1) ∧
    (∀ r' d' c', ev r' d' c' ∈ post → (r', d', c') ∈ a2).
Proof.
  intros Heq Hrest. revert pre Heq.
  induction attempts as [|a attempts IH]; intros pre Heq.
  { simpl in Heq. destruct (Hrest r d c). rewrite Heq.
    apply elem_of_app. right. left. }
  rewrite bind_cons, <- (assoc_L (++)) in Heq.
  assert (∀ pre', (attempts ≫= attempt_events ev failed) ++ rest
                    = pre' ++ ev r d c :: post →
    (∀ r' d' c', ev r' d' c' ∈ pre → r' = a.1.1 ∧ d' = a.1.2 ∧ c' = a.2
                                     ∨ ev r' d' c' ∈ pre') →
    ∃ a1 a2, a :: attempts = a1 ++ (r, d, c) :: a2 ∧
      (∀ r' d' c', ev r' d' c' ∈ pre → (r', d', c') ∈ a1) ∧
      (∀ r' d' c', ev r' d' c' ∈ post → (r', d', c') ∈ a2)) as Hstep.
  { intros pre' Heq' Hpre.
    destruct (IH pre' Heq') as (a1 & a2 & -> & H1 & H2).
    exists (a :: a1), a2. split_and!; [done| |done].
    intros r' d' c' [(-> & -> & ->)|Hin]%Hpre.
    - destruct a as [[? ?] ?]. left.
    - right. by apply H1. }
  assert (∀ post', (attempts ≫= attempt_events ev failed) ++ rest = post' →
    (∀ r' d' c', ev r' d' c' ∈ post → ev r' d' c' ∈ post') →
    a = (r, d, c) →
    ∃ a1 a2, a :: attempts = a1 ++ (r, d, c) :: a2 ∧
      (∀ r' d' c', ev r' d' c' ∈ [] → (r', d', c') ∈ a1) ∧
      (∀ r' d' c', ev r' d' c' ∈ post → (r', d', c') ∈ a2)) as Hhere.
  { intros post' <- Hpost ->. exists [], attempts. split_and!; [done| |].
    - by intros ? ? ? ?%elem_of_nil.
    - intros r' d' c' [Hin|Hin]%Hpost%elem_of_app.
      + by apply call_in_attempts.
      + by apply Hrest in Hin. }
  destruct (attempt_events_cases ev failed a) as [[Hok Hae]|[[Hf1 Hf2] Hae]];
    rewrite Hae in Heq.
  - destruct pre as [|x pre]; simpl in Heq.
    + injection Heq as Hev Heq. apply ev_inj in Hev as (Hr & Hd & Hc).
      apply (Hhere post); [done|done|].
      destruct a as [[? ?] ?]. cbn in *. by subst.
    + injection Heq as <- Heq. apply (Hstep pre Heq).
      intros r' d' c' [Hev|Hin]%elem_of_cons; [|by right].
      left. by apply ev_inj in Hev.
  - destruct pre as [|x [|y pre]]; simpl in Heq.
    + injection Heq as Hev Heq. apply ev_inj in Hev as (Hr & Hd & Hc).
      apply (Hhere (removelast [EvLog WARNING failed] ++
                    (attempts ≫= attempt_events ev failed) ++ rest));
        [done| |destruct a as [[? ?] ?]; cbn in *; by subst].
      simpl. intros r' d' c'. rewrite <- Heq.
      intros [Hlog|Hin]%elem_of_cons; [by apply ev_not_log in Hlog|done].
    + injection Heq as <- Hlog _. symmetry in Hlog. by apply ev_not_log in Hlog.
    + injection Heq as <- <- Heq. apply (Hstep pre Heq).
      intros r' d' c' [Hev|[Hlog|Hin]%elem_of_cons]%elem_of_cons; [| |by right].
      * left. by apply ev_inj in Hev.
      * by apply ev_not_log in Hlog.
Qed.

Lemma call_once (disks : gmap regionid disk_ptr) (q : list regionid)
    (attempts : list attempt) (rest pre post : list event) r d c :
  NoDup q →
  attempts.*1 = hosted_of disks q →
  (attempts ≫= attempt_events ev failed) ++ rest = pre ++ ev r d c :: post →
  (∀ r' d' c', ev r' d' c' ∉ rest) →
  ∀ d' c', ev r d' c' ∉ pre ++ post.
Proof.
  intros Hnd Hatt Heq Hrest d' c' Hin.
  destruct (attempt_split attempts rest pre post r d c Heq Hrest)
    as (a1 & a2 & -> & H1 & H2).
  assert (NoDup ((a1 ++ (r, d, c) :: a2).*1).*1) as Hkeys.
  { rewrite Hatt, hosted_of_keys. by apply NoDup_filter. }
  rewrite !fmap_app, !fmap_cons in Hkeys. cbn [fst] in Hkeys.
  apply NoDup_app in Hkeys as (_ & Hdisj & [Hr _]%NoDup_cons).
  apply elem_of_app in Hin as [Hin%H1|Hin%H2].
  - apply (Hdisj r); [|left].
    apply (list_elem_of_fmap_2 fst _ (r, d')), (list_elem_of_fmap_2 fst _ (r, d', c')).
    done.
  - apply Hr.
    apply (list_elem_of_fmap_2 fst _ (r, d')), (list_elem_of_fmap_2 fst _ (r, d', c')).
    done.
Qed.
End one_queue.

Lemma NoDup_take_observe (keys q : list regionid) (k : nat) :
  NoDup q → NoDup (take k (observe keys q)).
Proof.
  intros Hnd. apply (sublist_NoDup _ (observe keys q)).
  - by apply NoDup_observe.
  - apply sublist_take.
Qed.

(** X18. While a queue holds no region twice, its pass serves no region
    twice in a round: a round makes at most one [preallocate] call and at
    most one [do_optimistic_io] call per region. *)
Theorem round_serves_region_once (w : world) :
  NoDup (m_preallocate_rr w) → NoDup (m_optimistic_rr w) →
  let evs := run_events flush_loop_body w in
  (∀ pre ri d c post, evs = pre ++ EvPreallocate ri d c :: post →
     ∀ d' c', EvPreallocate ri d' c' ∉ pre ++ post) ∧
  (∀ pre ri d c post, evs = pre ++ EvOptimisticIO ri d c :: post →
     ∀ d' c', EvOptimisticIO ri d' c' ∉ pre ++ post).
Proof.
  intros Hndp Hndo evs.
  destruct (flush_loop_body_run w)
    as (e_pre & e_opt & e_flush & s1 & s2 & s3 & Hevs & Hpre & Hopt &
        (blocks & Hblocks & ->) & _).
  fold evs in Hevs.
  assert (∀ e, e ∈ e_pre →
    (∃ r d c, e = EvPreallocate r d c)
    ∨ e = EvLog WARNING MsgPreallocationFailed) as Hpre_events.
  { intros e Hin.
    destruct (pass_post_events _ _ _ _ _ _ _ _ _ _ Hpre Hin)
      as [(r & d & c & -> & _)| ->]; eauto. }
  assert (∀ e, e ∈ e_opt →
    (∃ r d c, e = EvOptimisticIO r d c)
    ∨ e = EvLog WARNING MsgOptimisticFailed) as Hopt_events.
  { intros e Hin.
    destruct (pass_post_events _ _ _ _ _ _ _ _ _ _ Hopt Hin)
      as [(r & d & c & -> & _)| ->]; eauto. }
  pose proof (λ e, flush_events_kinds (m_disks w) blocks s3 e Hblocks)
    as Hflush_events.
  destruct Hpre as (kp & ap & _ & _ & _ & Hap & _ & Hep & _).
  destruct Hopt as (ko & ao & _ & _ & _ & Hao & _ & Heo & _).
  set (tail := concat blocks ++ (if s3 then [EvSleep 0 100] else [])) in *.
  split.
  - intros pre ri d c post Heq. rewrite Hevs, Hep in Heq.
    apply (call_once EvPreallocate MsgPreallocationFailed
             ltac:(by intros ? ? ? ? ? ? [=]) ltac:(done)
             _ _ _ _ _ _ _ _ _ (NoDup_take_observe _ _ _ Hndp) Hap Heq).
    intros r' d' c' [Hin|Hin]%elem_of_app.
    + by destruct (Hopt_events _ Hin) as [(? & ? & ? & [=])|[=]].
    + by apply Hflush_events in Hin.
  - intros pre ri d c post Heq. rewrite Hevs in Heq.
    apply app_skip_prefix in Heq as (pre' & -> & Heq).
    2:{ intros Hin. by destruct (Hpre_events _ Hin) as [(? & ? & ? & [=])|[=]]. }
    rewrite Heo in Heq.
    intros d' c' Hin.
    rewrite <- (assoc_L (++)) in Hin.
    apply elem_of_app in Hin as [Hin|Hin].
    { by destruct (Hpre_events _ Hin) as [(? & ? & ? & [=])|[=]]. }
    revert Hin.
    apply (call_once EvOptimisticIO MsgOptimisticFailed
             ltac:(by intros ? ? ? ? ? ? [=]) ltac:(done)
             _ _ _ _ _ _ _ _ _ (NoDup_take_observe _ _ _ Hndo) Hao Heq).
    intros r2 d2 c2 Hin. by apply Hflush_events in Hin.
Qed.
End pass_once.

Section replay_facts.
Context `{HD : Hyperdisk}.

Lemma replay_app (e1 e2 : list event) (h : disk_ptr → disk) :
  replay (e1 ++ e2) h =
    match replay e1 h with
    | Some h' => replay e2 h'
    | None => None
    end.
Proof.
  revert h. induction e1 as [|e e1 IH]; intros h; [done|].
  cbn [app replay]. by destruct (event_effect e h).
Qed.

Lemma replay_app_Some (e1 e2 : list event) (h h1 h2 : disk_ptr → disk) :
  replay e1 h = Some h1 → replay e2 h1 = Some h2 →
  replay (e1 ++ e2) h = Some h2.
Proof. intros H1 H2. by rewrite replay_app, H1. Qed.

Lemma checked_call_Some c d r h h' :
  checked_call c d r h = Some h' ↔ c = r.1 ∧ h' = <[d := r.2]> h.
Proof.
  unfold checked_call. case_decide; [|by split; [|intros [? _]]].
  split; [by intros [= <-]|by intros [_ ->]].
Qed.

Lemma checked_call_result d (r : returncode * disk) h :
  checked_call r.1 d r h = Some (<[d := r.2]> h).
Proof. by apply checked_call_Some. Qed.

Lemma replays_trans w w1 w2 e1 e2 :
  replays w w1 e1 → replays w1 w2 e2 → replays w w2 (e1 ++ e2).
Proof. apply replay_app_Some. Qed.

Section one_queue.
Variable queue : world → list regionid.
Variable set_queue : list regionid → world → world.
Variable op : disk → returncode * disk.
Variable ev : regionid → disk_ptr → returncode → event.
Variable failed : logmsg.
Hypothesis heap_set_queue : ∀ q w, heap (set_queue q w) = heap w.
Hypothesis ev_effect : ∀ r d c h,
  event_effect (ev r d c) h = checked_call c d (op (h d)) h.

Lemma wp_rotate_loop_replay fuel disks i sleep w :
  wp (rotate_loop queue set_queue op ev failed fuel disks i sleep) w
    (λ _ w' evs, replays w w' evs).
Proof.
  revert i w. induction fuel as [|fuel IH]; intros i w.
  { by apply wp_ret. }
  cbn [rotate_loop]. apply wp_bind, wp_gets.
  case_bool_decide as Hi; [|by apply wp_ret].
  destruct (queue w) as [|front rest] eqn:Hq; [by apply wp_ret|].
  apply wp_bind, wp_modify.
  destruct (disks !! front) as [d|] eqn:Hfront.
  2:{ eapply wp_mono; [apply IH|]. intros b w3 e3 Hrep. simpl.
      unfold replays in *. by rewrite heap_set_queue in Hrep. }
  apply wp_bind, wp_call, wp_bind, wp_emit.
  set (w1 := set_queue (rest ++ [front]) w).
  set (r := (op (heap w1 d)).1).
  set (w2 := set_heap _ w1).
  assert (replays w w2 [ev front d r]) as Hcall.
  { unfold replays. cbn [replay]. rewrite ev_effect.
    unfold r, w2, w1. rewrite !heap_set_queue.
    by rewrite checked_call_result. }
  assert (wp (rotate_loop queue set_queue op ev failed fuel disks (S i) sleep) w2
    (λ _ w3 e3, ∀ extra, (extra = [] ∨ extra = [EvLog WARNING failed]) →
       replays w w3 ([ev front d r] ++ extra ++ e3))) as Hrec.
  { eapply wp_mono; [apply IH|]. intros b w3 e3 Hrep extra Hextra.
    apply (replays_trans w w2 w3); [done|].
    apply (replays_trans w2 w2 w3); [|done].
    by destruct Hextra as [-> | ->]. }
  destruct r eqn:Hr.
  - apply wp_ret. simpl. exact Hcall.
  - eapply wp_mono; [apply Hrec|]. intros b w3 e3 Hpost. simpl.
    apply (Hpost []). by left.
  - apply wp_bind, wp_emit. eapply wp_mono; [apply Hrec|].
    intros b w3 e3 Hpost. simpl. apply (Hpost [_]). by right.
  - apply wp_bind, wp_emit. eapply wp_mono; [apply Hrec|].
    intros b w3 e3 Hpost. simpl. apply (Hpost [_]). by right.
  - apply wp_bind, wp_emit. eapply wp_mono; [apply Hrec|].
    intros b w3 e3 Hpost. simpl. apply (Hpost [_]). by right.
  - apply wp_bind, wp_emit. eapply wp_mono; [apply Hrec|].
    intros b w3 e3 Hpost. simpl. apply (Hpost [_]). by right.
Qed.

Lemma wp_phase_replay (last : Z → world → world) disks (due : bool) sleep w :
  (∀ t w, heap (last t w) = heap w) →
  wp (if due then
        bind (rotate queue set_queue op ev failed disks sleep) (λ sleep,
          bind e_time (λ now,
            bind (modify (last now)) (λ _, ret sleep)))
      else ret sleep) w
    (λ _ w' evs, replays w w' evs).
Proof.
  intros Hlast. destruct due; [|by apply wp_ret].
  apply wp_bind. unfold rotate. apply wp_bind, wp_gets.
  eapply wp_mono; [apply wp_rotate_loop_replay|].
  intros b w1 e1 Hrep. simpl.
  apply wp_bind, wp_e_time, wp_bind, wp_modify, wp_ret.
  rewrite !app_nil_r. unfold replays in *. by rewrite Hlast.
Qed.
End one_queue.

Lemma wp_flush_disk_replay (i : regionid * disk_ptr) sleep w :
  wp (flush_disk i sleep) w (λ _ w' evs, replays w w' evs).
Proof.
  unfold flush_disk. apply wp_bind, wp_call, wp_bind, wp_emit.
  set (w1 := set_heap _ w).
  assert (replays w w1 [EvFlush i.1 i.2 10000 (disk_flush 10000 (heap w i.2)).1])
    as Hflush.
  { unfold replays. cbn [replay event_effect].
    by rewrite checked_call_result. }
  assert (∀ w2 e, replays w1 w2 e →
    replays w w2 ([] ++ [EvFlush i.1 i.2 10000 (disk_flush 10000 (heap w i.2)).1]
                 ++ e)) as Hthen.
  { intros w2 e He. apply (replays_trans w w1 w2 [_] e); done. }
  assert (wp (let* ioret := call i.2 disk_do_mandatory_io in
              emit (EvMandatoryIO i.1 i.2 ioret) >>
              (if bool_decide (ioret ≠ SUCCESS) && bool_decide (ioret ≠ DIDNOTHING)
               then emit (EvLog ERROR (MsgDiskIOReturned ioret))
               else ret tt) >>
              ret sleep) w1
            (λ _ w2 e, replays w1 w2 e)) as Hio.
  { apply wp_bind, wp_call, wp_bind, wp_emit, wp_bind.
    set (w2 := set_heap _ w1).
    assert (replays w1 w2
              [EvMandatoryIO i.1 i.2 (disk_do_mandatory_io (heap w1 i.2)).1])
      as Hcall.
    { unfold replays. cbn [replay event_effect].
      by rewrite checked_call_result. }
    destruct (_ && _); [apply wp_emit, wp_ret|apply wp_ret, wp_ret];
      unfold replays; cbn [app replay event_effect];
      by rewrite checked_call_result. }
  destruct (disk_flush 10000 (heap w i.2)).1 eqn:Hret.
  - apply wp_ret. exact Hflush.
  - apply wp_ret. exact Hflush.
  - eapply wp_mono; [apply Hio|]. intros b w2 e He. by apply Hthen.
  - eapply wp_mono; [apply Hio|]. intros b w2 e He. by apply Hthen.
  - apply wp_bind, wp_emit, wp_ret.
    apply (replays_trans w w1 w1 [_] [_]); [exact Hflush|done].
  - apply wp_bind, wp_emit, wp_ret.
    apply (replays_trans w w1 w1 [_] [_]); [exact Hflush|done].
Qed.

Lemma wp_flush_pass_replay (disks : gmap regionid disk_ptr) sleep w :
  wp (flush_pass disks sleep) w (λ _ w' evs, replays w w' evs).
Proof.
  unfold flush_pass.
  apply (wp_for_each_with flush_disk (λ _ _ w' evs, replays w w' evs));
    [done|].
  intros vis x s1 w1 e1 Hrep.
  eapply wp_mono; [apply wp_flush_disk_replay|].
  intros s2 w2 e2 He. by apply (replays_trans w w1 w2).
Qed.

(** The trace of a round records real calls: every return code in it is
    the one the disk's function gave on the disk object of the moment, and
    the disk objects after the round are those the calls leave. *)
Lemma wp_flush_loop_body_replay w :
  wp flush_loop_body w (λ _ w' evs, replays w w' evs).
Proof.
  unfold flush_loop_body. cbv zeta.
  apply wp_bind, wp_gets, wp_bind.
  eapply wp_mono; [apply wp_observe_regions|].
  intros [] w1 e1 [-> ->]. cbv zeta.
  apply wp_bind, wp_e_time, wp_bind, wp_gets, wp_bind.
  eapply wp_mono.
  { apply (wp_phase_replay m_preallocate_rr set_preallocate_rr disk_preallocate
             EvPreallocate MsgPreallocationFailed); done. }
  intros sleep1 w2 e_pre Hpre. simpl.
  apply wp_bind, wp_e_time, wp_bind, wp_gets, wp_bind.
  eapply wp_mono.
  { apply (wp_phase_replay m_optimistic_rr set_optimistic_rr
             disk_do_optimistic_io EvOptimisticIO MsgOptimisticFailed); done. }
  intros sleep2 w3 e_opt Hopt. simpl.
  apply wp_bind. eapply wp_mono; [apply wp_flush_pass_replay|].
  intros sleep3 w4 e_flush Hflush. simpl.
  assert (replays w w4 (e_pre ++ e_opt ++ e_flush)) as Hrep.
  { unfold replays in *. cbn [heap set_ticks set_optimistic_rr
      set_preallocate_rr] in *.
    eapply replay_app_Some; [exact Hpre|].
    eapply replay_app_Some; [exact Hopt|exact Hflush]. }
  destruct sleep3; [apply wp_emit|apply wp_ret].
  - unfold replays in *. rewrite !(assoc_L (++)).
    eapply replay_app_Some; [|done]. by rewrite <- !(assoc_L (++)).
  - by rewrite app_nil_r.
Qed.

Lemma round_replay (w : world) :
  replay (run_events flush_loop_body w) (heap w)
    = Some (heap (run_state flush_loop_body w)).
Proof. apply (wp_flush_loop_body_replay w). Qed.
End replay_facts.

Section flush_walk_facts.
Context `{HD : Hyperdisk}.

Lemma wp_flush_disk_at (i : regionid * disk_ptr) sleep w :
  wp (flush_disk i sleep) w (λ _ _ evs, evs = flush_block_at i.1 i.2 (heap w)).
Proof.
  unfold flush_disk, flush_block_at. cbv zeta.
  apply wp_bind, wp_call, wp_bind, wp_emit.
  set (w1 := set_heap _ w).
  assert (heap w1 i.2 = (disk_flush 10000 (heap w i.2)).2) as Ho.
  { unfold w1. cbn. by rewrite fn_lookup_insert. }
  destruct (disk_flush 10000 (heap w i.2)).1 eqn:Hret; cbn.
  - by apply wp_ret.
  - by apply wp_ret.
  - apply wp_bind, wp_call, wp_bind, wp_emit, wp_bind. rewrite Ho.
    destruct (disk_do_mandatory_io _).1 eqn:Hio; cbn;
      repeat first [apply wp_ret|apply wp_emit]; done.
  - apply wp_bind, wp_call, wp_bind, wp_emit, wp_bind. rewrite Ho.
    destruct (disk_do_mandatory_io _).1 eqn:Hio; cbn;
      repeat first [apply wp_ret|apply wp_emit]; done.
  - by apply wp_bind, wp_emit, wp_ret.
  - by apply wp_bind, wp_emit, wp_ret.
Qed.

(** The last loop of a round, block by block. *)
Lemma wp_flush_pass_at (disks : gmap regionid disk_ptr) sleep w :
  wp (flush_pass disks sleep) w (λ _ w' evs,
    replays w w' evs ∧
    ∃ blocks,
      evs = concat blocks ∧
      length blocks = length (map_elements regionid_compare disks) ∧
      ∀ j ri d, map_elements regionid_compare disks !! j = Some (ri, d) →
        ∃ h, replay (concat (take j blocks)) (heap w) = Some h ∧
             blocks !! j = Some (flush_block_at ri d h)).
Proof.
  unfold flush_pass.
  apply (wp_for_each_with flush_disk (λ vis _ w' evs,
    replays w w' evs ∧
    ∃ blocks,
      evs = concat blocks ∧ length blocks = length vis ∧
      ∀ j ri d, vis !! j = Some (ri, d) →
        ∃ h, replay (concat (take j blocks)) (heap w) = Some h ∧
             blocks !! j = Some (flush_block_at ri d h))).
  { split; [done|]. exists []. split_and!; [done..|]. by intros [|?] ? ?. }
  intros vis [ri d] s1 w1 e1 (Hrep & blocks & -> & Hlen & Hblocks).
  eapply wp_mono.
  { apply wp_and; [apply wp_flush_disk_replay|apply wp_flush_disk_at]. }
  intros s2 w2 e2 [He ->]. split; [by apply (replays_trans w w1 w2)|].
  exists (blocks ++ [flush_block_at ri d (heap w1)]). split_and!.
  - rewrite concat_app. simpl. by rewrite app_nil_r.
  - rewrite !length_app. simpl. lia.
  - intros j r' d' Hj.
    destruct (decide (j < length vis)%nat) as [Hlt|Hge].
    + rewrite lookup_app_l in Hj by done.
      destruct (Hblocks j r' d' Hj) as (h & Hh & Hb).
      exists h. split.
      * by rewrite take_app_le by lia.
      * rewrite lookup_app_l by lia. done.
    + assert (j = length vis) as ->.
      { apply lookup_lt_Some in Hj. rewrite length_app in Hj. simpl in Hj. lia. }
      rewrite lookup_app_r, Nat.sub_diag in Hj by lia. injection Hj as <- <-.
      exists (heap w1). split.
      * rewrite take_app_le, take_ge by lia. exact Hrep.
      * rewrite lookup_app_r, Hlen, Nat.sub_diag by lia. done.
Qed.
End flush_walk_facts.

Section flush_walk_claim.
Context `{HD : Hyperdisk}.

Lemma mandatory_io_in_block (ri : regionid) (d : disk_ptr)
    (h : disk_ptr → disk) :
  (∃ ioret, EvMandatoryIO ri d ioret ∈ flush_block_at ri d h)
  ↔ (disk_flush 10000 (h d)).1 = DATAFULL
    ∨ (disk_flush 10000 (h d)).1 = SEARCHFULL.
Proof.
  unfold flush_block_at. cbv zeta. case_bool_decide as Hfull.
  - split; [done|]. intros _. eexists. right. left.
  - split; [|done]. intros [ioret Hin].
    apply elem_of_cons in Hin as [[=]|Hin].
    case_bool_decide; [by apply elem_of_nil in Hin|].
    by apply list_elem_of_singleton in Hin.
Qed.

Lemma wp_flush_loop_body_walk w :
  wp flush_loop_body w (λ _ _ evs,
    ∃ before blocks after,
      evs = before ++ concat blocks ++ after ∧
      length blocks = length (map_elements regionid_compare (m_disks w)) ∧
      (∀ j ri d,
         map_elements regionid_compare (m_disks w) !! j = Some (ri, d) →
         ∃ h, replay (before ++ concat (take j blocks)) (heap w) = Some h ∧
              blocks !! j = Some (flush_block_at ri d h)) ∧
      (∀ e, e ∈ before ++ after →
         match e with
         | EvFlush _ _ _ _ | EvMandatoryIO _ _ _ => False
         | _ => True
         end)).
Proof.
  unfold flush_loop_body. cbv zeta.
  apply wp_bind, wp_gets, wp_bind.
  eapply wp_mono; [apply wp_observe_regions|].
  intros [] w1 e1 [-> ->]. cbv zeta.
  apply wp_bind, wp_e_time, wp_bind, wp_gets, wp_bind.
  eapply wp_mono.
  { apply wp_and; [apply wp_preallocate_phase|].
    apply (wp_phase_replay m_preallocate_rr set_preallocate_rr disk_preallocate
             EvPreallocate MsgPreallocationFailed); done. }
  intros sleep1 w2 e_pre [(Hpre & _) Hrep1]. simpl.
  apply wp_bind, wp_e_time, wp_bind, wp_gets, wp_bind.
  eapply wp_mono.
  { apply wp_and; [apply wp_optimistic_phase|].
    apply (wp_phase_replay m_optimistic_rr set_optimistic_rr
             disk_do_optimistic_io EvOptimisticIO MsgOptimisticFailed); done. }
  intros sleep2 w3 e_opt [(Hopt & _) Hrep2]. simpl.
  apply wp_bind. eapply wp_mono; [apply wp_flush_pass_at|].
  intros sleep3 w4 e_flush (_ & blocks & -> & Hlen & Hblocks). simpl.
  assert (replay (e_pre ++ e_opt) (heap w) = Some (heap w3)) as Hbefore.
  { unfold replays in *. cbn [heap set_ticks set_optimistic_rr
      set_preallocate_rr] in *.
    eapply replay_app_Some; [exact Hrep1|exact Hrep2]. }
  assert (∀ e, e ∈ e_pre ++ e_opt →
            match e with
            | EvFlush _ _ _ _ | EvMandatoryIO _ _ _ => False
            | _ => True
            end) as Hkinds.
  { intros e [Hin|Hin]%elem_of_app.
    - by destruct (pass_post_events _ _ _ _ _ _ _ _ _ _ Hpre Hin)
        as [(r & d & c & -> & _)| ->].
    - by destruct (pass_post_events _ _ _ _ _ _ _ _ _ _ Hopt Hin)
        as [(r & d & c & -> & _)| ->]. }
  assert (∀ after, (after = [] ∨ after = [EvSleep 0 100]) →
    ∃ before blocks0 after0,
      e_pre ++ e_opt ++ concat blocks ++ after
        = before ++ concat blocks0 ++ after0 ∧
      length blocks0 = length (map_elements regionid_compare (m_disks w)) ∧
      (∀ j ri d,
         map_elements regionid_compare (m_disks w) !! j = Some (ri, d) →
         ∃ h, replay (before ++ concat (take j blocks0)) (heap w) = Some h ∧
              blocks0 !! j = Some (flush_block_at ri d h)) ∧
      (∀ e, e ∈ before ++ after0 →
         match e with
         | EvFlush _ _ _ _ | EvMandatoryIO _ _ _ => False
         | _ => True
         end)) as Hpost.
  { intros after Hafter. exists (e_pre ++ e_opt), blocks, after. split_and!.
    - by rewrite <- (assoc_L (++)).
    - exact Hlen.
    - intros j ri d Hj. destruct (Hblocks j ri d Hj) as (h & Hh & Hb).
      exists h. split; [|done]. by rewrite replay_app, Hbefore.
    - intros e [Hin|Hin]%elem_of_app; [by apply Hkinds|].
      destruct Hafter as [-> | ->]; [by apply elem_of_nil in Hin|].
      by apply list_elem_of_singleton in Hin as ->. }
  destruct sleep3; [apply wp_emit|apply wp_ret].
  - apply Hpost. by right.
  - rewrite (app_nil_r (concat blocks)), <- (app_nil_r (concat blocks)).
    apply Hpost. by left.
Qed.

(** C3. In one round the last loop makes its calls in one block per disk
    of the snapshot, in the order of the map and whatever the calls
    return.  The block of a disk starts with [flush]; its return code is
    the one [disk_flush] gives on the disk object as the earlier calls of
    the round left it.  [do_mandatory_io] is called in the block exactly
    when that return code is DATAFULL or SEARCHFULL, on the object [flush]
    left, and an error is logged when it returns neither SUCCESS nor
    DIDNOTHING; the walk then goes on with the next disk.  Outside these
    blocks the round calls neither [flush] nor [do_mandatory_io], and the
    disk objects after the round are those the recorded calls leave. *)
Theorem mandatory_io_iff_flush_full (w : world) :
  let w' := run_state flush_loop_body w in
  let disks := map_elements regionid_compare (m_disks w) in
  ∃ before blocks after,
    run_events flush_loop_body w = before ++ concat blocks ++ after ∧
    length blocks = length disks ∧
    (∀ j ri d, disks !! j = Some (ri, d) →
       ∃ h, replay (before ++ concat (take j blocks)) (heap w) = Some h ∧
            blocks !! j = Some (flush_block_at ri d h) ∧
            ((∃ ioret, EvMandatoryIO ri d ioret ∈ flush_block_at ri d h)
             ↔ (disk_flush 10000 (h d)).1 = DATAFULL
               ∨ (disk_flush 10000 (h d)).1 = SEARCHFULL)) ∧
    (∀ e, e ∈ before ++ after →
       match e with
       | EvFlush _ _ _ _ | EvMandatoryIO _ _ _ => False
       | _ => True
       end) ∧
    replay (run_events flush_loop_body w) (heap w) = Some (heap w').
Proof.
  intros w' disks.
  destruct (wp_flush_loop_body_walk w)
    as (before & blocks & after & Hevs & Hlen & Hblocks & Hout).
  exists before, blocks, after. split_and!; [done..| |done|apply round_replay].
  intros j ri d Hj. destruct (Hblocks j ri d Hj) as (h & Hh & Hb).
  exists h. split_and!; [done..|]. apply mandatory_io_in_block.
Qed.
End flush_walk_claim.

Section real_calls.
Context `{HD : Hyperdisk}.

(** A call recorded in the trace of a round is a call the round makes on
    the disk object. *)
Lemma event_is_call (w : world) (ev : returncode → event)
    (op : disk → returncode * disk) (d : disk_ptr) (c : returncode) :
  (∀ c h, event_effect (ev c) h = checked_call c d (op (h d)) h) →
  ev c ∈ run_events flush_loop_body w →
  round_calls w ev op d.
Proof.
  intros Hev Hin. apply list_elem_of_split in Hin as (pre & post & Heq).
  pose proof (round_replay w) as Hrep. rewrite Heq, replay_app in Hrep.
  destruct (replay pre (heap w)) as [h|] eqn:Hpre; [|done].
  cbn [replay] in Hrep. rewrite Hev in Hrep.
  destruct (checked_call c d (op (h d)) h) as [h1|] eqn:Hcall; [|done].
  apply checked_call_Some in Hcall as [-> ->].
  by exists pre, post, h.
Qed.

Lemma fairness_by_position_at hosted w traces :
  preallocation_windows hosted w traces →
  ∀ (j : nat) ri,
    observe (region_keys (m_disks w)) (m_preallocate_rr w) !! j = Some ri →
    ri ∈ hosted → (j < length traces)%nat →
    ∃ wi d, run_events flush_loop_body wi ∈ traces ∧
            dom (m_disks wi) = hosted ∧ preallocation_due wi = true ∧
            m_disks wi !! ri = Some d ∧
            round_calls wi (EvPreallocate ri d) disk_preallocate d.
Proof.
  induction 1 as [w Hdom|w w_next traces Hdom Hdue Hnext Hrest IH];
    intros j ri Hj Hri Hlen; [simpl in Hlen; lia|].
  destruct (round_preallocation w) as (k & Hk & _ & Hprog & Hq & Hatt & _).
  set (q := observe (region_keys (m_disks w)) (m_preallocate_rr w)) in *.
  assert (1 ≤ k)%nat as Hk1.
  { apply Hprog; [done|]. intros Hnil. by rewrite Hnil in Hj. }
  destruct (decide (j < k)%nat) as [Hjk|Hjk].
  - assert (ri ∈ dom (m_disks w)) as [d Hd]%elem_of_dom by by rewrite Hdom.
    destruct (Hatt ri d) as [code Hcode]; [|done|].
    { apply elem_of_take. eauto. }
    exists w, d. split_and!; [left|done..|].
    by apply (event_is_call w (EvPreallocate ri d) disk_preallocate d code).
  - destruct (IH (j - k)%nat ri) as (wi & d & Hin & Hrest');
      [|done|simpl in Hlen; lia|].
    + destruct (observe_prefix (region_keys (m_disks w_next))
                  (m_preallocate_rr w_next)) as [new ->].
      rewrite Hnext, Hq. apply lookup_app_l_Some, lookup_app_l_Some.
      rewrite lookup_drop. by replace (k + (j - k))%nat with j by lia.
    + exists wi, d. split; [by right|done].
Qed.

(** C6 (as amended). When the preallocation queue holds no stale entry
    (every queued region is hosted; the queue never holds a region twice),
    then over N consecutive preallocation windows during which the hosted
    regions do not change, with N at least the number of hosted regions,
    every hosted region has [preallocate] called on its disk at least
    once: one of the windows is a round, started in a state [wi], that
    applies [disk_preallocate] to the disk object of the region, records
    the return code the disk gave and leaves the object the call
    returned. *)
Theorem preallocation_fairness (hosted : gset regionid) (w : world)
    (traces : list (list event)) :
  preallocation_windows hosted w traces →
  NoDup (m_preallocate_rr w) →
  (∀ ri, ri ∈ m_preallocate_rr w → ri ∈ hosted) →
  (size hosted ≤ length traces)%nat →
  ∀ ri, ri ∈ hosted →
    ∃ wi d, run_events flush_loop_body wi ∈ traces ∧
            dom (m_disks wi) = hosted ∧ preallocation_due wi = true ∧
            m_disks wi !! ri = Some d ∧
            round_calls wi (EvPreallocate ri d) disk_preallocate d.
Proof.
  intros Hwin Hnd Hsub Hlen ri Hri.
  pose proof (windows_hosted _ _ _ Hwin) as Hdom.
  assert (ri ∈ observe (region_keys (m_disks w)) (m_preallocate_rr w)) as Hin.
  { apply elem_of_observe. right. apply elem_of_region_keys.
    by rewrite Hdom. }
  apply list_elem_of_lookup in Hin as [j Hj].
  apply (fairness_by_position_at hosted w traces Hwin j ri Hj Hri).
  apply lookup_lt_Some in Hj.
  rewrite observe_length_no_stale in Hj; [by rewrite Hdom in Hj; lia|done|].
  intros r Hr. rewrite Hdom. by apply Hsub.
Qed.
End real_calls.

Example busy_windows :
  m_disks busy_window_1 = {[ region_a := 0; region_b := 1; region_c := 2 ]} ∧
  m_preallocate_rr busy_window_1 = [region_b; region_c; region_a] ∧
  m_optimistic_rr busy_window_1 = [region_b; region_c; region_a] ∧
  m_preallocate_rr busy_window_2 = [region_c; region_a; region_b] ∧
  m_optimistic_rr busy_window_2 = [region_c; region_a; region_b] ∧
  preallocation_due busy_window_1 = true ∧
  preallocation_due busy_window_2 = true ∧
  preallocation_due busy_window_3 = true ∧
  optimism_due busy_window_1 = true ∧
  optimism_due busy_window_2 = true ∧
  optimism_due busy_window_3 = true.
Proof. split_and!; vm_compute; reflexivity. Qed.

Example busy_windows_traces :
  run_events flush_loop_body busy_window_1 =
    [@EvPreallocate scripted region_b 1 SUCCESS;
     EvOptimisticIO region_b 1 SUCCESS;
     EvFlush region_a 0 10000 SUCCESS; EvFlush region_b 1 10000 SUCCESS;
     EvFlush region_c 2 10000 SUCCESS] ∧
  run_events flush_loop_body busy_window_2 =
    [@EvPreallocate scripted region_c 2 SUCCESS;
     EvOptimisticIO region_c 2 SUCCESS;
     EvFlush region_a 0 10000 SUCCESS; EvFlush region_b 1 10000 SUCCESS;
     EvFlush region_c 2 10000 SUCCESS] ∧
  run_events flush_loop_body busy_window_3 =
    [@EvPreallocate scripted region_a 0 SUCCESS;
     EvOptimisticIO region_a 0 SUCCESS;
     EvFlush region_a 0 10000 SUCCESS; EvFlush region_b 1 10000 SUCCESS;
     EvFlush region_c 2 10000 SUCCESS].
Proof. split_and!; vm_compute; reflexivity. Qed.

Lemma busy_windows_hosted :
  dom (m_disks busy_window_1) = ({[ region_a; region_b; region_c ]} : gset regionid) ∧
  dom (m_disks busy_window_2) = ({[ region_a; region_b; region_c ]} : gset regionid) ∧
  dom (m_disks busy_window_3) = ({[ region_a; region_b; region_c ]} : gset regionid) ∧
  dom (m_disks (run_state flush_loop_body busy_window_3))
    = ({[ region_a; region_b; region_c ]} : gset regionid) ∧
  size ({[ region_a; region_b; region_c ]} : gset regionid) = 3%nat.
Proof.
  destruct busy_windows as (Hdisks & _).
  assert (dom (m_disks busy_window_1)
          = ({[ region_a; region_b; region_c ]} : gset regionid)) as H1.
  { rewrite Hdisks, !dom_insert_L, dom_singleton_L.
    by rewrite (assoc_L (∪)). }
  unfold busy_window_3, busy_window_2.
  rewrite !(round_untouched m_disks _ untouched_m_disks).
  split_and!; [done..|].
  rewrite <- H1, size_dom, Hdisks.
  rewrite !map_size_insert_None, map_size_singleton; [done|..];
    by vm_compute.
Qed.

Lemma preallocation_fairness_witness :
  let hosted : gset regionid := {[ region_a; region_b; region_c ]} in
  let traces := [run_events flush_loop_body busy_window_1;
                 run_events flush_loop_body busy_window_2;
                 run_events flush_loop_body busy_window_3] in
  preallocation_windows hosted busy_window_1 traces ∧
  NoDup (m_preallocate_rr busy_window_1) ∧
  (∀ ri, ri ∈ m_preallocate_rr busy_window_1 → ri ∈ hosted) ∧
  (size hosted ≤ length traces)%nat ∧
  ∀ ri, ri ∈ hosted →
    ∃ wi d, run_events flush_loop_body wi ∈ traces ∧
            dom (m_disks wi) = hosted ∧ preallocation_due wi = true ∧
            m_disks wi !! ri = Some d ∧
            round_calls wi (EvPreallocate ri d) disk_preallocate d.
Proof.
  intros hosted traces.
  destruct busy_windows as (Hdisks & Hq & _ & _ & _ & Hd1 & Hd2 & Hd3 & _).
  destruct busy_windows_hosted as (H1 & H2 & H3 & H4 & Hsize).
  assert (preallocation_windows hosted busy_window_1 traces) as Hwin.
  { apply windows_cons with (w_next := busy_window_2); [done..|].
    apply windows_cons with (w_next := busy_window_3); [done..|].
    apply windows_cons
      with (w_next := run_state flush_loop_body busy_window_3); [done..|].
    by apply windows_nil. }
  assert (NoDup (m_preallocate_rr busy_window_1)) as Hnd.
  { rewrite Hq. apply (bool_decide_unpack _). by vm_compute. }
  assert (∀ ri, ri ∈ m_preallocate_rr busy_window_1 → ri ∈ hosted) as Hsub.
  { intros ri. rewrite Hq. unfold hosted.
    rewrite !elem_of_cons, elem_of_nil, !elem_of_union, !elem_of_singleton.
    tauto. }
  assert (size hosted ≤ length traces)%nat as Hlen.
  { unfold hosted. rewrite Hsize. simpl. lia. }
  split_and!; [exact Hwin|exact Hnd|exact Hsub|exact Hlen|].
  exact (preallocation_fairness hosted busy_window_1 traces Hwin Hnd Hsub Hlen).
Defined.

Section optimistic_real_calls.
Context `{HD : Hyperdisk}.

Lemma optimistic_fairness_by_position_at hosted w traces :
  optimistic_windows hosted w traces →
  ∀ (j : nat) ri,
    observe (region_keys (m_disks w)) (m_optimistic_rr w) !! j = Some ri →
    ri ∈ hosted → (j < length traces)%nat →
    ∃ wi d, run_events flush_loop_body wi ∈ traces ∧
            dom (m_disks wi) = hosted ∧ optimism_due wi = true ∧
            m_disks wi !! ri = Some d ∧
            round_calls wi (EvOptimisticIO ri d) disk_do_optimistic_io d.
Proof.
  induction 1 as [w Hdom|w w_next traces Hdom Hdue Hnext Hrest IH];
    intros j ri Hj Hri Hlen; [simpl in Hlen; lia|].
  destruct (round_optimism_attempts w) as (k & Hprog & Hq & Hatt).
  set (q := observe (region_keys (m_disks w)) (m_optimistic_rr w)) in *.
  assert (1 ≤ k)%nat as Hk1.
  { apply Hprog; [done|]. intros Hnil. by rewrite Hnil in Hj. }
  destruct (decide (j < k)%nat) as [Hjk|Hjk].
  - assert (ri ∈ dom (m_disks w)) as [d Hd]%elem_of_dom by by rewrite Hdom.
    destruct (Hatt ri d) as [code Hcode]; [|done|].
    { apply elem_of_take. eauto. }
    exists w, d. split_and!; [left|done..|].
    by apply (event_is_call w (EvOptimisticIO ri d) disk_do_optimistic_io
                d code).
  - destruct (IH (j - k)%nat ri) as (wi & d & Hin & Hrest');
      [|done|simpl in Hlen; lia|].
    + destruct (observe_prefix (region_keys (m_disks w_next))
                  (m_optimistic_rr w_next)) as [new ->].
      rewrite Hnext, Hq. apply lookup_app_l_Some, lookup_app_l_Some.
      rewrite lookup_drop. by replace (k + (j - k))%nat with j by lia.
    + exists wi, d. split; [by right|done].
Qed.

(** X15. The optimistic queue is served as fairly as the preallocation
    queue.  When it holds no stale entry and no region twice, then over N
    consecutive rounds that run the optimistic pass while the hosted
    regions do not change, with N at least the number of hosted regions,
    every hosted region has [do_optimistic_io] called on its disk at least
    once: one of these rounds, started in a state [wi], applies
    [disk_do_optimistic_io] to the disk object of the region, records the
    return code the disk gave and leaves the object the call returned. *)
Theorem optimistic_io_fairness (hosted : gset regionid) (w : world)
    (traces : list (list event)) :
  optimistic_windows hosted w traces →
  NoDup (m_optimistic_rr w) →
  (∀ ri, ri ∈ m_optimistic_rr w → ri ∈ hosted) →
  (size hosted ≤ length traces)%nat →
  ∀ ri, ri ∈ hosted →
    ∃ wi d, run_events flush_loop_body wi ∈ traces ∧
            dom (m_disks wi) = hosted ∧ optimism_due wi = true ∧
            m_disks wi !! ri = Some d ∧
            round_calls wi (EvOptimisticIO ri d) disk_do_optimistic_io d.
Proof.
  intros Hwin Hnd Hsub Hlen ri Hri.
  pose proof (optimistic_windows_hosted _ _ _ Hwin) as Hdom.
  assert (ri ∈ observe (region_keys (m_disks w)) (m_optimistic_rr w)) as Hin.
  { apply elem_of_observe. right. apply elem_of_region_keys.
    by rewrite Hdom. }
  apply list_elem_of_lookup in Hin as [j Hj].
  apply (optimistic_fairness_by_position_at hosted w traces Hwin j ri Hj Hri).
  apply lookup_lt_Some in Hj.
  rewrite observe_length_no_stale in Hj; [by rewrite Hdom in Hj; lia|done|].
  intros r Hr. rewrite Hdom. by apply Hsub.
Qed.
End optimistic_real_calls.

Lemma optimistic_io_fairness_witness :
  let hosted : gset regionid := {[ region_a; region_b; region_c ]} in
  let traces := [run_events flush_loop_body busy_window_1;
                 run_events flush_loop_body busy_window_2;
                 run_events flush_loop_body busy_window_3] in
  optimistic_windows hosted busy_window_1 traces ∧
  NoDup (m_optimistic_rr busy_window_1) ∧
  (∀ ri, ri ∈ m_optimistic_rr busy_window_1 → ri ∈ hosted) ∧
  (size hosted ≤ length traces)%nat ∧
  ∀ ri, ri ∈ hosted →
    ∃ wi d, run_events flush_loop_body wi ∈ traces ∧
            dom (m_disks wi) = hosted ∧ optimism_due wi = true ∧
            m_disks wi !! ri = Some d ∧
            round_calls wi (EvOptimisticIO ri d) disk_do_optimistic_io d.
Proof.
  intros hosted traces.
  destruct busy_windows
    as (Hdisks & _ & Hq & _ & _ & _ & _ & _ & Hd1 & Hd2 & Hd3).
  destruct busy_windows_hosted as (H1 & H2 & H3 & H4 & Hsize).
  assert (optimistic_windows hosted busy_window_1 traces) as Hwin.
  { apply optimistic_windows_cons with (w_next := busy_window_2); [done..|].
    apply optimistic_windows_cons with (w_next := busy_window_3); [done..|].
    apply optimistic_windows_cons
      with (w_next := run_state flush_loop_body busy_window_3); [done..|].
    by apply optimistic_windows_nil. }
  assert (NoDup (m_optimistic_rr busy_window_1)) as Hnd.
  { rewrite Hq. apply (bool_decide_unpack _). by vm_compute. }
  assert (∀ ri, ri ∈ m_optimistic_rr busy_window_1 → ri ∈ hosted) as Hsub.
  { intros ri. rewrite Hq. unfold hosted.
    rewrite !elem_of_cons, elem_of_nil, !elem_of_union, !elem_of_singleton.
    tauto. }
  assert (size hosted ≤ length traces)%nat as Hlen.
  { unfold hosted. rewrite Hsize. simpl. lia. }
  split_and!; [exact Hwin|exact Hnd|exact Hsub|exact Hlen|].
  exact (optimistic_io_fairness hosted busy_window_1 traces Hwin Hnd Hsub Hlen).
Defined.

Example hosting_abc_second_round :
  run_events flush_loop_body hosting_abc_after_round =
    [@EvPreallocate scripted region_a 0 DIDNOTHING;
     EvPreallocate region_b 1 DIDNOTHING; EvPreallocate region_c 2 DIDNOTHING;
     EvOptimisticIO region_a 0 DIDNOTHING; EvOptimisticIO region_b 1 DIDNOTHING;
     EvOptimisticIO region_c 2 DIDNOTHING;
     EvFlush region_a 0 10000 DIDNOTHING; EvFlush region_b 1 10000 DIDNOTHING;
     EvFlush region_c 2 10000 DIDNOTHING; EvSleep 0 100].
Proof. vm_compute. reflexivity. Qed.

Lemma round_serves_region_once_witness :
  NoDup (m_preallocate_rr hosting_abc_after_round) ∧
  NoDup (m_optimistic_rr hosting_abc_after_round) ∧
  let evs := run_events flush_loop_body hosting_abc_after_round in
  (∀ pre ri d c post, evs = pre ++ @EvPreallocate scripted ri d c :: post →
     ∀ d' c', EvPreallocate ri d' c' ∉ pre ++ post) ∧
  (∀ pre ri d c post, evs = pre ++ @EvOptimisticIO scripted ri d c :: post →
     ∀ d' c', EvOptimisticIO ri d' c' ∉ pre ++ post).
Proof.
  destruct hosting_abc_after_round_queues as (Hqp & Hqo).
  assert (NoDup (m_preallocate_rr hosting_abc_after_round)) as Hp.
  { rewrite Hqp. apply (bool_decide_unpack _). by vm_compute. }
  assert (NoDup (m_optimistic_rr hosting_abc_after_round)) as Ho.
  { rewrite Hqo. apply (bool_decide_unpack _). by vm_compute. }
  split_and!; [exact Hp|exact Ho|].
  exact (round_serves_region_once hosting_abc_after_round Hp Ho).
Defined.

Section cleanup_heap.
Context `{HD : Hyperdisk}.

Lemma replay_drop_calls (l : list (regionid * disk_ptr))
    (h : disk_ptr → disk) :
  replay (drop_calls l) h = Some (dropped_heap l h).
Proof.
  revert h. induction l as [|[ri d] l IH]; intros h; [done|].
  unfold drop_calls. rewrite bind_cons. cbn [app replay event_effect fst snd].
  apply IH.
Qed.

Lemma dropped_heap_once (l : list (regionid * disk_ptr))
    (h : disk_ptr → disk) ri d :
  NoDup l.*1 → (ri, d) ∈ l → (∀ ri', (ri', d) ∈ l → ri' = ri) →
  dropped_heap l h d = disk_drop (h d).
Proof.
  revert h. induction l as [|[x dx] l IH]; intros h Hnd Hin Hone.
  { by apply elem_of_nil in Hin. }
  rewrite fmap_cons in Hnd. apply NoDup_cons in Hnd as [Hx Hnd].
  change (dropped_heap l (<[dx := disk_drop (h dx)]> h) d = disk_drop (h d)).
  apply elem_of_cons in Hin as [[= -> ->]|Hin].
  - rewrite dropped_heap_other; [by rewrite fn_lookup_insert|].
    intros ([ri' d'] & Hd & Hin')%list_elem_of_fmap. cbn in Hd. subst d'.
    apply Hx. assert (ri' = x) as <- by (apply Hone; by right).
    by apply (list_elem_of_fmap_2 fst _ (ri', dx)).
  - assert (dx ≠ d) as Hne.
    { intros ->. apply Hx. assert (x = ri) as -> by (apply Hone; left).
      by apply (list_elem_of_fmap_2 fst _ (ri, d)). }
    rewrite IH; [by rewrite fn_lookup_insert_ne|done..|].
    intros ri' Hri'. apply Hone. by right.
Qed.

(** C1. [cleanup] keeps the disk of a hosted region exactly when [us] is
    assigned to an entity of the region or the region is the target of a
    transfer to [us]; otherwise it calls [drop] on the disk and erases the
    region's entry.  Regions that were not hosted stay so.  The call is
    made on the disk object: the object of a dropped region is replaced
    by what [disk_drop] makes of it (once, when no other region holds the
    same disk), the objects of kept regions are left as they were, and the
    disk objects after [cleanup] are those the recorded calls leave. *)
Theorem cleanup_retains_iff (c : configuration) (us : instance) (w : world) :
  entity_numbers_fit c →
  let w' := run_state (cleanup c us) w in
  let evs := run_events (cleanup c us) w in
  let kept ri := assigned c us ri ∨ transfer_target c us ri in
  (∀ ri d, m_disks w !! ri = Some d →
     (m_disks w' !! ri = Some d ↔ kept ri) ∧
     (m_disks w' !! ri = None ∧ EvDrop ri d ∈ evs ↔ ¬ kept ri)) ∧
  (∀ ri, m_disks w !! ri = None → m_disks w' !! ri = None) ∧
  (∀ ri d, m_disks w !! ri = Some d → ¬ kept ri →
     (∀ ri', m_disks w !! ri' = Some d → ri' = ri) →
     heap w' d = disk_drop (heap w d)) ∧
  (∀ d, (∀ ri, m_disks w !! ri = Some d → kept ri) → heap w' d = heap w d) ∧
  replay evs (heap w) = Some (heap w').
Proof.
  intros Hfit w' evs kept.
  assert (∀ ri, cleanup_keep c us (transfers_to c us) ri = true ↔ kept ri)
    as Hkeep.
  { intros ri. apply (cleanup_keep_spec c us ri Hfit). }
  assert (∀ ri, cleanup_keep c us (transfers_to c us) ri = false ↔ ¬ kept ri)
    as Hdrop.
  { intros ri. rewrite <- Hkeep.
    by destruct (cleanup_keep c us (transfers_to c us) ri). }
  destruct (cleanup_run c us w) as [Hev Hst]. fold w' evs in Hev, Hst.
  set (dropped :=
    filter (λ d, cleanup_keep c us (transfers_to c us) d.1 = false)
      (map_elements regionid_compare (m_disks w))) in *.
  assert (heap w' = dropped_heap dropped (heap w)) as Hheap by by rewrite Hst.
  assert (∀ ri d, (ri, d) ∈ dropped ↔ m_disks w !! ri = Some d ∧ ¬ kept ri)
    as Hin_dropped.
  { intros ri d. unfold dropped. rewrite list_elem_of_filter.
    rewrite (elem_of_map_elements_1 regionid_compare). cbn.
    rewrite Hdrop. tauto. }
  split_and!.
  - intros ri d Hd. unfold w', evs.
    rewrite cleanup_lookup, cleanup_drop_iff, Hd, Hdrop.
    destruct (cleanup_keep c us (transfers_to c us) ri) eqn:Hk.
    + apply Hkeep in Hk. split; [done|]. split; [by intros [[=] _]|done].
    + apply Hdrop in Hk. split; [done|]. tauto.
  - intros ri Hd. unfold w'. rewrite cleanup_lookup, Hd.
    by destruct (cleanup_keep _ _ _ _).
  - intros ri d Hd Hnk Hone. rewrite Hheap.
    apply (dropped_heap_once dropped (heap w) ri d).
    + apply (sublist_NoDup _ (map_elements regionid_compare (m_disks w)).*1).
      * apply (NoDup_map_elements_keys regionid_compare).
      * apply fmap_sublist, sublist_filter.
    + by apply Hin_dropped.
    + intros ri' [Hd' _]%Hin_dropped. by apply Hone.
  - intros d Hd. rewrite Hheap. apply dropped_heap_other.
    intros ([ri d'] & Heq & [Hd' Hnk]%Hin_dropped)%list_elem_of_fmap.
    cbn in Heq. subst d'. by apply Hnk, Hd.
  - rewrite Hev, Hheap. apply replay_drop_calls.
Qed.
End cleanup_heap.

Example cleanup_busy_example :
  let w' := run_state (cleanup config_a self) hosting_abc_busy in
  m_disks hosting_abc_busy
    = {[ region_a := 0; region_b := 1; region_c := 2 ]} ∧
  heap hosting_abc_busy 1 = repeat SUCCESS 40 ∧
  run_events (cleanup config_a self) hosting_abc_busy =
    [EvLog INFO (MsgDropping region_b); @EvDrop scripted region_b 1;
     EvLog INFO (MsgDropping region_c); EvDrop region_c 2] ∧
  m_disks w' = {[ region_a := 0 ]} ∧
  heap w' 0 = repeat SUCCESS 40 ∧ heap w' 1 = [] ∧ heap w' 2 = [].
Proof. split_and!; vm_compute; reflexivity. Qed.

Lemma cleanup_retains_iff_witness :
  entity_numbers_fit config_a ∧
  let w := hosting_abc_busy in
  let w' := run_state (cleanup config_a self) w in
  let evs := run_events (cleanup config_a self) w in
  let kept ri := assigned config_a self ri ∨ transfer_target config_a self ri in
  (∀ ri d, m_disks w !! ri = Some d →
     (m_disks w' !! ri = Some d ↔ kept ri) ∧
     (m_disks w' !! ri = None ∧ EvDrop ri d ∈ evs ↔ ¬ kept ri)) ∧
  (∀ ri, m_disks w !! ri = None → m_disks w' !! ri = None) ∧
  (∀ ri d, m_disks w !! ri = Some d → ¬ kept ri →
     (∀ ri', m_disks w !! ri' = Some d → ri' = ri) →
     heap w' d = disk_drop (heap w d)) ∧
  (∀ d, (∀ ri, m_disks w !! ri = Some d → kept ri) → heap w' d = heap w d) ∧
  replay evs (heap w) = Some (heap w').
Proof.
  assert (entity_numbers_fit config_a) as Hfit.
  { apply (bool_decide_unpack _). vm_compute. reflexivity. }
  split; [exact Hfit|].
  exact (cleanup_retains_iff config_a self hosting_abc_busy Hfit).
Defined.
